(** * chrompoly: chromatic polynomial by contraction submaps and Moebius inversion

    Shallow embedding of [src/array.h], [src/matrix.c], [src/submap.c] and of
    the worker loop of [src/chrompoly.c].

    Conventions of the embedding.
    - An [array_T] is a [list T]; [array_add] appends at the end.  Allocation
      failure (the [oom] flag) is not modelled.
    - Vertex labels and polynomial coefficients are C [int]s, embedded in [Z].
      Signed overflow is undefined in C, so the arithmetic is that of [Z].
    - Positions in arrays ([size_t] loop counters) and the block indices held
      by edges are natural numbers: edge indices are produced from unsigned
      node positions and are only ever decremented when strictly greater than
      another index.
    - [array_at] past the end is undefined in C.  The embedding reads the
      default value there ([[]] for a block, [0] for an int) and skips a
      write; the lemmas
      [reach_edges_valid], [proper_reach_blocks_bounds] and
      [ordering_matrix_entries] show that the pipeline stays in range. *)

From Stdlib Require Import Ascii.
From stdpp Require Import base numbers list sets sorting.

Set Warnings "-clear-no-such-hyp".

Open Scope Z_scope.

(** ** array.h *)

(** [array_eq]: sizes first, then every pair of elements; the loop does not
    stop at the first difference, it only clears [result]. *)
Definition array_eq {T : Type} (cmp : T → T → bool) (a1 a2 : list T) : bool :=
  if negb (length a1 =? length a2)%nat then false
  else foldl (λ result p, if negb (cmp p.1 p.2) then false else result)
             true (zip a1 a2).

(** [array_contains(a, i, T)] with [T##_eq] passed as [eq]. *)
Definition array_contains {T : Type} (eq : T → T → bool) (a : list T) (i : T) : bool :=
  foldl (λ result _l, if eq _l i then true else result) false a.

(** ** matrix.c *)

Record WYMatrix := mkMatrix { size : nat; entries : list (list Z) }.

(** [matrix_init] allocates [size] rows of [size] ints with [malloc]; the
    contents are indeterminate and are supplied here by [junk]. *)
Definition matrix_init (junk : nat → nat → Z) (size : nat) : WYMatrix :=
  if (size =? 0)%nat then mkMatrix 0 []
  else mkMatrix size (map (λ i, map (junk i) (seq 0 size)) (seq 0 size)).

(** [M.entries[i][j]] *)
Definition entry (M : WYMatrix) (i j : nat) : Z := (entries M !!! i) !!! j.

(** [M.entries[i][j] = x] *)
Definition set_entry (M : WYMatrix) (i j : nat) (x : Z) : WYMatrix :=
  mkMatrix (size M) (<[i := <[j := x]> (entries M !!! i)]> (entries M)).

(** ** submap.c: data *)

Record Edge := mkEdge { start_idx : nat; end_idx : nat }.

(** [typedef array_int Vertex]: a block is an array of labels. *)
Abbreviation Vertex := (list Z) (only parsing).

Record Submap := mkSubmap { vertices : list Vertex; edges : list Edge }.

Global Instance Edge_eq_dec : EqDecision Edge.
Proof. solve_decision. Defined.

Global Instance Submap_eq_dec : EqDecision Submap.
Proof. solve_decision. Defined.

Global Instance Submap_inhabited : Inhabited Submap := populate (mkSubmap [] []).

Definition int_eq (a b : Z) : bool := a =? b.

Definition vertex_eq (v1 v2 : Vertex) : bool := array_eq int_eq v1 v2.

Definition edge_eq (e1 e2 : Edge) : bool :=
  (start_idx e1 =? start_idx e2)%nat && (end_idx e1 =? end_idx e2)%nat.

Definition submap_eq (s1 s2 : Submap) : bool :=
  array_eq vertex_eq (vertices s1) (vertices s2) &&
  array_eq edge_eq (edges s1) (edges s2).

(** The comparator handed to [qsort]. *)
Definition cmp (x y : Z) : Z :=
  if y <? x then 1 else if x <? y then -1 else 0.

(** Modelled from the C library contract: [qsort] rearranges the array in
    ascending order of its comparator.  The arrangement is computed here by
    insertion; for ints compared by [cmp] the ascending arrangement is
    unique, so the choice of algorithm is not observable. *)
Fixpoint qsort_insert (c : Z → Z → Z) (x : Z) (l : list Z) : list Z :=
  match l with
  | [] => [x]
  | y :: l' => if c x y <=? 0 then x :: y :: l' else y :: qsort_insert c x l'
  end.

Definition qsort (c : Z → Z → Z) (l : list Z) : list Z :=
  foldr (qsort_insert c) [] l.

(** ** submap.c: contraction *)

(** The block loop of [get_direct_submaps] (lines 72-92): [k] is the loop
    counter, [rest] the blocks still to visit, [vs] the whole block array.
    [array_at] does not check its index: for [i] inside the array and [j]
    past its end the C code reads past [elems], which is undefined.  The
    total lookup [!!!] gives the empty block there, so this definition
    stands for the code only when both indices lie inside [vs]
    ([contract_blocks_checked], [contract_blocks_checked_exact]); that is
    the case for every edge of a submap satisfying [edges_valid]
    ([contract_blocks_defined]), which the statements about the
    enumeration assume. *)
Fixpoint contract_blocks (vs : list Vertex) (i j k : nat) (rest : list Vertex)
  : list Vertex :=
  match rest with
  | [] => []
  | src :: rest' =>
      if (k =? i)%nat then
        let v1 := vs !!! i in
        let v2 := vs !!! j in
        let identified := qsort cmp (v1 ++ v2) in
        identified :: contract_blocks vs i j (S k) rest'
      else if (k =? j)%nat then contract_blocks vs i j (S k) rest'
      else src :: contract_blocks vs i j (S k) rest'
  end.

(** The same loop with the two reads of [array_at] (lines 74-75) checked:
    [None] when one of them is past the end of the block array. *)
Fixpoint contract_blocks_checked (vs : list Vertex) (i j k : nat)
    (rest : list Vertex) : option (list Vertex) :=
  match rest with
  | [] => Some []
  | src :: rest' =>
      if (k =? i)%nat then
        v1 ← vs !! i;
        v2 ← vs !! j;
        let identified := qsort cmp (v1 ++ v2) in
        vertices ← contract_blocks_checked vs i j (S k) rest';
        Some (identified :: vertices)
      else if (k =? j)%nat then contract_blocks_checked vs i j (S k) rest'
      else
        vertices ← contract_blocks_checked vs i j (S k) rest';
        Some (src :: vertices)
  end.

(** One pass of the edge loop (lines 97-121): the edges contributed by
    [_edge], none when it joins the two merged blocks. *)
Definition remap_edge (i j : nat) (_edge : Edge) : list Edge :=
  let k := start_idx _edge in
  let l := end_idx _edge in
  if ((k =? i) && (l =? j) || (k =? j) && (l =? i))%nat then []
  else if ((k =? i) || (k =? j))%nat then
    let l := if (j <? l)%nat then (l - 1)%nat else l in
    [if (l <? i)%nat then mkEdge l i else mkEdge i l]
  else if ((l =? i) || (l =? j))%nat then
    let k := if (j <? k)%nat then (k - 1)%nat else k in
    [if (k <? i)%nat then mkEdge k i else mkEdge i k]
  else
    let k := if (j <? k)%nat then (k - 1)%nat else k in
    let l := if (j <? l)%nat then (l - 1)%nat else l in
    [if (k <? l)%nat then mkEdge k l else mkEdge l k].

(** The body of the outer loop of [get_direct_submaps]: the child obtained
    by contracting [edge]. *)
Definition contract (submap : Submap) (edge : Edge) : Submap :=
  let i := start_idx edge in
  let j := end_idx edge in
  let '(i, j) := if (j <? i)%nat then (j, i) else (i, j) in
  mkSubmap (contract_blocks (vertices submap) i j 0 (vertices submap))
           (flat_map (remap_edge i j) (edges submap)).

Definition get_direct_submaps (submap : Submap) : list Submap :=
  map (contract submap) (edges submap).

Fixpoint in_submap_array (submaps : list Submap) (submap : Submap) : bool :=
  match submaps with
  | [] => false
  | s :: submaps' =>
      if submap_eq s submap then true else in_submap_array submaps' submap
  end.

(** ** submap.c: enumeration *)

(** The globals of [submap.c] owned by the worker.  [graph_changed] is
    written by the editor thread; it is not part of this record but an
    oracle [nat → bool] giving the value the worker sees at its [polls]-th
    reading. *)
Record Globals := mkGlobals {
  stop_flag : bool;
  cur_submap_count : nat;
  cur_matrix_rows_count : nat;
  _all_submaps : list Submap;
  polls : nat
}.

Definition init_globals : Globals := mkGlobals false 0 0 [] 0.

Definition tick (g : Globals) : Globals :=
  mkGlobals (stop_flag g) (cur_submap_count g) (cur_matrix_rows_count g)
            (_all_submaps g) (S (polls g)).

Definition set_stop_flag (b : bool) (g : Globals) : Globals :=
  mkGlobals b (cur_submap_count g) (cur_matrix_rows_count g)
            (_all_submaps g) (polls g).

Definition set_cur_submap_count (c : nat) (g : Globals) : Globals :=
  mkGlobals (stop_flag g) c (cur_matrix_rows_count g) (_all_submaps g) (polls g).

Definition set_cur_matrix_rows_count (c : nat) (g : Globals) : Globals :=
  mkGlobals (stop_flag g) (cur_submap_count g) c (_all_submaps g) (polls g).

Definition set_all_submaps (l : list Submap) (g : Globals) : Globals :=
  mkGlobals (stop_flag g) (cur_submap_count g) (cur_matrix_rows_count g)
            l (polls g).

(** A loop whose body threads the globals and may run out of fuel. *)
Fixpoint for_each {A S : Type} (body : A → S → option S) (l : list A) (s : S)
  : option S :=
  match l with
  | [] => Some s
  | x :: l' => match body x s with
               | Some s' => for_each body l' s'
               | None => None
               end
  end.

(** [_handle].  The C function recurses without a bound; [fuel] bounds the
    recursion depth and [None] means that it ran out.  [handle_fuel] shows
    that [S (length (edges submap))] is always enough. *)
Fixpoint _handle (graph_changed : nat → bool) (fuel : nat) (submap : Submap)
    (g : Globals) : option Globals :=
  match fuel with
  | O => None
  | S fuel' =>
      let changed := graph_changed (polls g) in
      let g := tick g in
      if changed || stop_flag g then Some (set_stop_flag true g)
      else
        let inside := in_submap_array (_all_submaps g) submap in
        if inside then Some g
        else
          let direct_submaps := get_direct_submaps submap in
          match (if (1 <? length (vertices submap))%nat
                 then for_each (_handle graph_changed fuel') direct_submaps g
                 else Some g) with
          | None => None
          | Some g =>
              let g := set_cur_submap_count (S (cur_submap_count g)) g in
              Some (set_all_submaps
                      (_all_submaps g ++ [mkSubmap (vertices submap) (edges submap)]) g)
          end
  end.

Definition get_all_submaps (graph_changed : nat → bool) (submap : Submap)
    (g : Globals) : option (list Submap * Globals) :=
  let g := set_all_submaps [] g in
  match _handle graph_changed (S (length (edges submap))) submap g with
  | None => None
  | Some g =>
      let g := set_stop_flag false g in
      let g := set_cur_submap_count 0 g in
      Some (_all_submaps g, g)
  end.

Definition from_graph (n : nat) (edges : list Edge) : Submap :=
  let vertices := map (λ i : nat, [Z.of_nat i]) (seq 0 n) in
  let edges_copy := foldl (λ acc edge, acc ++ [edge]) [] edges in
  mkSubmap vertices edges_copy.

(** ** submap.c: the order matrix *)

(** [_find_node_idx]: index of the first block containing [n], or [-1];
    [i] is the loop counter. *)
Fixpoint find_node_loop (i : nat) (vs : list Vertex) (n : Z) : Z :=
  match vs with
  | [] => -1
  | v :: vs' =>
      if array_contains int_eq v n then Z.of_nat i
      else find_node_loop (S i) vs' n
  end.

Definition _find_node_idx (submap : Submap) (n : Z) : Z :=
  find_node_loop 0 (vertices submap) n.

(** The inner loop of [submap_ge] over one block [v] of [s1]: [i] is the
    loop counter and [idx] the local that is assigned at [i = 0]. *)
Fixpoint submap_ge_block (s2 : Submap) (i : nat) (idx : Z) (v : list Z) : bool :=
  match v with
  | [] => true
  | n :: v' =>
      let found_idx := _find_node_idx s2 n in
      if (i =? 0)%nat then submap_ge_block s2 (S i) found_idx v'
      else if negb (found_idx =? idx) then false
      else submap_ge_block s2 (S i) idx v'
  end.

(** [submap_ge].  [idx] is declared without initialiser; it is read only
    after the assignment at [i = 0], so the value [0] given here is never
    observed ([submap_ge_block_init]).  The C code passes [&s2->vertices]
    to [_find_node_idx]; [vertices] is the first member of [Submap], so
    this is the address of [*s2] and the search runs over the blocks of
    [s2]. *)
Definition submap_ge (s1 s2 : Submap) : bool :=
  forallb (submap_ge_block s2 0 0) (vertices s1).

(** The inner loop of [get_ordering_matrix]: row [i] of [M]. *)
Definition ordering_row (submaps : list Submap) (i : nat) (s1 : Submap)
    (M : WYMatrix) : WYMatrix :=
  foldl (λ M p,
           let j : nat := p.1 in
           let s2 : Submap := p.2 in
           let x := submap_ge s2 s1 in
           if (i <=? j)%nat && x then set_entry M i j 1 else set_entry M i j 0)
        M (imap pair submaps).

(** The outer loop of [get_ordering_matrix] over the rows still to do. *)
Fixpoint ordering_rows (graph_changed : nat → bool) (submaps : list Submap)
    (rows : list (nat * Submap)) (M : WYMatrix) (g : Globals)
  : WYMatrix * Globals :=
  match rows with
  | [] => (M, set_cur_matrix_rows_count 0 g)
  | (i, s1) :: rows' =>
      let g := set_cur_matrix_rows_count (S (cur_matrix_rows_count g)) g in
      let changed := graph_changed (polls g) in
      let g := tick g in
      if changed || stop_flag g then
        let g := set_stop_flag false g in
        let g := set_cur_submap_count 0 g in
        let g := set_cur_matrix_rows_count 0 g in
        (M, g)
      else ordering_rows graph_changed submaps rows'
             (ordering_row submaps i s1 M) g
  end.

Definition get_ordering_matrix (graph_changed : nat → bool) (junk : nat → nat → Z)
    (submaps : list Submap) (g : Globals) : WYMatrix * Globals :=
  let size := length submaps in
  let M := matrix_init junk size in
  ordering_rows graph_changed submaps (imap pair submaps) M g.

(** ** submap.c: Moebius values and coefficients *)

(** One pass of the second loop of [get_mobius_of_column], with the
    arithmetic done in [Z].  The C code computes in [int]; these are its
    values as long as no operation leaves the range of [int]
    ([mobius_step_int], [mobius_step_int_exact]). *)
Definition mobius_step (M : WYMatrix) (unknowns : list Z) (j : nat) : list Z :=
  let unknown :=
    if (j =? size M - 1)%nat then 1
    else
      let unknown :=
        foldl (λ unknown k, unknown + (unknowns !!! k) * entry M j k)
              0 (seq 0 (size M)) in
      - unknown in
  <[j := unknowns !!! j + unknown]> unknowns.

(** [get_mobius_of_column] over [Z]: the vector the C function returns
    whenever none of its [int] operations overflows
    ([get_mobius_of_column_int_exact]). *)
Definition get_mobius_of_column (M : WYMatrix) : list Z :=
  let unknowns := foldl (λ unknowns _, unknowns ++ [0]) [] (rev (seq 0 (size M))) in
  foldl (mobius_step M) unknowns (rev (seq 0 (size M))).

(** [int] is 32 bits wide. *)
Definition INT_MIN : Z := - 2 ^ 31.
Definition INT_MAX : Z := 2 ^ 31 - 1.

(** The result of an operation on [int] whose mathematical value is [z]:
    signed overflow is undefined ([None]). *)
Definition int_result (z : Z) : option Z :=
  if (INT_MIN <=? z) && (z <=? INT_MAX) then Some z else None.

(** One pass of the second loop of [get_mobius_of_column] (lines 260-269)
    in [int]: the product, the two [+=] and the negation are each an [int]
    operation. *)
Definition mobius_step_int (M : WYMatrix) (unknowns : list Z) (j : nat)
  : option (list Z) :=
  unknown ← (if (j =? size M - 1)%nat then Some 1
             else
               unknown ← foldl (λ unknown k,
                                  unknown ← unknown;
                                  product ← int_result ((unknowns !!! k) * entry M j k);
                                  int_result (unknown + product))
                               (Some 0) (seq 0 (size M));
               int_result (- unknown));
  sum ← int_result (unknowns !!! j + unknown);
  Some (<[j := sum]> unknowns).

(** [get_mobius_of_column] as the C code computes it (lines 251-272). *)
Definition get_mobius_of_column_int (M : WYMatrix) : option (list Z) :=
  let unknowns := foldl (λ unknowns _, unknowns ++ [0]) [] (rev (seq 0 (size M))) in
  foldl (λ unknowns j, unknowns ← unknowns; mobius_step_int M unknowns j)
        (Some unknowns) (rev (seq 0 (size M))).

(** [get_chromatic_polynomial].  The index [array_size(..) - 1] is computed
    in [size_t]; for a submap without blocks it would wrap around.  No
    submap of the pipeline is without blocks ([proper_reach_blocks_bounds]). *)
Definition get_chromatic_polynomial (n : nat) (submaps : list Submap)
    (M : WYMatrix) : list Z :=
  let P := foldl (λ P _, P ++ [0]) [] (seq 0 n) in
  let mobiuses := get_mobius_of_column M in
  foldl (λ P p,
           let i : nat := p.1 in
           let mobius : Z := p.2 in
           let submap := submaps !!! i in
           let at_ := (length (vertices submap) - 1)%nat in
           <[at_ := P !!! at_ + mobius]> P)
        P (imap pair mobiuses).

(** The polynomial denoted by a coefficient array: [P[k]] is the
    coefficient of [x^(k+1)], as [polynomial_print] writes it. *)
Definition polynomial_eval (P : list Z) (q : Z) : Z :=
  foldr (λ p acc, p.2 * q ^ Z.of_nat (S p.1) + acc) 0 (imap pair P).

(** ** chrompoly.c: the worker loop *)

(** A node of the editor; only [deleted] matters to the worker. *)
Record Node := mkNode {
  x : Z;
  y : Z;
  selected : bool;
  deleted : bool;
  plop_animation_timer : Z;
  disappear_animation_timer : Z
}.

Definition active_node_count (nodes : list Node) : nat :=
  foldl (λ count node, if negb (deleted node) then S count else count) 0%nat nodes.

(** The text in [output] is a function of what it was last set from; the
    formatting into codepoints is not modelled. *)
Inductive Output :=
| OutLoading
| OutPolynomial (P : list Z).

Inductive Mutex := graph_changed_mutex | nodes_mutex.

(** What one pass of the worker does to the shared objects, in program
    order: mutex operations, reads of the shared graph, the worker's write
    of [graph_changed], and writes of the [output] slot. *)
Inductive Event :=
| mtx_lock (m : Mutex)
| mtx_unlock (m : Mutex)
| clear_graph_changed
| read_nodes
| read_edges
| set_output (o : Output).

Global Instance Output_eq_dec : EqDecision Output.
Proof. solve_decision. Defined.

Global Instance Mutex_eq_dec : EqDecision Mutex.
Proof. solve_decision. Defined.

Global Instance Event_eq_dec : EqDecision Event.
Proof. solve_decision. Defined.

(** The worker's view: the globals of [submap.c], the globals
    [all_submaps], [chromatic_polynomial] and [output] of [chrompoly.c], the
    local [M] of [calculate], and the events emitted so far. *)
Record Worker := mkWorker {
  globals : Globals;
  all_submaps : list Submap;
  local_M : WYMatrix;
  chromatic_polynomial : list Z;
  output : Output;
  trace : list Event
}.

Definition emit (evs : list Event) (w : Worker) : Worker :=
  mkWorker (globals w) (all_submaps w) (local_M w) (chromatic_polynomial w)
           (output w) (trace w ++ evs).

Definition set_output_to (o : Output) (w : Worker) : Worker :=
  mkWorker (globals w) (all_submaps w) (local_M w) (chromatic_polynomial w)
           o (trace w ++ [set_output o]).

(** One pass of the body of [while (is_running)] in [calculate] (lines
    304-332).  [nodes] and [edges] are the contents of the shared arrays at
    the moments the worker reads them; [junk] is the content of the memory
    that [matrix_init] obtains. *)
Definition calculate_iteration (graph_changed : nat → bool) (junk : nat → nat → Z)
    (nodes : list Node) (edges : list Edge) (w : Worker) : option Worker :=
  let changed := graph_changed (polls (globals w)) in
  let w := mkWorker (tick (globals w)) (all_submaps w) (local_M w)
                    (chromatic_polynomial w) (output w) (trace w) in
  if negb changed then Some w
  else
    (* array_term(&chromatic_polynomial) *)
    let w := mkWorker (globals w) (all_submaps w) (local_M w) [] (output w) (trace w) in
    let w := emit [mtx_lock graph_changed_mutex; clear_graph_changed;
                   mtx_unlock graph_changed_mutex] w in
    let w := set_output_to OutLoading w in
    let w := emit [mtx_lock nodes_mutex; read_nodes] w in
    let n := active_node_count nodes in
    let w := emit [mtx_unlock nodes_mutex] w in
    if (n =? 0)%nat then Some w
    else
      let w := emit [read_edges] w in
      let submap := from_graph n edges in
      match get_all_submaps graph_changed submap (globals w) with
      | None => None
      | Some (submaps, g) =>
          let '(M, g) := get_ordering_matrix graph_changed junk submaps g in
          let P := get_chromatic_polynomial n submaps M in
          let w := mkWorker g submaps M P (output w) (trace w) in
          Some (set_output_to (OutPolynomial P) w)
      end.

Definition init_worker : Worker :=
  mkWorker init_globals [] (mkMatrix 0 []) [] OutLoading [].

(** Whether mutex [m] is held after the events [evs]. *)
Definition held (m : Mutex) (evs : list Event) : bool :=
  foldl (λ h ev, if decide (ev = mtx_lock m) then true
                 else if decide (ev = mtx_unlock m) then false else h)
        false evs.

Definition reads_graph (ev : Event) : bool :=
  match ev with
  | read_nodes | read_edges => true
  | _ => false
  end.

(** Every read of the shared graph in [evs] happens while [nodes_mutex] is
    held. *)
Definition graph_reads_guarded (evs : list Event) : Prop :=
  ∀ k ev, evs !! k = Some ev → reads_graph ev = true →
          held nodes_mutex (take k evs) = true.

Definition triangle : list Edge := [mkEdge 0 1; mkEdge 0 2; mkEdge 1 2].

(** The signal of a pass during which the editor changes nothing. *)
Definition quiet : nat → bool := λ _, false.

(** The pipeline of a pass, from the snapshot to the coefficient array. *)
Definition pipeline (graph_changed : nat → bool) (junk : nat → nat → Z)
    (n : nat) (edges : list Edge) : option (list Z) :=
  match get_all_submaps graph_changed (from_graph n edges) init_globals with
  | None => None
  | Some (submaps, g) =>
      let '(M, g) := get_ordering_matrix graph_changed junk submaps g in
      Some (get_chromatic_polynomial n submaps M)
  end.

Definition three_nodes : list Node :=
  [mkNode 0 0 false false 0 0; mkNode 1 0 false false 0 0; mkNode 0 1 false false 0 0].

(** * Specification predicates *)

(** The two block indices of the contraction, smaller first (lines 60-67). *)
Definition lo (e : Edge) : nat := Nat.min (start_idx e) (end_idx e).
Definition hi (e : Edge) : nat := Nat.max (start_idx e) (end_idx e).

(** Edge indices in range and without self-loop. *)
Definition edge_valid (nb : nat) (e : Edge) : Prop :=
  (start_idx e < nb)%nat ∧ (end_idx e < nb)%nat ∧ start_idx e ≠ end_idx e.

Definition edges_valid (s : Submap) : Prop :=
  Forall (edge_valid (length (vertices s))) (edges s).

(** No two edges equal as unordered pairs. *)
Definition same_pair (e1 e2 : Edge) : Prop :=
  (start_idx e1 = start_idx e2 ∧ end_idx e1 = end_idx e2) ∨
  (start_idx e1 = end_idx e2 ∧ end_idx e1 = start_idx e2).

Definition no_duplicate_edge (es : list Edge) : Prop :=
  ∀ p q e1 e2, es !! p = Some e1 → es !! q = Some e2 → same_pair e1 e2 → p = q.

Definition submap_invariants (s : Submap) : Prop :=
  edges_valid s ∧ no_duplicate_edge (edges s).

(** The smallest label of a block; blocks of a submap are never empty. *)
Definition min_label (v : Vertex) : Z :=
  match v with
  | [] => 0
  | n :: v' => foldl Z.min n v'
  end.

(** Every block lists its labels in ascending order. *)
Definition blocks_sorted (s : Submap) : Prop :=
  Forall (StronglySorted Z.le) (vertices s).

(** The block sequence is ordered by strictly increasing minimum label:
    every block has a minimum label (it is not empty), and a block that
    comes earlier has the smaller one. *)
Definition blocks_by_min (s : Submap) : Prop :=
  Forall (λ v, v ≠ []) (vertices s) ∧
  StronglySorted (λ v1 v2 : Vertex, min_label v1 < min_label v2) (vertices s).

Definition canonical (s : Submap) : Prop := blocks_sorted s ∧ blocks_by_min s.

(** Two submaps have the same blocks, whatever the order of the blocks and
    of the labels inside them. *)
Definition same_partition (s1 s2 : Submap) : Prop :=
  (∀ b1, b1 ∈ vertices s1 → ∃ b2, b2 ∈ vertices s2 ∧ b1 ≡ₚ b2) ∧
  (∀ b2, b2 ∈ vertices s2 → ∃ b1, b1 ∈ vertices s1 ∧ b2 ≡ₚ b1).

(** [sum_upto m f] is the sum of [f t] over all indices [t < m]. *)
Definition sum_upto (m : nat) (f : nat → Z) : Z :=
  foldr (λ t acc, f t + acc) 0 (seq 0 m).

(** Ones on the diagonal, zeros below it. *)
Definition unit_upper_triangular (M : WYMatrix) : Prop :=
  ∀ i j, (i < size M)%nat → (j < size M)%nat →
         (i = j → entry M i j = 1) ∧ ((j < i)%nat → entry M i j = 0).

Definition zero_one (M : WYMatrix) : Prop :=
  ∀ i j, (i < size M)%nat → (j < size M)%nat → entry M i j = 0 ∨ entry M i j = 1.

(** What holds after the passes [j = m-1, ..., j0] of the second loop of
    [get_mobius_of_column]. *)
Definition mobius_inv (M : WYMatrix) (j0 : nat) (u : list Z) : Prop :=
  length u = size M ∧
  (∀ k, (k < j0)%nat → u !!! k = 0) ∧
  (∀ s, (j0 ≤ s < size M)%nat →
        sum_upto (size M) (λ t, u !!! t * entry M s t)
        = if (s =? size M - 1)%nat then 1 else 0) ∧
  ((j0 < size M)%nat → u !!! (size M - 1)%nat = 1).

(** [reach s x]: [x] is obtained from [s] by contracting edges, one after
    the other. *)
Inductive reach : Submap → Submap → Prop :=
| reach_refl s : reach s s
| reach_step s c x : c ∈ get_direct_submaps s → reach c x → reach s x.

(** At least one contraction. *)
Definition proper_reach (s x : Submap) : Prop :=
  ∃ c, c ∈ get_direct_submaps s ∧ reach c x.

(** In [l], the children that [_handle] visits for a submap stand before
    that submap. *)
Definition children_first (l : list Submap) : Prop :=
  ∀ p s c, l !! p = Some s → (1 < length (vertices s))%nat →
           c ∈ get_direct_submaps s → ∃ q, (q < p)%nat ∧ l !! q = Some c.

(** The graph handed to the core: edges in range, no self-loop, no edge
    twice. *)
Definition well_formed_graph (n : nat) (es : list Edge) : Prop :=
  Forall (edge_valid n) es ∧ no_duplicate_edge es.

(** The signal is never read set. *)
Definition never_set (graph_changed : nat → bool) : Prop :=
  ∀ t, graph_changed t = false.

(** What a visit of [s] leaves behind when the signal stays clear. *)
Definition visited (s : Submap) (g g' : Globals) : Prop :=
  stop_flag g' = false ∧
  children_first (_all_submaps g') ∧ NoDup (_all_submaps g') ∧
  s ∈ _all_submaps g' ∧
  ∃ added, _all_submaps g' = _all_submaps g ++ added ∧
    (s ∈ _all_submaps g → added = []) ∧
    (s ∉ _all_submaps g →
       ∃ added', added = added' ++ [s] ∧ ∀ x, x ∈ added' → proper_reach s x).

(** A square matrix of the size it announces. *)
Definition well_shaped (M : WYMatrix) : Prop :=
  length (entries M) = size M ∧ Forall (λ row, length row = size M) (entries M).

(** The value that [get_ordering_matrix] stores at [(i, j)]. *)
Definition order_value (i j : nat) (s1 s2 : Submap) : Z :=
  if (i <=? j)%nat && submap_ge s2 s1 then 1 else 0.

(** The elements of [ps] carry their own positions in [l]. *)
Definition enumerates (l : list Submap) (ps : list (nat * Submap)) : Prop :=
  ∀ k p, ps !! k = Some p → p.1 = k ∧ l !! k = Some p.2.

(** No label occurs in two blocks. *)
Definition blocks_disjoint (s : Submap) : Prop :=
  ∀ p q b1 b2 n, vertices s !! p = Some b1 → vertices s !! q = Some b2 →
                 n ∈ b1 → n ∈ b2 → p = q.

(** What the second loop of [get_mobius_of_column] maintains for any
    matrix: zeros below [j0], and 1 at the last index once it is passed. *)
Definition mobius_shape_inv (M : WYMatrix) (j0 : nat) (u : list Z) : Prop :=
  length u = size M ∧
  (∀ k, (k < j0)%nat → u !!! k = 0) ∧
  ((j0 < size M)%nat → u !!! (size M - 1)%nat = 1).

(** The loop body of [get_chromatic_polynomial]. *)
Definition add_mobius (submaps : list Submap) (P : list Z) (p : nat * Z) : list Z :=
  let i : nat := p.1 in
  let mobius : Z := p.2 in
  let submap := submaps !!! i in
  let at_ := (length (vertices submap) - 1)%nat in
  <[at_ := P !!! at_ + mobius]> P.

(** [is_coarsening_of coarse fine]: every block of [fine] is a subset of
    exactly one block of [coarse]. *)
Definition is_coarsening_of (coarse fine : Submap) : Prop :=
  ∀ v, v ∈ vertices fine →
       ∃ q, (∃ c, vertices coarse !! q = Some c ∧ v ⊆ c) ∧
            ∀ q', (∃ c', vertices coarse !! q' = Some c' ∧ v ⊆ c') → q' = q.

(** The blocks of [s] are non-empty and split the labels [labels]. *)
Definition partitions (labels : list Z) (s : Submap) : Prop :=
  Forall (λ v, v ≠ []) (vertices s) ∧ concat (vertices s) ≡ₚ labels.

(** The labels of a graph on [n] vertices. *)
Definition graph_labels (n : nat) : list Z := Z.of_nat <$> seq 0 n.

(** The graph with two vertices and one edge. *)
Definition single_edge : list Edge := [mkEdge 0 1].

(** The order matrix of the graph with one edge. *)
Definition edge_order_matrix : WYMatrix := mkMatrix 2 [[1; 1]; [0; 1]].

(** The five submaps of the triangle, in the order in which
    [get_all_submaps] lists them ([triangle_submaps_enumerated]). *)
Definition triangle_submaps : list Submap :=
  [mkSubmap [[0; 1; 2]] [];
   mkSubmap [[0; 1]; [2]] [mkEdge 0 1; mkEdge 0 1];
   mkSubmap [[0; 2]; [1]] [mkEdge 0 1; mkEdge 0 1];
   mkSubmap [[0]; [1; 2]] [mkEdge 0 1; mkEdge 0 1];
   mkSubmap [[0]; [1]; [2]] [mkEdge 0 1; mkEdge 0 2; mkEdge 1 2]].

(** The order matrix of the triangle ([triangle_order_matrix_computed]). *)
Definition triangle_order_matrix : WYMatrix :=
  mkMatrix 5 [[1; 1; 1; 1; 1];
              [0; 1; 0; 0; 1];
              [0; 0; 1; 0; 1];
              [0; 0; 0; 1; 1];
              [0; 0; 0; 0; 1]].

(** The signal of a pass that is started by one change and sees no other. *)
Definition changed_once : nat → bool := λ t, (t =? 0)%nat.

(** The signal of a pass that is started by one change, reads the flag
    clear at the first visit of [_handle], and set from then on: the editor
    has changed the graph again while the enumeration runs. *)
Definition changed_again : nat → bool := λ t, negb (t =? 1)%nat.

(** The worker after a pass that published the polynomial x^2 - x. *)
Definition after_single_edge : Worker :=
  mkWorker init_globals
           [mkSubmap [[0; 1]] []; mkSubmap [[0]; [1]] [mkEdge 0 1]]
           edge_order_matrix [-1; 1] (OutPolynomial [-1; 1]) [].

(** [key_lt f a b]: [a] comes strictly before [b] by the key [f]. *)
Definition key_lt {A : Type} (f : A → Z) : relation A := λ a b, f a < f b.

Ltac split_tests :=
  repeat match goal with
         | |- context [(?a =? ?b)%nat] => destruct (Nat.eqb_spec a b)
         | |- context [(?a <? ?b)%nat] => destruct (Nat.ltb_spec a b)
         | H : context [(?a =? ?b)%nat] |- _ => destruct (Nat.eqb_spec a b)
         | H : context [(?a <? ?b)%nat] |- _ => destruct (Nat.ltb_spec a b)
         end; simpl in *.

(** The child of the triangle by its edge (0,1). *)
Definition triangle_child : Submap :=
  mkSubmap [[0; 1]; [2]] [mkEdge 0 1; mkEdge 0 1].

(** The position of the block of [vs] that holds the label [u]. *)
Definition block_index (vs : list (list Z)) (u : Z) : nat :=
  Z.to_nat (find_node_loop 0 vs u).

(** The edge of a submap with blocks [vs] that comes from the edge [e0] of
    the input graph: none when both ends lie in one block, otherwise the
    two block positions, smaller first. *)
Definition project (vs : list (list Z)) (e0 : Edge) : list Edge :=
  let p := block_index vs (Z.of_nat (start_idx e0)) in
  let q := block_index vs (Z.of_nat (end_idx e0)) in
  if (p =? q)%nat then [] else [mkEdge (p `min` q) (p `max` q)].

(** Where position [p] goes when block [j] is merged into block [i]. *)
Definition renumber (i j p : nat) : nat :=
  if (p =? j)%nat then i else if (j <? p)%nat then (p - 1)%nat else p.

(** ** chrompoly.c: the editor's edge list *)

(** The loop of [add_edge] (lines 124-129): whether some edge joins the
    same pair, in either direction. *)
Fixpoint add_edge_loop (edges : list Edge) (start_ end_ : nat) : bool :=
  match edges with
  | [] => false
  | edge :: edges' =>
      if ((start_idx edge =? start_) && (end_idx edge =? end_)
          || (start_idx edge =? end_) && (end_idx edge =? start_))%nat
      then true
      else add_edge_loop edges' start_ end_
  end.

(** [add_edge]; the parameters [start_idx] and [end_idx] are written
    [start_] and [end_]. *)
Definition add_edge (edges : list Edge) (start_ end_ : nat) : list Edge :=
  let new_edge := mkEdge start_ end_ in
  if (length edges =? 0)%nat then edges ++ [new_edge]
  else if add_edge_loop edges start_ end_ then edges
  else edges ++ [new_edge].

(** The first loop run by [main] when node [selected_idx] is deleted (lines
    400-409).  It deletes from the array it walks: after [array_del] the
    counter is decremented and the loop increment brings it back, so [i]
    stays; [array_del]'s assertion [i < size] holds because the element was
    just read.  Each pass deletes an edge or advances [i]; [fuel] bounds
    the passes and [None] means that it ran out. *)
Fixpoint remove_incident_loop (fuel : nat) (selected_idx i : nat)
    (edges : list Edge) : option (list Edge) :=
  match edges !! i with
  | None => Some edges
  | Some edge =>
      match fuel with
      | O => None
      | S fuel' =>
          if ((start_idx edge =? selected_idx) || (end_idx edge =? selected_idx))%nat
          then remove_incident_loop fuel' selected_idx i (delete i edges)
          else remove_incident_loop fuel' selected_idx (S i) edges
      end
  end.

(** The body of the second loop (lines 410-415). *)
Definition shift_edge (selected_idx : nat) (edge : Edge) : Edge :=
  mkEdge (if (selected_idx <? start_idx edge)%nat
          then (start_idx edge - 1)%nat else start_idx edge)
         (if (selected_idx <? end_idx edge)%nat
          then (end_idx edge - 1)%nat else end_idx edge).

(** Both loops: what deleting node [selected_idx] does to the edge list. *)
Definition delete_node_edges (selected_idx : nat) (edges : list Edge)
  : option (list Edge) :=
  match remove_incident_loop (length edges) selected_idx 0 edges with
  | None => None
  | Some edges => Some (map (shift_edge selected_idx) edges)
  end.

(** Whether an edge touches node [k]. *)
Definition incident (k : nat) (e : Edge) : Prop :=
  start_idx e = k ∨ end_idx e = k.

(** ** chrompoly.c: active nodes *)

(** [unsigned int] is taken to be 32 bits wide; [-1] converted to it. *)
Definition UINT_MAX : Z := 2 ^ 32 - 1.

(** The loop of [get_ith_active_node_idx]; [j] is the loop counter and [i]
    the [unsigned int] parameter, decremented with wrap-around.  The
    function has no [return] after the loop: [None] stands for the
    indeterminate value it then yields. *)
Fixpoint get_ith_active_node_loop (j : nat) (nodes : list Node) (i : Z)
  : option nat :=
  match nodes with
  | [] => None
  | node :: nodes' =>
      let i := if negb (deleted node) then (i - 1) `mod` 2 ^ 32 else i in
      if i =? UINT_MAX then Some j
      else get_ith_active_node_loop (S j) nodes' i
  end.

Definition get_ith_active_node_idx (nodes : list Node) (i : Z) : option nat :=
  get_ith_active_node_loop 0 nodes i.

(** ** chrompoly.c: numbers in the output text *)

(** [ten_pow]; overflow of the [int] result is not modelled. *)
Definition ten_pow (n : Z) : Z :=
  foldl (λ res _, res * 10) 1 (seq 0 (Z.to_nat n)).

(** The [while] loop of [num_digits]; [fuel] bounds its passes and [None]
    means that it ran out. *)
Fixpoint num_digits_loop (fuel : nat) (i n : Z) : option Z :=
  if 1 <=? n then
    match fuel with
    | O => None
    | S fuel' => num_digits_loop fuel' (i + 1) (n ÷ 10)
    end
  else Some i.

Definition num_digits (n : Z) : option Z := num_digits_loop (Z.to_nat n) 0 n.

Definition get_superscript_codepoint (digit : Z) : Z :=
  if digit =? 0 then 0x2070
  else if digit =? 1 then 0xb9
  else if (digit =? 2) || (digit =? 3) then 0xb2 + (digit - 2)
  else 0x2074 + (digit - 4).

(** The loop shared by [add_number_to_output] and
    [add_superscript_number_to_output]: [glyph] is [0x30 + _] in the first
    and [get_superscript_codepoint] in the second.  [output] is the filled
    part of the buffer; its capacity of 1000 is not modelled. *)
Definition add_digits (glyph : Z → Z) (d n : Z) (output : list Z) : list Z :=
  (foldl (λ st (i : nat),
            let div := ten_pow (Z.of_nat i) in
            (st.1 ++ [glyph (st.2 ÷ div)], Z.rem st.2 div))
         (output, n) (rev (seq 0 (Z.to_nat d)))).1.

Definition add_number_to_output (output : list Z) (n : Z) : option (list Z) :=
  match num_digits n with
  | None => None
  | Some d => Some (add_digits (λ q, 0x30 + q) d n output)
  end.

Definition add_superscript_number_to_output (output : list Z) (n : Z)
  : option (list Z) :=
  match num_digits n with
  | None => None
  | Some d => Some (add_digits get_superscript_codepoint d n output)
  end.

(** The number written by a sequence of ASCII digits. *)
Definition decimal_value (ds : list Z) : Z :=
  foldl (λ acc c, acc * 10 + (c - 0x30)) 0 ds.

(** The digit shown by a superscript codepoint. *)
Definition superscript_digit (c : Z) : Z :=
  if c =? 0x2070 then 0
  else if c =? 0xb9 then 1
  else if c =? 0xb2 then 2
  else if c =? 0xb3 then 3
  else c - 0x2070.

(** The array [codepoints] of [main], with which the font is loaded. *)
Definition codepoints : list Z :=
  [0x61; 0x62; 0x63; 0x64; 0x65; 0x66; 0x67; 0x68; 0x69;
   0x6a; 0x6b; 0x6c; 0x6d; 0x6e; 0x6f; 0x70; 0x71; 0x72;
   0x73; 0x74; 0x75; 0x76; 0x77; 0x78; 0x79; 0x41; 0x42;
   0x43; 0x44; 0x45; 0x46; 0x47; 0x48; 0x49; 0x4a; 0x4b;
   0x4c; 0x4d; 0x4e; 0x4f; 0x50; 0x51; 0x52; 0x53; 0x54;
   0x55; 0x56; 0x57; 0x58; 0x59; 0x30; 0x31; 0x32; 0x33;
   0x34; 0x35; 0x36; 0x37; 0x38; 0x39; 0x20; 0x2e; 0x2f;
   0x3a; 0xb2; 0xb3; 0x2070; 0x00B9; 0x2074; 0x2075; 0x2076; 0x2077;
   0x2078; 0x2079; 0x2d; 0x2b].

(** ** chrompoly.c: the output text *)

(** The code of a character constant. *)
Definition char_code (c : ascii) : Z := Z.of_nat (nat_of_ascii c).

(** [get_ascii_codepoint].  The C function ends without [return] when no
    branch applies: [None] stands for the indeterminate value it then
    yields. *)
Definition get_ascii_codepoint (c : Z) : option Z :=
  if (char_code "a" <=? c) && (c <=? char_code "z")
  then Some (0x61 + (c - char_code "a"))
  else if (char_code "A" <=? c) && (c <=? char_code "Z")
  then Some (0x41 + (c - char_code "A"))
  else if (char_code "0" <=? c) && (c <=? char_code "9")
  then Some (0x30 + (c - char_code "0"))
  else if c =? char_code " " then Some 0x20
  else if c =? char_code "/" then Some 0x2f
  else if c =? char_code "+" then Some 0x2b
  else if c =? char_code "-" then Some 0x2d
  else None.

Definition add_ascii_char_to_output (output : list Z) (c : ascii)
  : option (list Z) :=
  match get_ascii_codepoint (char_code c) with
  | Some v => Some (output ++ [v])
  | None => None
  end.

(** [add_ascii_string_to_output(s, n)] for a string of [n] characters. *)
Definition add_ascii_string_to_output (output : list Z) (s : list ascii)
  : option (list Z) :=
  foldl (λ output c, output ≫= λ output, add_ascii_char_to_output output c)
        (Some output) s.

(** [set_output_to_loading]: the buffer is cleared and "..." is added. *)
Definition set_output_to_loading : option (list Z) :=
  add_ascii_string_to_output [] ["."; "."; "."]%char.

(** The first loop of [set_output_to_polynomial], which stops at the first
    non-zero coefficient; [None] when [degree] is left unassigned. *)
Fixpoint find_degree (power : nat) (P : list Z) : option Z :=
  match P with
  | [] => None
  | coeff :: P' =>
      if negb (coeff =? 0) then Some (Z.of_nat power + 1)
      else find_degree (S power) P'
  end.

(** One pass of the second loop of [set_output_to_polynomial].  Reading
    [degree] while it is unassigned is undefined: [None]. *)
Definition polynomial_term (P : list Z) (degree : option Z) (output : list Z)
    (power : nat) : option (list Z) :=
  let coeff := P !!! (power - 1)%nat in
  output ← (if (0 <? coeff) && (Z.of_nat power <? Z.of_nat (length P) - 1)
            then add_ascii_char_to_output output "+"
            else if coeff <? 0 then add_ascii_char_to_output output "-"
            else Some output);
  let coeff := if coeff <? 0 then - coeff else coeff in
  output ← (if negb (coeff =? 0) && negb (coeff =? 1)
            then add_number_to_output output coeff
            else Some output);
  degree ← degree;
  if degree <=? Z.of_nat power then
    output ← add_ascii_char_to_output output "x";
    if 1 <? Z.of_nat power
    then add_superscript_number_to_output output (Z.of_nat power)
    else Some output
  else Some output.

Definition set_output_to_polynomial (P : list Z) : option (list Z) :=
  let degree := find_degree 0 P in
  foldl (λ output power, output ≫= λ output, polynomial_term P degree output power)
        (Some []) (rev (seq 1 (length P))).

(** The characters for which [get_ascii_codepoint] has a branch. *)
Definition has_ascii_branch (c : Z) : bool :=
  (char_code "a" <=? c) && (c <=? char_code "z")
  || (char_code "A" <=? c) && (c <=? char_code "Z")
  || (char_code "0" <=? c) && (c <=? char_code "9")
  || (c =? char_code " ") || (c =? char_code "/")
  || (c =? char_code "+") || (c =? char_code "-").

(** ** array.h: deletion *)

(** [array_del]: the assertion [idx < size] fails out of range ([None]). *)
Definition array_del {T : Type} (a : list T) (i : nat) : option (list T) :=
  if (i <? length a)%nat then Some (delete i a) else None.

(** [array_del_unordered]: the last element is stored at [i] and the size
    is decremented. *)
Definition array_del_unordered {T : Type} (a : list T) (i : nat)
  : option (list T) :=
  if (i <? length a)%nat then
    match last a with
    | Some x => Some (take (length a - 1) (<[i := x]> a))
    | None => None
    end
  else None.

(** ** array.h: growth *)

Module Array.
(** An array with its bookkeeping fields; [elems] holds the [size] cells
    in use. *)
Record array (T : Type) := mk { oom : bool; cap : nat; size : nat; elems : list T }.
Arguments mk {T}.
Arguments oom {T}.
Arguments cap {T}.
Arguments size {T}.
Arguments elems {T}.

Definition array_init {T : Type} : array T := mk false 0 0 [].

(** [array_add].  [max] is [SIZE_MAX / sizeof(T)] and [realloc_ok] tells
    whether [realloc] succeeds. *)
Definition array_add {T : Type} (max : nat) (realloc_ok : bool) (a : array T)
    (k : T) : array T :=
  if (cap a =? size a)%nat then
    if (max / 2 <? cap a)%nat then mk true (cap a) (size a) (elems a)
    else
      let _cap := if (cap a =? 0)%nat then 8%nat else (cap a * 2)%nat in
      if negb realloc_ok then mk true (cap a) (size a) (elems a)
      else mk false _cap (S (size a)) (elems a ++ [k])
  else mk false (cap a) (S (size a)) (elems a ++ [k]).

(** The cells in use are counted by [size] and fit the capacity. *)
Definition consistent {T : Type} (a : array T) : Prop :=
  length (elems a) = size a ∧ (size a ≤ cap a)%nat.
End Array.

(** The sum of the coefficients of a polynomial. *)
Definition coefficient_sum (l : list Z) : Z := foldr Z.add 0 l.

(** Every block of [s] lies inside one block of [s0]: [_find_node_idx]
    over [s0] gives one index for all labels of the block. *)
Definition blocks_joined (s0 s : Submap) : Prop :=
  ∀ v a b, v ∈ vertices s → a ∈ v → b ∈ v →
           _find_node_idx s0 a = _find_node_idx s0 b.

(** ** chrompoly.c: the editor *)

(** The loop of [get_node_idx_at_coords]; [i] is the loop counter, the
    parameters [x] and [y] are written [x_] and [y_], and
    [NODE_SIZE * NODE_SIZE] is 400.  Overflow of the [int] products is not
    modelled. *)
Fixpoint get_node_idx_loop (i : nat) (nodes : list Node) (x_ y_ : Z) : Z :=
  match nodes with
  | [] => -1
  | node :: nodes' =>
      let dx := x node - x_ in
      let dy := y node - y_ in
      if negb (deleted node) && (dx * dx + dy * dy <? 400) then Z.of_nat i
      else get_node_idx_loop (S i) nodes' x_ y_
  end.

Definition get_node_idx_at_coords (nodes : list Node) (x_ y_ : Z) : Z :=
  get_node_idx_loop 0 nodes x_ y_.

(** The test of the loop that opens a frame of [main] (line 381). *)
Definition finished (node : Node) : bool :=
  deleted node && (disappear_animation_timer node <=? 0).

(** The loop that opens a frame of [main] (lines 380-387): nodes whose
    disappear animation has ended are removed from the array.  As in
    [remove_incident_loop], the counter stays after a deletion.  The
    comparison [selected_idx > i] is made in [size_t], here 64 bits wide,
    so a negative [selected_idx] compares as a large number.  [fuel]
    bounds the passes. *)
Fixpoint remove_finished_loop (fuel : nat) (i : nat) (nodes : list Node)
    (selected_idx : Z) : option (list Node * Z) :=
  match nodes !! i with
  | None => Some (nodes, selected_idx)
  | Some node =>
      match fuel with
      | O => None
      | S fuel' =>
          if finished node then
            remove_finished_loop fuel' i (delete i nodes)
              (if Z.of_nat i <? selected_idx `mod` 2 ^ 64
               then selected_idx - 1 else selected_idx)
          else remove_finished_loop fuel' (S i) nodes selected_idx
      end
  end.

Definition remove_finished_nodes (nodes : list Node) (selected_idx : Z)
  : option (list Node * Z) :=
  remove_finished_loop (length nodes) 0 nodes selected_idx.

(** The end of an edge drag in a frame of [main] (lines 462-476):
    [released] is [IsMouseButtonReleased(MOUSE_BUTTON_RIGHT)].  The result
    holds the edge array, [edging], and whether [graph_changed] was set. *)
Definition finish_edge (nodes : list Node) (edges : list Edge)
    (selected_idx : Z) (edging released : bool) (mouse_x mouse_y : Z)
  : list Edge * bool * bool :=
  let edging := if edging && (selected_idx <? 0) then false else edging in
  if released && edging then
    let end_idx := get_node_idx_at_coords nodes mouse_x mouse_y in
    if (0 <=? end_idx) && negb (selected_idx =? end_idx)
    then (add_edge edges (Z.to_nat selected_idx) (Z.to_nat end_idx), false, true)
    else (edges, false, false)
  else (edges, edging, false).

(** A frame with one node that is marked deleted and still kept for its
    animation, and two active nodes. *)
Definition disappearing : list Node :=
  [mkNode 100 100 false true 0 30; mkNode 200 100 true false 0 0;
   mkNode 300 100 false false 0 0].

(** ** Colourings *)

(** All assignments of a colour below [q] to the labels [0 .. n-1]; the
    colour of label [a] stands at position [a]. *)
Fixpoint all_colourings (q n : nat) : list (list Z) :=
  match n with
  | O => [[]]
  | S n' => k ← seq 0 q; cons (Z.of_nat k) <$> all_colourings q n'
  end.

Definition colour_of (c : list Z) (u : Z) : Z := c !!! Z.to_nat u.

(** No edge joins two vertices of the same colour. *)
Definition proper_colouring (es : list Edge) (c : list Z) : bool :=
  forallb (λ e, negb (c !!! start_idx e =? c !!! end_idx e)) es.

(** The number of proper colourings of the graph with [q] colours. *)
Definition count_colourings (q n : nat) (es : list Edge) : nat :=
  length (filter (λ c, proper_colouring es c = true) (all_colourings q n)).

(** The colouring is constant on every block of [s]. *)
Definition const_on (s : Submap) (c : list Z) : Prop :=
  ∀ v a b, v ∈ vertices s → a ∈ v → b ∈ v → colour_of c a = colour_of c b.

Definition const_onb (s : Submap) (c : list Z) : bool :=
  forallb (λ v, forallb (λ a, colour_of c a =? colour_of c (hd 0 v)) v)
          (vertices s).

(** Every edge of the graph whose ends have the same colour lies inside a
    block of [s]. *)
Definition proper_on (es : list Edge) (s : Submap) (c : list Z) : Prop :=
  ∀ e0, e0 ∈ es →
        colour_of c (Z.of_nat (start_idx e0)) = colour_of c (Z.of_nat (end_idx e0)) →
        block_index (vertices s) (Z.of_nat (start_idx e0))
        = block_index (vertices s) (Z.of_nat (end_idx e0)).

(** The colouring of the labels that gives every label the colour [d]
    holds for its block. *)
Definition spread (s : Submap) (n : nat) (d : list Z) : list Z :=
  (λ a, d !!! block_index (vertices s) (Z.of_nat a)) <$> seq 0 n.

(** ** chrompoly.c: the progress texts *)

(** [set_output_to_cur_submap_count]: "Found <n> submaps". *)
Definition set_output_to_cur_submap_count (cur_submap_count : Z)
  : option (list Z) :=
  output ← add_ascii_string_to_output [] ["F"; "o"; "u"; "n"; "d"; " "]%char;
  output ← add_number_to_output output cur_submap_count;
  add_ascii_string_to_output output [" "; "s"; "u"; "b"; "m"; "a"; "p"; "s"]%char.

(** [set_output_to_cur_matrix_rows_count]: "Processing <n>/<total>
    submaps"; [total] is [array_size(&all_submaps)]. *)
Definition set_output_to_cur_matrix_rows_count (cur_matrix_rows_count total : Z)
  : option (list Z) :=
  output ← add_ascii_string_to_output []
             ["P"; "r"; "o"; "c"; "e"; "s"; "s"; "i"; "n"; "g"; " "]%char;
  output ← add_number_to_output output cur_matrix_rows_count;
  output ← add_ascii_char_to_output output "/";
  output ← add_number_to_output output total;
  add_ascii_string_to_output output [" "; "s"; "u"; "b"; "m"; "a"; "p"; "s"]%char.

(** ** chrompoly.c: selecting, creating and deleting nodes *)

Definition deselect_all_nodes (nodes : list Node) : list Node :=
  map (λ node, mkNode (x node) (y node) false (deleted node)
                      (plop_animation_timer node) (disappear_animation_timer node))
      nodes.

(** The test of [get_node_idx_at_coords] for one node. *)
Definition hit (x_ y_ : Z) (node : Node) : bool :=
  negb (deleted node)
  && ((x node - x_) * (x node - x_) + (y node - y_) * (y node - y_) <? 400).

(** The handler of the X key in a frame of [main] (lines 395-426), for a
    frame in which the key is pressed: the selected node is marked deleted
    and its disappear animation started (30 frames), the two edge loops
    run, and the selection is cleared.  The result holds the node array,
    the edge array, [selected_idx], and whether [graph_changed] was set;
    [None] stands for an access outside the node array. *)
Definition delete_selected_node (nodes : list Node) (edges : list Edge)
    (selected_idx : Z) : option (list Node * list Edge * Z * bool) :=
  if 0 <=? selected_idx then
    node ← nodes !! Z.to_nat selected_idx;
    let nodes :=
      <[Z.to_nat selected_idx :=
          mkNode (x node) (y node) (selected node) true
                 (plop_animation_timer node) 30]> nodes in
    edges ← delete_node_edges (Z.to_nat selected_idx) edges;
    Some (deselect_all_nodes nodes, edges, -1, true)
  else Some (nodes, edges, selected_idx, false).

(** The handler of a left click in a frame of [main] (lines 428-447), for a
    frame in which the button is pressed.  [array_add] is taken to succeed.
    The result holds the node array, [selected_idx], and whether
    [graph_changed] was set. *)
Definition select_or_create_node (nodes : list Node) (mouse_x mouse_y : Z)
  : list Node * Z * bool :=
  let nodes := deselect_all_nodes nodes in
  let selected_idx := get_node_idx_at_coords nodes mouse_x mouse_y in
  if 0 <=? selected_idx then
    (alter (λ node, mkNode (x node) (y node) true (deleted node)
                           (plop_animation_timer node)
                           (disappear_animation_timer node))
           (Z.to_nat selected_idx) nodes,
     selected_idx, false)
  else
    let new_node := mkNode mouse_x mouse_y true false 30 0 in
    let nodes := nodes ++ [new_node] in
    (nodes, Z.of_nat (length nodes) - 1, true).

(** * Properties *)

(** ** Arrays *)

Section array_facts.
Context {T : Type} (eq : T → T → bool).

Lemma array_eq_fold (r : bool) (l : list (T * T)) :
  foldl (λ result p, if negb (eq p.1 p.2) then false else result) r l
  = r && forallb (λ p, eq p.1 p.2) l.
Proof.
  revert r. induction l as [|p l IH]; intros r; simpl.
  - by rewrite andb_true_r.
  - rewrite IH. destruct (eq p.1 p.2), r; simpl; auto.
Qed.

Hypothesis eq_spec : ∀ a b, eq a b = true ↔ a = b.

Lemma array_eq_true (a1 a2 : list T) : array_eq eq a1 a2 = true ↔ a1 = a2.
Proof.
  unfold array_eq. rewrite array_eq_fold. simpl.
  destruct (Nat.eqb_spec (length a1) (length a2)) as [Hlen|Hlen]; simpl.
  - revert a2 Hlen. induction a1 as [|a a1 IH]; intros [|b a2] Hlen;
      simplify_eq/=; try done.
    rewrite andb_true_iff, eq_spec, IH by done. naive_solver.
  - split; [done|]. intros ->. done.
Qed.

Lemma array_contains_fold (r : bool) (a : list T) (i : T) :
  foldl (λ result _l, if eq _l i then true else result) r a
  = r || existsb (λ _l, eq _l i) a.
Proof.
  revert r. induction a as [|b a IH]; intros r; simpl.
  - by rewrite orb_false_r.
  - rewrite IH. destruct (eq b i), r; simpl; auto.
Qed.

Lemma array_contains_true (a : list T) (i : T) :
  array_contains eq a i = true ↔ i ∈ a.
Proof.
  unfold array_contains. rewrite array_contains_fold. simpl.
  induction a as [|b a IH]; simpl.
  - split; [done|]. by intros ?%elem_of_nil.
  - rewrite orb_true_iff, IH, eq_spec, elem_of_cons. naive_solver.
Qed.
End array_facts.

Lemma int_eq_true (a b : Z) : int_eq a b = true ↔ a = b.
Proof. unfold int_eq. apply Z.eqb_eq. Qed.

Lemma vertex_eq_true (v1 v2 : Vertex) : vertex_eq v1 v2 = true ↔ v1 = v2.
Proof. apply array_eq_true, int_eq_true. Qed.

Lemma edge_eq_true (e1 e2 : Edge) : edge_eq e1 e2 = true ↔ e1 = e2.
Proof.
  unfold edge_eq. destruct e1, e2; simpl.
  rewrite andb_true_iff, !Nat.eqb_eq. naive_solver.
Qed.

Lemma submap_eq_true (s1 s2 : Submap) : submap_eq s1 s2 = true ↔ s1 = s2.
Proof.
  unfold submap_eq. rewrite andb_true_iff.
  rewrite (array_eq_true _ vertex_eq_true), (array_eq_true _ edge_eq_true).
  destruct s1, s2; simpl. naive_solver.
Qed.

Lemma in_submap_array_true (l : list Submap) (s : Submap) :
  in_submap_array l s = true ↔ s ∈ l.
Proof.
  induction l as [|x l IH]; simpl.
  - split; [done|]. by intros ?%elem_of_nil.
  - rewrite elem_of_cons. destruct (submap_eq x s) eqn:E.
    + apply submap_eq_true in E. naive_solver.
    + rewrite IH. split; [naive_solver|]. intros [->|?]; [|done].
      assert (submap_eq x x = true) by by apply submap_eq_true. congruence.
Qed.

Lemma in_submap_array_false (l : list Submap) (s : Submap) :
  in_submap_array l s = false ↔ s ∉ l.
Proof.
  rewrite <- in_submap_array_true. destruct (in_submap_array l s); naive_solver.
Qed.

(** ** Sorting *)

Lemma cmp_le (x y : Z) : (cmp x y <=? 0) = true ↔ x ≤ y.
Proof. unfold cmp. rewrite Z.leb_le. repeat case_match; lia. Qed.

Lemma qsort_insert_perm (x : Z) (l : list Z) : qsort_insert cmp x l ≡ₚ x :: l.
Proof.
  induction l as [|y l IH]; simpl; [done|].
  case_match; [done|]. rewrite IH. apply Permutation_swap.
Qed.

Lemma qsort_perm (l : list Z) : qsort cmp l ≡ₚ l.
Proof.
  induction l as [|y l IH]; simpl; [done|].
  by rewrite qsort_insert_perm, IH.
Qed.

Lemma qsort_insert_sorted (x : Z) (l : list Z) :
  StronglySorted Z.le l → StronglySorted Z.le (qsort_insert cmp x l).
Proof.
  induction 1 as [|y l Hl IH Hy]; simpl.
  - repeat constructor.
  - destruct (cmp x y <=? 0) eqn:E.
    + apply cmp_le in E. constructor; [by constructor|].
      constructor; [done|]. eapply Forall_impl; [exact Hy|]. simpl. lia.
    + assert (y ≤ x).
      { destruct (Z.le_gt_cases x y) as [Hle|?]; [|lia].
        apply cmp_le in Hle. congruence. }
      constructor; [done|]. rewrite qsort_insert_perm.
      by constructor.
Qed.

Lemma qsort_sorted (l : list Z) : StronglySorted Z.le (qsort cmp l).
Proof.
  induction l as [|y l IH]; simpl; [constructor|].
  by apply qsort_insert_sorted.
Qed.

Lemma qsort_length (l : list Z) : length (qsort cmp l) = length l.
Proof. apply Permutation_length, qsort_perm. Qed.

Lemma qsort_elem_of (l : list Z) (n : Z) : n ∈ qsort cmp l ↔ n ∈ l.
Proof. by rewrite qsort_perm. Qed.

(** ** Contraction of one edge *)

(** The block loop, described by list operations: past [j] nothing
    changes, between [i] and [j] block [j] is dropped, and before [i] block
    [i] is also replaced. *)
Lemma contract_blocks_after (vs : list Vertex) (i j k : nat) (rest : list Vertex) :
  (i < k)%nat → (j < k)%nat → contract_blocks vs i j k rest = rest.
Proof.
  revert k. induction rest as [|v rest IH]; intros k Hi Hj; simpl; [done|].
  destruct (Nat.eqb_spec k i); [lia|]. destruct (Nat.eqb_spec k j); [lia|].
  rewrite IH by lia. done.
Qed.

Lemma contract_blocks_between (vs : list Vertex) (i j k : nat) (rest : list Vertex) :
  (i < k)%nat → (k ≤ j)%nat →
  contract_blocks vs i j k rest = delete (j - k)%nat rest.
Proof.
  revert k. induction rest as [|v rest IH]; intros k Hi Hj; simpl; [done|].
  destruct (Nat.eqb_spec k i); [lia|]. destruct (Nat.eqb_spec k j) as [->|].
  - rewrite Nat.sub_diag. simpl. apply contract_blocks_after; lia.
  - rewrite IH by lia. replace (j - k)%nat with (S (j - S k)) by lia. done.
Qed.

Lemma contract_blocks_before (vs : list Vertex) (i j k : nat) (rest : list Vertex) :
  (k ≤ i)%nat → (i < j)%nat →
  contract_blocks vs i j k rest
  = delete (j - k)%nat (<[(i - k)%nat := qsort cmp (vs !!! i ++ vs !!! j)]> rest).
Proof.
  revert k. induction rest as [|v rest IH]; intros k Hi Hj; simpl; [done|].
  destruct (Nat.eqb_spec k i) as [->|].
  - rewrite Nat.sub_diag. simpl.
    rewrite contract_blocks_between by lia.
    replace (j - i)%nat with (S (j - S i)) by lia. done.
  - destruct (Nat.eqb_spec k j); [lia|].
    rewrite IH by lia.
    replace (j - k)%nat with (S (j - S k)) by lia.
    replace (i - k)%nat with (S (i - S k)) by lia. done.
Qed.

Lemma contract_blocks_same (vs : list Vertex) (i k : nat) (rest : list Vertex) :
  (k ≤ i)%nat →
  contract_blocks vs i i k rest
  = <[(i - k)%nat := qsort cmp (vs !!! i ++ vs !!! i)]> rest.
Proof.
  revert k. induction rest as [|v rest IH]; intros k Hi; simpl; [done|].
  destruct (Nat.eqb_spec k i) as [->|].
  - rewrite Nat.sub_diag. simpl. rewrite contract_blocks_after by lia. done.
  - rewrite IH by lia. replace (i - k)%nat with (S (i - S k)) by lia. done.
Qed.

Lemma contract_unfold (s : Submap) (e : Edge) :
  contract s e
  = mkSubmap (contract_blocks (vertices s) (lo e) (hi e) 0 (vertices s))
             (flat_map (remap_edge (lo e) (hi e)) (edges s)).
Proof.
  unfold contract, lo, hi. destruct (Nat.ltb_spec (end_idx e) (start_idx e)).
  - rewrite Nat.min_r, Nat.max_l by lia. done.
  - rewrite Nat.min_l, Nat.max_r by lia. done.
Qed.

Lemma contract_vertices (s : Submap) (e : Edge) :
  start_idx e ≠ end_idx e →
  vertices (contract s e)
  = delete (hi e)
      (<[lo e := qsort cmp (vertices s !!! lo e ++ vertices s !!! hi e)]> (vertices s)).
Proof.
  intros Hne. rewrite contract_unfold. simpl.
  rewrite contract_blocks_before by (unfold lo, hi; lia).
  by rewrite !Nat.sub_0_r.
Qed.

Lemma contract_vertices_loop (s : Submap) (e : Edge) :
  start_idx e = end_idx e →
  vertices (contract s e)
  = <[lo e := qsort cmp (vertices s !!! lo e ++ vertices s !!! lo e)]> (vertices s).
Proof.
  intros Heq. rewrite contract_unfold. simpl.
  replace (hi e) with (lo e) by (unfold lo, hi; lia).
  rewrite contract_blocks_same by lia. by rewrite Nat.sub_0_r.
Qed.

Lemma contract_edges (s : Submap) (e : Edge) :
  edges (contract s e) = flat_map (remap_edge (lo e) (hi e)) (edges s).
Proof. by rewrite contract_unfold. Qed.

Lemma remap_edge_valid (nb i j : nat) (e e' : Edge) :
  (i < j)%nat → (j < nb)%nat → edge_valid nb e →
  e' ∈ remap_edge i j e → edge_valid (nb - 1) e'.
Proof.
  intros Hij Hj (Hs & He & Hne). unfold remap_edge, edge_valid.
  destruct e as [k l]; simpl in *. intros Hin.
  split_tests; set_unfold; destruct_or?; subst; simpl; try done; lia.
Qed.

Lemma remap_edge_length (i j : nat) (e : Edge) :
  (length (remap_edge i j e) ≤ 1)%nat.
Proof. unfold remap_edge. repeat case_match; simpl; lia. Qed.

Lemma remap_edge_self (e : Edge) : remap_edge (lo e) (hi e) e = [].
Proof.
  unfold remap_edge, lo, hi. destruct e as [k l]; simpl.
  destruct (Nat.le_ge_cases k l).
  - rewrite Nat.min_l, Nat.max_r, !Nat.eqb_refl by lia. done.
  - rewrite Nat.min_r, Nat.max_l, !Nat.eqb_refl by lia. simpl.
    by rewrite orb_true_r.
Qed.

Lemma flat_map_remap_length (i j : nat) (es : list Edge) :
  (length (flat_map (remap_edge i j) es) ≤ length es)%nat.
Proof.
  induction es as [|e es IH]; simpl; [done|].
  rewrite length_app. pose proof (remap_edge_length i j e). lia.
Qed.

Lemma contract_edges_length (s : Submap) (e : Edge) :
  e ∈ edges s → (length (edges (contract s e)) < length (edges s))%nat.
Proof.
  intros Hin. rewrite contract_edges.
  apply list_elem_of_split in Hin as (l1 & l2 & ->).
  rewrite flat_map_app. simpl. rewrite remap_edge_self. simpl.
  rewrite !length_app. simpl.
  pose proof (flat_map_remap_length (lo e) (hi e) l1).
  pose proof (flat_map_remap_length (lo e) (hi e) l2). lia.
Qed.

Lemma contract_length (s : Submap) (e : Edge) :
  edge_valid (length (vertices s)) e →
  length (vertices (contract s e)) = (length (vertices s) - 1)%nat.
Proof.
  intros (Hs & He & Hne). rewrite contract_vertices by done.
  rewrite length_delete, length_insert; [done|].
  apply lookup_lt_is_Some. rewrite length_insert. unfold hi. lia.
Qed.

Lemma contract_edges_valid (s : Submap) (e : Edge) :
  edges_valid s → e ∈ edges s → edges_valid (contract s e).
Proof.
  intros Hv Hin. unfold edges_valid in *.
  assert (edge_valid (length (vertices s)) e) as He
    by (by eapply Forall_forall in Hv).
  rewrite contract_length by done. rewrite contract_edges.
  apply Forall_forall. intros e' He'.
  apply list_elem_of_In, in_flat_map in He' as (e0 & Hin0 & He').
  apply list_elem_of_In in Hin0, He'.
  destruct He as (? & ? & ?).
  eapply (remap_edge_valid _ (lo e) (hi e) e0); [unfold lo, hi; lia..| |done].
  by eapply Forall_forall in Hv.
Qed.

(** ** The initial submap *)

Lemma from_graph_vertices (n : nat) (es : list Edge) :
  vertices (from_graph n es) = map (λ i : nat, [Z.of_nat i]) (seq 0 n).
Proof. done. Qed.

Lemma foldl_snoc {A : Type} (acc l : list A) :
  foldl (λ acc x, acc ++ [x]) acc l = acc ++ l.
Proof.
  revert acc. induction l as [|x l IH]; intros acc; simpl.
  - by rewrite app_nil_r.
  - rewrite IH, <- app_assoc. done.
Qed.

Lemma from_graph_edges (n : nat) (es : list Edge) : edges (from_graph n es) = es.
Proof. unfold from_graph. simpl. apply (foldl_snoc []). Qed.

Lemma from_graph_length (n : nat) (es : list Edge) :
  length (vertices (from_graph n es)) = n.
Proof. rewrite from_graph_vertices, length_map, length_seq. done. Qed.

Lemma from_graph_edges_valid (n : nat) (es : list Edge) :
  Forall (edge_valid n) es → edges_valid (from_graph n es).
Proof.
  intros H. unfold edges_valid. by rewrite from_graph_length, from_graph_edges.
Qed.

(** For an edge of a submap satisfying [edges_valid], the two blocks that
    [get_direct_submaps] reads with [array_at] (lines 74-75) exist: the
    contraction never reads past the block array. *)
Lemma contract_reads_in_range (s : Submap) (e : Edge) :
  edges_valid s → e ∈ edges s →
  (lo e < hi e)%nat ∧ is_Some (vertices s !! lo e) ∧ is_Some (vertices s !! hi e).
Proof.
  intros Hvalid He. unfold edges_valid in Hvalid.
  rewrite Forall_forall in Hvalid. destruct (Hvalid e He) as (H1 & H2 & H3).
  unfold lo, hi. split; [lia|].
  split; apply lookup_lt_is_Some_2; lia.
Qed.

Lemma contract_blocks_checked_exact (vs : list Vertex) (i j k : nat)
    (rest : list Vertex) :
  is_Some (vs !! i) → is_Some (vs !! j) →
  contract_blocks_checked vs i j k rest = Some (contract_blocks vs i j k rest).
Proof.
  intros [v1 Hv1] [v2 Hv2]. revert k.
  induction rest as [|src rest IH]; intros k; simpl; [done|].
  rewrite IH. rewrite Hv1, Hv2. simpl.
  rewrite (list_lookup_total_correct _ _ _ Hv1), (list_lookup_total_correct _ _ _ Hv2).
  by repeat case_match.
Qed.

(** Under [edges_valid] the block loop reads inside the array for every
    edge, and its result is the block array of the child. *)
Lemma contract_blocks_defined (s : Submap) (e : Edge) :
  edges_valid s → e ∈ edges s →
  contract_blocks_checked (vertices s) (lo e) (hi e) 0 (vertices s)
  = Some (vertices (contract s e)).
Proof.
  intros Hvalid He.
  destruct (contract_reads_in_range s e Hvalid He) as (_ & Hlo & Hhi).
  rewrite contract_blocks_checked_exact by done. by rewrite contract_unfold.
Qed.

(** Two blocks and an edge between the indices 1 and 2: the second read is
    past the end of the block array. *)
Lemma contract_blocks_past_the_end :
  contract_blocks_checked (vertices (from_graph 2 [mkEdge 1 2])) 1 2 0
    (vertices (from_graph 2 [mkEdge 1 2])) = None.
Proof. reflexivity. Qed.

Lemma elem_of_get_direct_submaps (s c : Submap) :
  c ∈ get_direct_submaps s ↔ ∃ e, e ∈ edges s ∧ c = contract s e.
Proof. unfold get_direct_submaps. rewrite list_elem_of_fmap. naive_solver. Qed.

(** ** C3 *)

(** C3, counterexample: the triangle satisfies the submap invariants, but
    its child by the edge (0,1) holds the edge (0,1) twice. *)
Lemma C3_triangle_child_has_duplicate_edge :
  submap_invariants (from_graph 3 triangle) ∧
  ∃ c, c ∈ get_direct_submaps (from_graph 3 triangle) ∧ ¬ submap_invariants c.
Proof.
  split.
  - split.
    + apply from_graph_edges_valid. unfold triangle, edge_valid.
      repeat constructor; simpl; lia.
    + rewrite from_graph_edges. intros p q e1 e2 Hp Hq Hsame.
      destruct p as [|[|[|p]]], q as [|[|[|q]]]; simplify_eq/=; try done;
        destruct Hsame as [[? ?]|[? ?]]; simplify_eq/=.
  - exists (mkSubmap [[0; 1]; [2]] [mkEdge 0 1; mkEdge 0 1]). split.
    + apply elem_of_get_direct_submaps. exists (mkEdge 0 1).
      split; [|by vm_compute]. rewrite from_graph_edges. by left.
    + intros [_ Hdup].
      specialize (Hdup 0%nat 1%nat (mkEdge 0 1) (mkEdge 0 1) eq_refl eq_refl).
      assert (0 = 1)%nat; [|lia]. apply Hdup. by left.
Qed.

(** C3, amended: the initial submap of a graph whose edges are in range and
    join distinct vertices carries exactly these edges, so its edge indices
    are valid and distinct; and every child that [get_direct_submaps]
    produces from a submap with valid, distinct edge indices has valid,
    distinct edge indices again.  Parallel edges are kept. *)
Theorem C3_edge_indices_stay_valid (n : nat) (es : list Edge) (s : Submap) :
  Forall (edge_valid n) es → edges_valid s →
  edges (from_graph n es) = es ∧
  edges_valid (from_graph n es) ∧
  ∀ c, c ∈ get_direct_submaps s → edges_valid c.
Proof.
  intros Hes Hs. split; [apply from_graph_edges|].
  split; [by apply from_graph_edges_valid|].
  intros c (e & He & ->)%elem_of_get_direct_submaps.
  by apply contract_edges_valid.
Qed.

Lemma C3_edge_indices_stay_valid_witness :
  edges (from_graph 3 triangle) = triangle ∧
  edges_valid (from_graph 3 triangle) ∧
  ∀ c, c ∈ get_direct_submaps (from_graph 3 triangle) → edges_valid c.
Proof.
  assert (Forall (edge_valid 3) triangle) as H.
  { unfold triangle, edge_valid. repeat constructor; simpl; lia. }
  apply (C3_edge_indices_stay_valid 3 triangle (from_graph 3 triangle) H).
  apply from_graph_edges_valid, H.
Defined.

(** ** Canonical block order *)

Lemma foldl_min_le (a : Z) (l : list Z) :
  foldl Z.min a l ≤ a ∧ (∀ x, x ∈ l → foldl Z.min a l ≤ x) ∧ foldl Z.min a l ∈ a :: l.
Proof.
  revert a. induction l as [|b l IH]; intros a; simpl.
  - split; [lia|]. split; [by intros ? ?%elem_of_nil|by left].
  - destruct (IH (Z.min a b)) as (H1 & H2 & H3). split; [lia|]. split.
    + intros x [->|Hx]%elem_of_cons; [lia|by apply H2].
    + apply elem_of_cons in H3 as [H3|H3]; [|by do 2 right].
      rewrite H3. destruct (Z.min_spec a b) as [[_ ->]|[_ ->]]; [by left|].
      right; by left.
Qed.

Lemma min_label_elem_of (v : Vertex) : v ≠ [] → min_label v ∈ v.
Proof. destruct v as [|n v]; [done|]. intros _. apply foldl_min_le. Qed.

Lemma min_label_le (v : Vertex) (n : Z) : n ∈ v → min_label v ≤ n.
Proof.
  destruct v as [|a v]; [by intros ?%elem_of_nil|]. simpl.
  destruct (foldl_min_le a v) as (H1 & H2 & _).
  intros [->|Hn]%elem_of_cons; [done|by apply H2].
Qed.

Lemma min_label_unique (v : Vertex) (m : Z) :
  m ∈ v → (∀ n, n ∈ v → m ≤ n) → min_label v = m.
Proof.
  intros Hm Hle. assert (v ≠ []) as Hv by (by intros ->; apply elem_of_nil in Hm).
  pose proof (min_label_elem_of v Hv). pose proof (min_label_le v m Hm).
  specialize (Hle _ H). lia.
Qed.

Lemma merged_block (b b' : Vertex) :
  b ≠ [] → (b' = [] ∨ min_label b ≤ min_label b') →
  StronglySorted Z.le (qsort cmp (b ++ b')) ∧
  qsort cmp (b ++ b') ≠ [] ∧
  min_label (qsort cmp (b ++ b')) = min_label b.
Proof.
  intros Hb Hb'. split; [apply qsort_sorted|]. split.
  - intros Hnil. apply (f_equal length) in Hnil.
    rewrite qsort_length, length_app in Hnil. destruct b; simpl in *; [done|lia].
  - apply min_label_unique.
    + apply qsort_elem_of, elem_of_app. left. by apply min_label_elem_of.
    + intros n [Hn|Hn]%qsort_elem_of%elem_of_app; [by apply min_label_le|].
      destruct Hb' as [->|Hle]; [by apply elem_of_nil in Hn|].
      pose proof (min_label_le b' n Hn). lia.
Qed.

Section sorted_by_key.
Context {A : Type} (f : A → Z).
Local Abbreviation R := (key_lt f).

Lemma sorted_by_key_lookup (l : list A) (i j : nat) (a b : A) :
  StronglySorted R l → l !! i = Some a → l !! j = Some b → (i < j)%nat → R a b.
Proof.
  intros Hl. revert i j. induction Hl as [|x l Hl IH Hx]; intros i j Hi Hj Hlt.
  - done.
  - destruct j as [|j]; [lia|]. destruct i as [|i]; simplify_eq/=.
    + eapply Forall_forall in Hx; [done|]. by eapply list_elem_of_lookup_2.
    + eapply IH; [done..|lia].
Qed.

Lemma sorted_by_key_insert (l : list A) (i : nat) (a b : A) :
  l !! i = Some b → f a = f b →
  StronglySorted R l → StronglySorted R (<[i := a]> l).
Proof.
  intros Hi Hf Hl. revert i Hi.
  induction Hl as [|x l Hl IH Hx]; intros i Hi; [done|].
  destruct i as [|i]; simplify_eq/=.
  - constructor; [done|]. eapply Forall_impl; [done|].
    unfold R. intros; simpl in *. lia.
  - constructor; [by apply IH|]. apply Forall_insert; [done|].
    unfold R. rewrite Hf. eapply Forall_forall in Hx; [exact Hx|].
    by eapply list_elem_of_lookup_2.
Qed.

Lemma sorted_by_key_delete (l : list A) (i : nat) :
  StronglySorted R l → StronglySorted R (delete i l).
Proof.
  intros Hl. revert i.
  induction Hl as [|x l Hl IH Hx]; intros i; [destruct i; constructor|].
  destruct i as [|i]; simpl; [done|].
  constructor; [apply IH|]. by apply Forall_delete.
Qed.

Lemma sorted_by_key_NoDup (l : list A) : StronglySorted R l → NoDup l.
Proof.
  induction 1 as [|x l Hl IH Hx]; constructor; [|done].
  intros Hin. eapply Forall_forall in Hx; [|done]. unfold R in Hx. lia.
Qed.

Lemma sorted_by_key_unique (l1 l2 : list A) :
  StronglySorted R l1 → StronglySorted R l2 →
  (∀ a, a ∈ l1 ↔ a ∈ l2) → l1 = l2.
Proof.
  intros H1 H2 Hiff. apply (StronglySorted_unique_strong R); [|done..|].
  - unfold R. intros; lia.
  - apply NoDup_Permutation; [by apply sorted_by_key_NoDup..|done].
Qed.
End sorted_by_key.

Lemma canonical_insert (s : Submap) (i : nat) (b b' : Vertex) (es : list Edge) :
  canonical s → vertices s !! i = Some b →
  (b' = [] ∨ min_label b ≤ min_label b') →
  canonical (mkSubmap (<[i := qsort cmp (b ++ b')]> (vertices s)) es).
Proof.
  intros (Hsorted & Hne & Hmin) Hi Hb'.
  assert (b ≠ []) as Hb.
  { eapply Forall_forall in Hne; [done|]. by eapply list_elem_of_lookup_2. }
  destruct (merged_block b b' Hb Hb') as (Hm1 & Hm2 & Hm3).
  split; [|split]; simpl.
  - by apply Forall_insert.
  - by apply Forall_insert.
  - by eapply (sorted_by_key_insert min_label).
Qed.

Lemma canonical_delete (s : Submap) (j : nat) (es : list Edge) :
  canonical s → canonical (mkSubmap (delete j (vertices s)) es).
Proof.
  intros (Hsorted & Hne & Hmin). split; [|split]; simpl.
  - by apply Forall_delete.
  - by apply Forall_delete.
  - by apply (sorted_by_key_delete min_label).
Qed.

Lemma second_block_min (s : Submap) (i j : nat) (b : Vertex) :
  canonical s → vertices s !! i = Some b → (i ≤ j)%nat →
  vertices s !!! j = [] ∨ min_label b ≤ min_label (vertices s !!! j).
Proof.
  intros (_ & _ & Hmin) Hi Hij.
  destruct (vertices s !! j) as [b'|] eqn:Hj.
  - right. rewrite (list_lookup_total_correct _ _ _ Hj).
    destruct (decide (i = j)) as [->|]; [simplify_eq; lia|].
    apply Z.lt_le_incl.
    eapply (sorted_by_key_lookup min_label _ i j); [done..|lia].
  - left. by rewrite list_lookup_total_alt, Hj.
Qed.

Lemma contract_canonical (s : Submap) (e : Edge) :
  canonical s → canonical (contract s e).
Proof.
  intros Hs.
  assert (contract s e
          = mkSubmap (vertices (contract s e)) (edges (contract s e))) as ->
    by by destruct (contract s e).
  destruct (vertices s !! lo e) as [b|] eqn:Hlo.
  - destruct (decide (start_idx e = end_idx e)) as [Heq|Hne].
    + rewrite contract_vertices_loop by done.
      rewrite (list_lookup_total_correct _ _ _ Hlo).
      apply canonical_insert; [done..|]. right; lia.
    + rewrite contract_vertices by done.
      rewrite (list_lookup_total_correct _ _ _ Hlo).
      apply (canonical_delete (mkSubmap _ [])).
      apply canonical_insert; [done..|].
      apply second_block_min with (i := lo e); [done..|unfold lo, hi; lia].
  - apply lookup_ge_None in Hlo.
    destruct (decide (start_idx e = end_idx e)) as [Heq|Hne].
    + rewrite contract_vertices_loop, list_insert_ge by done.
      by destruct Hs as (? & ? & ?).
    + rewrite contract_vertices, list_insert_ge by done.
      by apply canonical_delete.
Qed.

Lemma canonical_same_partition (s1 s2 : Submap) :
  canonical s1 → canonical s2 → same_partition s1 s2 →
  vertices s1 = vertices s2.
Proof.
  intros (Hs1 & _ & Hm1) (Hs2 & _ & Hm2) (H12 & H21).
  apply (sorted_by_key_unique min_label); [done..|].
  intros b. split.
  - intros Hb. destruct (H12 b Hb) as (b2 & Hb2 & Hperm).
    assert (b = b2) as ->; [|done].
    apply (StronglySorted_unique Z.le); [| |done].
    + by eapply Forall_forall in Hs1.
    + by eapply Forall_forall in Hs2.
  - intros Hb. destruct (H21 b Hb) as (b1 & Hb1 & Hperm).
    assert (b = b1) as ->; [|done].
    apply (StronglySorted_unique Z.le); [| |done].
    + by eapply Forall_forall in Hs2.
    + by eapply Forall_forall in Hs1.
Qed.

Lemma from_graph_canonical (n : nat) (es : list Edge) : canonical (from_graph n es).
Proof.
  unfold canonical, blocks_sorted, blocks_by_min. rewrite from_graph_vertices.
  split; [|split].
  - apply Forall_fmap, Forall_forall. intros i _. simpl. repeat constructor.
  - apply Forall_fmap, Forall_forall. intros i _. done.
  - generalize 0%nat. induction n as [|n IH]; intros k; simpl; constructor.
    + apply IH.
    + apply Forall_fmap, Forall_forall. intros i Hi%elem_of_seq. simpl. lia.
Qed.

(** ** C10 *)

(** C10: when every block of a submap is sorted ascending and the blocks
    follow each other by strictly increasing minimum label, every child
    returned by [get_direct_submaps] has the same two properties; and for
    two submaps in that form the block comparison of [submap_eq] succeeds
    exactly when they have the same blocks. *)
Theorem C10_children_stay_canonical (s : Submap) :
  canonical s →
  (∀ c, c ∈ get_direct_submaps s → canonical c) ∧
  (∀ s', canonical s' →
         (array_eq vertex_eq (vertices s) (vertices s') = true
          ↔ same_partition s s')).
Proof.
  intros Hs. split.
  - intros c (e & _ & ->)%elem_of_get_direct_submaps. by apply contract_canonical.
  - intros s' Hs'. rewrite (array_eq_true _ vertex_eq_true). split.
    + intros Heq. split; intros b Hb; exists b; (split; [|done]).
      * by rewrite <- Heq.
      * by rewrite Heq.
    + by apply canonical_same_partition.
Qed.

Lemma C10_children_stay_canonical_witness :
  (∀ c, c ∈ get_direct_submaps (from_graph 3 triangle) → canonical c) ∧
  (∀ s', canonical s' →
         (array_eq vertex_eq (vertices (from_graph 3 triangle)) (vertices s') = true
          ↔ same_partition (from_graph 3 triangle) s')).
Proof.
  apply (C10_children_stay_canonical (from_graph 3 triangle)).
  apply from_graph_canonical.
Defined.

(** ** Moebius values *)

Lemma foldl_sum (f : nat → Z) (a : Z) (l : list nat) :
  foldl (λ acc k, acc + f k) a l = a + foldr (λ k acc, f k + acc) 0 l.
Proof.
  revert a. induction l as [|k l IH]; intros a; simpl; [lia|].
  rewrite IH. lia.
Qed.

Lemma sum_upto_ext_seq (f g : nat → Z) (a m : nat) :
  (∀ t, (a ≤ t < a + m)%nat → f t = g t) →
  foldr (λ t acc, f t + acc) 0 (seq a m) = foldr (λ t acc, g t + acc) 0 (seq a m).
Proof.
  revert a. induction m as [|m IH]; intros a H; simpl; [done|].
  rewrite H by lia. rewrite IH; [done|]. intros; apply H; lia.
Qed.

Lemma sum_upto_ext (f g : nat → Z) (m : nat) :
  (∀ t, (t < m)%nat → f t = g t) → sum_upto m f = sum_upto m g.
Proof. intros H. apply sum_upto_ext_seq. intros; apply H; lia. Qed.

Lemma sum_upto_plus (f g : nat → Z) (m : nat) :
  sum_upto m (λ t, f t + g t) = sum_upto m f + sum_upto m g.
Proof.
  unfold sum_upto. generalize 0%nat.
  induction m as [|m IH]; intros a; simpl; [done|]. rewrite IH. lia.
Qed.

Lemma sum_upto_zero (m : nat) : sum_upto m (λ _, 0) = 0.
Proof.
  unfold sum_upto. generalize 0%nat.
  induction m as [|m IH]; intros a; simpl; [done|]. by rewrite IH.
Qed.

Lemma sum_delta_seq (c : Z) (j a m : nat) :
  foldr (λ t acc, (if (t =? j)%nat then c else 0) + acc) 0 (seq a m)
  = if bool_decide (a ≤ j < a + m)%nat then c else 0.
Proof.
  revert a. induction m as [|m IH]; intros a; simpl.
  - rewrite bool_decide_eq_false_2 by lia. done.
  - rewrite IH. destruct (Nat.eqb_spec a j) as [->|].
    + rewrite bool_decide_eq_false_2 by lia.
      rewrite bool_decide_eq_true_2 by lia. lia.
    + case_bool_decide; [rewrite bool_decide_eq_true_2 by lia
                        |rewrite bool_decide_eq_false_2 by lia]; lia.
Qed.

Lemma sum_upto_delta (c : Z) (j m : nat) :
  (j < m)%nat → sum_upto m (λ t, if (t =? j)%nat then c else 0) = c.
Proof.
  intros Hj. unfold sum_upto. rewrite sum_delta_seq.
  by rewrite bool_decide_eq_true_2 by lia.
Qed.

Lemma init_zeros {A : Type} (acc : list Z) (l : list A) :
  foldl (λ unknowns _, unknowns ++ [0]) acc l = acc ++ replicate (length l) 0.
Proof.
  revert acc. induction l as [|x l IH]; intros acc; simpl.
  - by rewrite app_nil_r.
  - rewrite IH, <- app_assoc. done.
Qed.

Lemma mobius_step_inv (M : WYMatrix) (j : nat) (u : list Z) :
  unit_upper_triangular M → (j < size M)%nat →
  mobius_inv M (S j) u → mobius_inv M j (mobius_step M u j).
Proof.
  intros Htri Hj (Hlen & Hzero & Hsum & Htop).
  set (unknown := if (j =? size M - 1)%nat then 1
                  else - sum_upto (size M) (λ k, u !!! k * entry M j k)).
  assert (mobius_step M u j = <[j := unknown]> u) as ->.
  { unfold mobius_step. rewrite foldl_sum, Z.add_0_l.
    rewrite (Hzero j) by lia. by rewrite Z.add_0_l. }
  assert (∀ t, (<[j := unknown]> u) !!! t
               = u !!! t + (if (t =? j)%nat then unknown else 0)) as Hlook.
  { intros t. destruct (Nat.eqb_spec t j) as [->|].
    - rewrite list_lookup_total_insert_eq by lia. rewrite (Hzero j) by lia. lia.
    - rewrite list_lookup_total_insert_ne by done. lia. }
  assert (∀ s, sum_upto (size M) (λ t, (<[j := unknown]> u) !!! t * entry M s t)
               = sum_upto (size M) (λ t, u !!! t * entry M s t)
                 + unknown * entry M s j) as Hsplit.
  { intros s.
    rewrite (sum_upto_ext _ (λ t, u !!! t * entry M s t
               + (if (t =? j)%nat then unknown * entry M s j else 0))).
    - by rewrite sum_upto_plus, sum_upto_delta.
    - intros t _. rewrite Hlook. destruct (Nat.eqb_spec t j) as [->|]; lia. }
  split; [by rewrite length_insert|]. split; [|split].
  - intros k Hk. rewrite Hlook. rewrite Hzero by lia.
    destruct (Nat.eqb_spec k j); [lia|done].
  - intros s Hs. rewrite Hsplit.
    destruct (decide (s = j)) as [->|Hne].
    + rewrite (proj1 (Htri j j Hj Hj) eq_refl), Z.mul_1_r.
      unfold unknown. destruct (Nat.eqb_spec j (size M - 1)) as [Hlast|Hlast].
      * rewrite (sum_upto_ext _ (λ _, 0)), sum_upto_zero; [done|].
        intros t Ht. rewrite Hzero by lia. lia.
      * lia.
    + rewrite (proj2 (Htri s j ltac:(lia) Hj)) by lia.
      rewrite Z.mul_0_r, Z.add_0_r. apply Hsum. lia.
  - intros _. rewrite Hlook. unfold unknown.
    destruct (Nat.eqb_spec (size M - 1) j) as [<-|Hne].
    + rewrite Nat.eqb_refl. rewrite Hzero by lia. done.
    + rewrite Htop by lia. lia.
Qed.

Lemma mobius_loop_inv (M : WYMatrix) (n j0 : nat) :
  unit_upper_triangular M → (j0 + n = size M)%nat →
  mobius_inv M j0 (foldl (mobius_step M) (replicate (size M) 0) (rev (seq j0 n))).
Proof.
  intros Htri. revert j0. induction n as [|n IH]; intros j0 Hn; simpl.
  - split; [by rewrite length_replicate|]. split; [|split]; intros; try lia.
    apply lookup_total_replicate_2. lia.
  - rewrite foldl_app. simpl. apply mobius_step_inv; [done|lia|].
    apply IH. lia.
Qed.

Lemma get_mobius_inv (M : WYMatrix) :
  unit_upper_triangular M → mobius_inv M 0 (get_mobius_of_column M).
Proof.
  intros Htri. unfold get_mobius_of_column.
  rewrite (init_zeros []), length_rev, length_seq. simpl.
  by apply mobius_loop_inv.
Qed.

(** ** C5 *)

Lemma int_result_Some (z z' : Z) :
  int_result z = Some z' → z' = z ∧ INT_MIN ≤ z ≤ INT_MAX.
Proof.
  unfold int_result. intros H.
  destruct (Z.leb_spec INT_MIN z), (Z.leb_spec z INT_MAX); simplify_eq/=; lia.
Qed.

Lemma foldl_option_None {A B : Type} (f : A → B → option A) (l : list B) :
  foldl (λ a b, a ← a; f a b) None l = None.
Proof. by induction l. Qed.

Lemma foldl_option_exact {A B : Type} (f : A → B → option A) (f' : A → B → A)
    (l : list B) (a r : A) :
  (∀ a b a', f a b = Some a' → a' = f' a b) →
  foldl (λ a b, a ← a; f a b) (Some a) l = Some r → r = foldl f' a l.
Proof.
  intros Hf. revert a. induction l as [|b l IH]; intros a H; simpl in *.
  - by simplify_eq.
  - destruct (f a b) as [a'|] eqn:Hab.
    + rewrite <- (Hf a b a' Hab). by apply IH.
    + by rewrite foldl_option_None in H.
Qed.

Lemma mobius_step_int_exact (M : WYMatrix) (unknowns unknowns' : list Z) (j : nat) :
  mobius_step_int M unknowns j = Some unknowns' →
  unknowns' = mobius_step M unknowns j.
Proof.
  unfold mobius_step_int, mobius_step. intros H.
  destruct (j =? size M - 1)%nat; simpl in H.
  - destruct (int_result (unknowns !!! j + 1)) as [v|] eqn:Hv; simplify_eq/=.
    by apply int_result_Some in Hv as [-> _].
  - destruct (foldl _ _ _) as [u|] eqn:Hu in H; simplify_eq/=.
    destruct (int_result (- u)) as [u'|] eqn:Hu'; simplify_eq/=.
    destruct (int_result (unknowns !!! j + u')) as [v|] eqn:Hv; simplify_eq/=.
    apply int_result_Some in Hu' as [-> _]. apply int_result_Some in Hv as [-> _].
    apply (foldl_option_exact
             (λ unknown k, product ← int_result ((unknowns !!! k) * entry M j k);
                           int_result (unknown + product))
             (λ unknown k, unknown + (unknowns !!! k) * entry M j k)) in Hu.
    + by rewrite Hu.
    + intros a k a' Ha.
      destruct (int_result _) as [p|] eqn:Hp in Ha; simplify_eq/=.
      apply int_result_Some in Hp as [-> _]. by apply int_result_Some in Ha as [-> _].
Qed.

(** The vector of [get_mobius_of_column] is the one the [int] code
    returns, whenever no operation of that code overflows. *)
Lemma get_mobius_of_column_int_exact (M : WYMatrix) (mu : list Z) :
  get_mobius_of_column_int M = Some mu → mu = get_mobius_of_column M.
Proof.
  unfold get_mobius_of_column_int, get_mobius_of_column.
  intros H.
  apply (foldl_option_exact (mobius_step_int M) (mobius_step M)) in H; [done|].
  intros a b a'. apply mobius_step_int_exact.
Qed.

(** C5: for a unit-upper-triangular 0/1 matrix of size [m] on which the
    [int] arithmetic of [get_mobius_of_column] does not overflow, the
    vector [mu] it returns has one value per index and satisfies, for every
    index [s], sum over [t] of [mu t * M s t] = 1 if [s = m-1] and 0
    otherwise; in particular [mu (m-1) = 1] and, for [s < m-1], [mu s] is
    the negated sum of [mu t] over the [t ≠ s] with [M s t = 1]. *)
Theorem C5_mobius_identity (M : WYMatrix) (mu : list Z) :
  unit_upper_triangular M → zero_one M →
  get_mobius_of_column_int M = Some mu →
  let m := size M in
  length mu = m ∧
  (∀ s, (s < m)%nat →
        sum_upto m (λ t, mu !!! t * entry M s t)
        = if (s =? m - 1)%nat then 1 else 0) ∧
  ((0 < m)%nat → mu !!! (m - 1)%nat = 1) ∧
  (∀ s, (s < m - 1)%nat →
        mu !!! s
        = - sum_upto m (λ t, if negb (t =? s)%nat && (entry M s t =? 1)
                             then mu !!! t else 0)).
Proof.
  intros Htri H01 Hint m. apply get_mobius_of_column_int_exact in Hint.
  destruct (get_mobius_inv M Htri) as (Hlen & _ & Hsum & Htop).
  rewrite <- Hint in Hlen, Hsum, Htop. fold m in Hlen, Hsum, Htop.
  split; [done|]. split; [intros; apply Hsum; lia|]. split; [done|].
  intros s Hs. specialize (Hsum s ltac:(lia)).
  destruct (Nat.eqb_spec s (m - 1)); [lia|].
  rewrite (sum_upto_ext _ (λ t, (if (t =? s)%nat then mu !!! s else 0)
             + (if negb (t =? s)%nat && (entry M s t =? 1) then mu !!! t else 0)))
    in Hsum.
  - rewrite sum_upto_plus, sum_upto_delta in Hsum by (unfold m in *; lia). lia.
  - intros t Ht. destruct (Nat.eqb_spec t s) as [->|Hne]; simpl.
    + rewrite (proj1 (Htri s s ltac:(lia) ltac:(lia)) eq_refl). simpl. lia.
    + destruct (H01 s t ltac:(lia) Ht) as [->| ->]; simpl; lia.
Qed.

(** ** Descendants *)

Lemma reach_trans_step (s c x : Submap) :
  proper_reach s c → reach c x → proper_reach s x.
Proof.
  intros (c0 & Hc0 & Hr) Hx. exists c0. split; [done|].
  clear Hc0. induction Hr; [done|]. econstructor; [done|]. by apply IHHr.
Qed.

Lemma proper_reach_reach (s x : Submap) : proper_reach s x → reach s x.
Proof. intros (c & Hc & Hr). by econstructor. Qed.

Lemma reach_edges_length (s x : Submap) :
  reach s x → (length (edges x) ≤ length (edges s))%nat.
Proof.
  induction 1 as [|s c x Hc Hr IH]; [done|].
  apply elem_of_get_direct_submaps in Hc as (e & He & ->).
  pose proof (contract_edges_length s e He). lia.
Qed.

Lemma proper_reach_edges_length (s x : Submap) :
  proper_reach s x → (length (edges x) < length (edges s))%nat.
Proof.
  intros (c & Hc & Hr). apply reach_edges_length in Hr.
  apply elem_of_get_direct_submaps in Hc as (e & He & ->).
  pose proof (contract_edges_length s e He). lia.
Qed.

Lemma proper_reach_ne (s x : Submap) : proper_reach s x → x ≠ s.
Proof. intros H%proper_reach_edges_length ->. lia. Qed.

(** An invariant of contraction holds for every descendant. *)
Lemma reach_invariant (P : Submap → Prop) (s x : Submap) :
  (∀ s c, P s → c ∈ get_direct_submaps s → P c) → reach s x → P s → P x.
Proof. intros Hstep. induction 1; eauto. Qed.

Lemma reach_edges_valid (s x : Submap) : reach s x → edges_valid s → edges_valid x.
Proof.
  apply reach_invariant. intros s' c Hs' (e & He & ->)%elem_of_get_direct_submaps.
  by apply contract_edges_valid.
Qed.

Lemma edges_valid_two_blocks (s : Submap) (e : Edge) :
  edges_valid s → e ∈ edges s → (1 < length (vertices s))%nat.
Proof.
  intros Hv He. eapply Forall_forall in Hv; [|done].
  destruct Hv as (? & ? & ?). lia.
Qed.

Lemma child_blocks (s c : Submap) :
  edges_valid s → c ∈ get_direct_submaps s →
  (1 < length (vertices s))%nat ∧
  S (length (vertices c)) = length (vertices s).
Proof.
  intros Hv (e & He & ->)%elem_of_get_direct_submaps.
  pose proof (edges_valid_two_blocks s e Hv He).
  rewrite contract_length; [lia|]. by eapply Forall_forall in Hv.
Qed.

Lemma reach_blocks_bounds (s x : Submap) :
  reach s x → edges_valid s → (1 ≤ length (vertices s))%nat →
  (1 ≤ length (vertices x) ≤ length (vertices s))%nat.
Proof.
  induction 1 as [|s c x Hc Hr IH]; intros Hv Hlen; [lia|].
  destruct (child_blocks s c Hv Hc).
  assert (edges_valid c) by (eapply reach_edges_valid; [|done]; by repeat econstructor).
  specialize (IH ltac:(done) ltac:(lia)). lia.
Qed.

Lemma proper_reach_blocks_bounds (s x : Submap) :
  proper_reach s x → edges_valid s →
  (1 ≤ length (vertices x) < length (vertices s))%nat.
Proof.
  intros (c & Hc & Hr) Hv. destruct (child_blocks s c Hv Hc).
  assert (edges_valid c) by (eapply reach_edges_valid; [|done]; by repeat econstructor).
  pose proof (reach_blocks_bounds c x Hr ltac:(done) ltac:(lia)). lia.
Qed.

(** ** Enumeration *)

Section enumeration.
Variable graph_changed : nat → bool.
Hypothesis Hquiet : never_set graph_changed.

Lemma visited_added_reach (s : Submap) (g g' : Globals) :
  visited s g g' →
  ∃ added, _all_submaps g' = _all_submaps g ++ added ∧
           ∀ x, x ∈ added → reach s x.
Proof.
  intros (_ & _ & _ & _ & added & Heq & Hin & Hnotin).
  exists added. split; [done|].
  destruct (decide (s ∈ _all_submaps g)) as [H|H].
  - rewrite (Hin H). by intros ? ?%elem_of_nil.
  - destruct (Hnotin H) as (added' & -> & Hp).
    intros x [Hx| ->%list_elem_of_singleton]%elem_of_app; [|constructor].
    by apply proper_reach_reach, Hp.
Qed.

Lemma for_each_children (s : Submap) (fuel : nat) (cs : list Submap) (g : Globals) :
  (∀ c g, (length (edges c) < fuel)%nat → stop_flag g = false →
          children_first (_all_submaps g) → NoDup (_all_submaps g) →
          ∃ g', _handle graph_changed fuel c g = Some g' ∧ visited c g g') →
  (∀ c, c ∈ cs → c ∈ get_direct_submaps s ∧ (length (edges c) < fuel)%nat) →
  stop_flag g = false → children_first (_all_submaps g) → NoDup (_all_submaps g) →
  ∃ g', for_each (_handle graph_changed fuel) cs g = Some g' ∧
        stop_flag g' = false ∧
        children_first (_all_submaps g') ∧ NoDup (_all_submaps g') ∧
        (∀ c, c ∈ cs → c ∈ _all_submaps g') ∧
        ∃ added, _all_submaps g' = _all_submaps g ++ added ∧
                 ∀ x, x ∈ added → proper_reach s x.
Proof.
  intros IH. revert g. induction cs as [|c cs IHcs]; intros g Hcs Hstop Hcf Hnd; simpl.
  - exists g. repeat split; try done.
    + by intros ? ?%elem_of_nil.
    + exists []. rewrite app_nil_r. split; [done|]. by intros ? ?%elem_of_nil.
  - destruct (Hcs c ltac:(by left)) as [Hc Hfuel].
    destruct (IH c g Hfuel Hstop Hcf Hnd) as (g1 & -> & Hvis).
    destruct (visited_added_reach _ _ _ Hvis) as (added1 & Heq1 & Hadded1).
    destruct Hvis as (Hstop1 & Hcf1 & Hnd1 & Hin1 & _).
    destruct (IHcs g1) as (g2 & -> & Hstop2 & Hcf2 & Hnd2 & Hin2 & added2 & Heq2 & Hadded2);
      [intros; apply Hcs; by right|done..|].
    exists g2. repeat split; try done.
    + intros c' [->|Hc']%elem_of_cons; [|by apply Hin2].
      rewrite Heq2. apply elem_of_app. by left.
    + exists (added1 ++ added2). rewrite Heq2, Heq1, <- app_assoc. split; [done|].
      intros x [Hx|Hx]%elem_of_app; [|by apply Hadded2].
      exists c. split; [done|]. by apply Hadded1.
Qed.

Lemma handle_visits (fuel : nat) (s : Submap) (g : Globals) :
  (length (edges s) < fuel)%nat → stop_flag g = false →
  children_first (_all_submaps g) → NoDup (_all_submaps g) →
  ∃ g', _handle graph_changed fuel s g = Some g' ∧ visited s g g'.
Proof.
  revert s g. induction fuel as [|fuel IH]; intros s g Hfuel Hstop Hcf Hnd; [lia|].
  simpl. rewrite Hquiet, Hstop. simpl.
  destruct (in_submap_array (_all_submaps g) s) eqn:Hinside.
  - apply in_submap_array_true in Hinside. exists (tick g).
    split; [done|]. repeat split; try done.
    exists []. rewrite app_nil_r. split; [done|]. split; [done|]. by intros [].
  - apply in_submap_array_false in Hinside.
    assert (∃ g1, (if (1 <? length (vertices s))%nat
                   then for_each (_handle graph_changed fuel) (get_direct_submaps s) (tick g)
                   else Some (tick g)) = Some g1 ∧
              stop_flag g1 = false ∧
              children_first (_all_submaps g1) ∧ NoDup (_all_submaps g1) ∧
              ((1 < length (vertices s))%nat →
               ∀ c, c ∈ get_direct_submaps s → c ∈ _all_submaps g1) ∧
              ∃ added, _all_submaps g1 = _all_submaps g ++ added ∧
                       ∀ x, x ∈ added → proper_reach s x)
      as (g1 & -> & Hstop1 & Hcf1 & Hnd1 & Hin1 & added & Heq1 & Hadded).
    { destruct (Nat.ltb_spec 1 (length (vertices s))) as [Hlen|Hlen].
      - destruct (for_each_children s fuel (get_direct_submaps s) (tick g))
          as (g1 & Hg1 & ? & ? & ? & ? & ?); try done.
        + intros c Hc. split; [done|].
          pose proof (proper_reach_edges_length s c) as Hlt.
          specialize (Hlt ltac:(exists c; split; [done|constructor])). lia.
        + exists g1. repeat split; done.
      - exists (tick g). repeat split; try done; [lia|].
        exists []. rewrite app_nil_r. split; [done|]. by intros ? ?%elem_of_nil. }
    destruct s as [vs es]. simpl in *.
    eexists. split; [done|]. unfold visited. simpl.
    assert (mkSubmap vs es ∉ _all_submaps g1) as Hfresh.
    { rewrite Heq1. intros [?|Hx]%elem_of_app; [done|].
      by apply Hadded, proper_reach_ne in Hx. }
    repeat split.
    + done.
    + intros p x c Hp Hlen Hc.
      destruct (decide (p < length (_all_submaps g1))%nat) as [Hlt|Hge].
      * rewrite lookup_app_l in Hp by done.
        destruct (Hcf1 p x c Hp Hlen Hc) as (q & Hq & Hlook).
        exists q. split; [done|]. rewrite lookup_app_l by lia. done.
      * rewrite lookup_app_r in Hp by lia.
        apply list_lookup_singleton_Some in Hp as [Hp <-].
        apply Hin1, list_elem_of_lookup in Hc as [q Hq]; [|done].
        exists q. pose proof (lookup_lt_Some _ _ _ Hq).
        split; [lia|]. by rewrite lookup_app_l.
    + apply NoDup_app. split; [done|]. split; [|apply NoDup_singleton].
      intros x Hx ->%list_elem_of_singleton. done.
    + apply elem_of_app. right. by apply list_elem_of_singleton.
    + exists (added ++ [mkSubmap vs es]). rewrite Heq1, <- app_assoc.
      split; [done|]. split; [done|]. intros _. by exists added.
Qed.

Lemma get_all_submaps_visits (s : Submap) (g : Globals) :
  stop_flag g = false →
  ∃ l' g', get_all_submaps graph_changed s g = Some (l' ++ [s], g') ∧
           stop_flag g' = false ∧
           children_first (l' ++ [s]) ∧ NoDup (l' ++ [s]) ∧
           ∀ x, x ∈ l' → proper_reach s x.
Proof.
  intros Hstop. unfold get_all_submaps.
  destruct (handle_visits (S (length (edges s))) s (set_all_submaps [] g))
    as (g1 & -> & Hstop1 & Hcf1 & Hnd1 & _ & added & Heq & _ & Hadded);
    [lia|done| |apply NoDup_nil_2|].
  { intros p x c Hp. simpl in Hp. by rewrite lookup_nil in Hp. }
  simpl in Heq. destruct Hadded as (l' & -> & Hl'); [by intros ?%elem_of_nil|].
  exists l'. eexists. simpl. rewrite Heq. split; [done|].
  rewrite <- Heq. done.
Qed.
End enumeration.

(** ** C6 *)

(** C6: in the list returned by a run of [get_all_submaps] during which the
    signal is never read set, started with [stop_flag] clear on a submap
    whose edge indices are valid and distinct, every direct child of a
    listed submap that occurs in the list stands at a strictly smaller
    index than that submap, and the input submap is the last element. *)
Theorem C6_children_before_parents (graph_changed : nat → bool) (s : Submap)
    (g : Globals) :
  never_set graph_changed → stop_flag g = false → edges_valid s →
  ∃ l g', get_all_submaps graph_changed s g = Some (l, g') ∧
          last l = Some s ∧
          ∀ p q x c, l !! p = Some x → c ∈ get_direct_submaps x →
                     l !! q = Some c → (q < p)%nat.
Proof.
  intros Hquiet Hstop Hvalid.
  destruct (get_all_submaps_visits graph_changed Hquiet s g Hstop)
    as (l' & g' & Heq & _ & Hcf & Hnd & Hl').
  exists (l' ++ [s]), g'. split; [done|]. split; [apply last_snoc|].
  intros p q x c Hp Hc Hq.
  assert (reach s x) as Hreach.
  { apply list_elem_of_lookup_2, elem_of_app in Hp as [Hx|Hx%list_elem_of_singleton].
    - by apply proper_reach_reach, Hl'.
    - subst. constructor. }
  pose proof (reach_edges_valid s x Hreach Hvalid) as Hvx.
  destruct (child_blocks x c Hvx Hc) as [Hlen _].
  destruct (Hcf p x c Hp Hlen Hc) as (q' & Hlt & Hq').
  by rewrite (NoDup_lookup _ q q' c Hnd Hq Hq').
Qed.

Lemma triangle_valid : Forall (edge_valid 3) triangle.
Proof. unfold triangle, edge_valid. repeat constructor; simpl; lia. Qed.

Lemma quiet_never_set : never_set quiet.
Proof. intros t. reflexivity. Qed.

Lemma C6_children_before_parents_witness :
  ∃ l g', get_all_submaps quiet (from_graph 3 triangle) init_globals = Some (l, g') ∧
          last l = Some (from_graph 3 triangle) ∧
          ∀ p q x c, l !! p = Some x → c ∈ get_direct_submaps x →
                     l !! q = Some c → (q < p)%nat.
Proof.
  apply (C6_children_before_parents quiet (from_graph 3 triangle) init_globals).
  - apply quiet_never_set.
  - reflexivity.
  - apply from_graph_edges_valid, triangle_valid.
Defined.

(** ** The order matrix *)

Lemma matrix_init_size (junk : nat → nat → Z) (m : nat) :
  size (matrix_init junk m) = m.
Proof. unfold matrix_init. by destruct (Nat.eqb_spec m 0) as [->|]. Qed.

Lemma matrix_init_shape (junk : nat → nat → Z) (m : nat) :
  well_shaped (matrix_init junk m).
Proof.
  unfold matrix_init, well_shaped. destruct (Nat.eqb_spec m 0) as [->|]; simpl.
  - split; [done|constructor].
  - rewrite length_map, length_seq. split; [done|].
    apply Forall_fmap, Forall_forall. intros i _. simpl.
    by rewrite length_map, length_seq.
Qed.

Lemma set_entry_shape (M : WYMatrix) (i j : nat) (x : Z) :
  (i < size M)%nat → well_shaped M → well_shaped (set_entry M i j x).
Proof.
  intros Hi [Hlen Hrows]. unfold well_shaped, set_entry. simpl.
  rewrite length_insert. split; [done|].
  apply Forall_insert; [done|]. rewrite length_insert.
  destruct (lookup_lt_is_Some_2 (entries M) i ltac:(lia)) as [row Hrow].
  rewrite (list_lookup_total_correct _ _ _ Hrow).
  eapply Forall_forall in Hrows; [done|]. by eapply list_elem_of_lookup_2.
Qed.

Lemma entry_set_entry (M : WYMatrix) (i j i' j' : nat) (x : Z) :
  well_shaped M → (i < size M)%nat → (j < size M)%nat →
  entry (set_entry M i j x) i' j'
  = if decide (i' = i ∧ j' = j) then x else entry M i' j'.
Proof.
  intros [Hlen Hrows] Hi Hj. unfold entry, set_entry. simpl.
  destruct (lookup_lt_is_Some_2 (entries M) i ltac:(lia)) as [row Hrow].
  assert (length row = size M) as Hrowlen.
  { eapply Forall_forall in Hrows; [done|]. by eapply list_elem_of_lookup_2. }
  destruct (decide (i' = i)) as [->|Hne].
  - rewrite !(list_lookup_total_correct _ _ _ Hrow).
    rewrite list_lookup_total_insert_eq by lia.
    destruct (decide (j' = j)) as [->|Hnej].
    + rewrite list_lookup_total_insert_eq by lia. by rewrite decide_True.
    + rewrite list_lookup_total_insert_ne by done.
      rewrite decide_False by naive_solver. done.
  - rewrite list_lookup_total_insert_ne by done.
    rewrite decide_False by naive_solver. done.
Qed.

Lemma ordering_row_body (i : nat) (s1 : Submap) (M : WYMatrix) (p : nat * Submap) :
  (let j : nat := p.1 in
   let s2 : Submap := p.2 in
   let x := submap_ge s2 s1 in
   if (i <=? j)%nat && x then set_entry M i j 1 else set_entry M i j 0)
  = set_entry M i p.1 (order_value i p.1 s1 p.2).
Proof. unfold order_value. simpl. by case_match. Qed.

Lemma enumerates_imap (l : list Submap) : enumerates l (imap pair l).
Proof.
  intros k p Hp. rewrite list_lookup_imap in Hp.
  destruct (l !! k) as [x|] eqn:Hk; simplify_eq/=. done.
Qed.

Lemma enumerates_app_l (l : list Submap) (ps qs : list (nat * Submap)) :
  enumerates l (ps ++ qs) → enumerates l ps.
Proof.
  intros H k p Hp. apply H. rewrite lookup_app_l; [done|].
  by eapply lookup_lt_Some.
Qed.

Lemma enumerates_last (l : list Submap) (ps : list (nat * Submap)) (p : nat * Submap) :
  enumerates l (ps ++ [p]) → p.1 = length ps ∧ l !! length ps = Some p.2.
Proof.
  intros H. apply (H (length ps) p).
  rewrite lookup_app_r, Nat.sub_diag by lia. done.
Qed.

(** The inner loop after the columns listed in [ps]. *)
Lemma ordering_row_prefix (l : list Submap) (i : nat) (s1 : Submap)
    (M : WYMatrix) (ps : list (nat * Submap)) :
  well_shaped M → (i < size M)%nat → length l = size M → enumerates l ps →
  let M' := foldl (λ M p, set_entry M i p.1 (order_value i p.1 s1 p.2)) M ps in
  well_shaped M' ∧ size M' = size M ∧
  ∀ i' j', entry M' i' j'
           = if decide (i' = i ∧ (j' < length ps)%nat)
             then order_value i j' s1 (l !!! j') else entry M i' j'.
Proof.
  intros Hshape Hi Hlen. induction ps as [|p ps IH] using rev_ind; intros Hps; simpl.
  - split; [done|]. split; [done|]. intros i' j'.
    rewrite decide_False; [done|]. simpl. lia.
  - rewrite foldl_app. simpl.
    destruct (IH (enumerates_app_l _ _ _ Hps)) as (Hshape' & Hsize' & Hentries).
    destruct (enumerates_last _ _ _ Hps) as [Hp1 Hp2].
    pose proof (lookup_lt_Some _ _ _ Hp2) as Hlt.
    split; [apply set_entry_shape; [lia|done]|]. split; [done|].
    intros i' j'. rewrite entry_set_entry by (try done; lia).
    rewrite Hentries, length_app. simpl. rewrite Hp1.
    destruct (decide (i' = i ∧ j' = length ps)) as [[-> ->]|Hne].
    + rewrite decide_True by (split; [done|lia]).
      by rewrite (list_lookup_total_correct _ _ _ Hp2).
    + destruct (decide (i' = i ∧ (j' < length ps)%nat)) as [[-> ?]|Hne'].
      * rewrite decide_True by (split; [done|lia]). done.
      * rewrite decide_False; [done|]. intros [-> ?]. 
        destruct (decide (j' = length ps)); [naive_solver|].
        apply Hne'. split; [done|lia].
Qed.

Lemma foldl_ext {A B : Type} (f g : A → B → A) (a : A) (l : list B) :
  (∀ a b, f a b = g a b) → foldl f a l = foldl g a l.
Proof.
  intros H. revert a. induction l as [|b l IH]; intros a; simpl; [done|].
  by rewrite H, IH.
Qed.

Lemma ordering_row_entries (l : list Submap) (i : nat) (s1 : Submap) (M : WYMatrix) :
  well_shaped M → (i < size M)%nat → length l = size M →
  well_shaped (ordering_row l i s1 M) ∧ size (ordering_row l i s1 M) = size M ∧
  ∀ i' j', (j' < size M)%nat →
           entry (ordering_row l i s1 M) i' j'
           = if decide (i' = i) then order_value i j' s1 (l !!! j') else entry M i' j'.
Proof.
  intros Hshape Hi Hlen. unfold ordering_row.
  rewrite (foldl_ext _ (λ M p, set_entry M i p.1 (order_value i p.1 s1 p.2)))
    by (intros; apply ordering_row_body).
  destruct (ordering_row_prefix l i s1 M (imap pair l) Hshape Hi Hlen
              (enumerates_imap l)) as (H1 & H2 & H3).
  split; [done|]. split; [done|]. intros i' j' Hj'. rewrite H3, length_imap.
  destruct (decide (i' = i)) as [->|].
  - rewrite decide_True by (split; [done|lia]). done.
  - rewrite decide_False by naive_solver. done.
Qed.

Lemma ordering_rows_prefix (l : list Submap) (M : WYMatrix)
    (rows : list (nat * Submap)) :
  well_shaped M → length l = size M → enumerates l rows →
  let M' := foldl (λ M p, ordering_row l p.1 p.2 M) M rows in
  well_shaped M' ∧ size M' = size M ∧
  ∀ i' j', (j' < size M)%nat →
           entry M' i' j'
           = if decide (i' < length rows)%nat
             then order_value i' j' (l !!! i') (l !!! j') else entry M i' j'.
Proof.
  intros Hshape Hlen. induction rows as [|p rows IH] using rev_ind; intros Hrows; simpl.
  - split; [done|]. split; [done|]. intros i' j' _.
    done.
  - rewrite foldl_app. simpl.
    destruct (IH (enumerates_app_l _ _ _ Hrows)) as (Hshape' & Hsize' & Hentries).
    destruct (enumerates_last _ _ _ Hrows) as [Hp1 Hp2].
    pose proof (lookup_lt_Some _ _ _ Hp2) as Hlt.
    destruct (ordering_row_entries l p.1 p.2 _ Hshape') as (H1 & H2 & H3); [lia..|].
    split; [done|]. split; [lia|].
    intros i' j' Hj'. rewrite H3 by lia. rewrite length_app. simpl.
    destruct (decide (i' = p.1)) as [->|Hne].
    + rewrite decide_True by lia. rewrite Hp1.
      by rewrite (list_lookup_total_correct _ _ _ Hp2).
    + rewrite Hentries by done.
      destruct (decide (i' < length rows)%nat).
      * rewrite decide_True by lia. done.
      * rewrite decide_False by lia. done.
Qed.

Section order_matrix.
Variable graph_changed : nat → bool.
Hypothesis Hquiet : never_set graph_changed.

Lemma ordering_rows_quiet (l : list Submap) (rows : list (nat * Submap))
    (M : WYMatrix) (g : Globals) :
  stop_flag g = false →
  ∃ g', ordering_rows graph_changed l rows M g
        = (foldl (λ M p, ordering_row l p.1 p.2 M) M rows, g') ∧
        stop_flag g' = false.
Proof.
  revert M g. induction rows as [|[i s1] rows IH]; intros M g Hstop; simpl.
  - by eexists.
  - rewrite Hquiet, Hstop. simpl. apply IH. done.
Qed.

(** The matrix of a pass during which the signal stays clear. *)
Lemma ordering_matrix_entries (junk : nat → nat → Z) (l : list Submap) (g : Globals) :
  stop_flag g = false →
  ∃ M g', get_ordering_matrix graph_changed junk l g = (M, g') ∧
          stop_flag g' = false ∧ well_shaped M ∧ size M = length l ∧
          ∀ i j si sj, l !! i = Some si → l !! j = Some sj →
                       entry M i j = order_value i j si sj.
Proof.
  intros Hstop. unfold get_ordering_matrix.
  destruct (ordering_rows_quiet l (imap pair l) (matrix_init junk (length l)) g Hstop)
    as (g' & -> & Hstop').
  eexists _, g'. split; [done|]. split; [done|].
  destruct (ordering_rows_prefix l (matrix_init junk (length l)) (imap pair l))
    as (H1 & H2 & H3).
  { apply matrix_init_shape. }
  { by rewrite matrix_init_size. }
  { apply enumerates_imap. }
  rewrite matrix_init_size in H2, H3.
  split; [done|]. split; [done|].
  intros i j si sj Hi Hj.
  rewrite H3 by (by eapply lookup_lt_Some).
  rewrite length_imap, decide_True by (by eapply lookup_lt_Some).
  by rewrite (list_lookup_total_correct _ _ _ Hi), (list_lookup_total_correct _ _ _ Hj).
Qed.
End order_matrix.

(** ** The refinement test *)

Lemma find_node_loop_cases (i : nat) (vs : list (list Z)) (n : Z) :
  (find_node_loop i vs n = -1 ∧ ∀ v, v ∈ vs → n ∉ v) ∨
  (∃ p b, vs !! p = Some b ∧ n ∈ b ∧ find_node_loop i vs n = Z.of_nat (i + p)).
Proof.
  revert i. induction vs as [|v vs IH]; intros i; simpl.
  - left. split; [done|]. by intros ? ?%elem_of_nil.
  - destruct (array_contains int_eq v n) eqn:Hc.
    + apply (array_contains_true _ int_eq_true) in Hc.
      right. exists 0%nat, v. rewrite Nat.add_0_r. done.
    + assert (n ∉ v) as Hn.
      { intros Hin%(array_contains_true _ int_eq_true). congruence. }
      destruct (IH (S i)) as [[Hf Hnone]|(p & b & Hp & Hb & Hf)].
      * left. split; [done|]. intros v' [->|?]%elem_of_cons; [done|by apply Hnone].
      * right. exists (S p), b. rewrite Hf. repeat split; [done..|]. f_equal. lia.
Qed.

Lemma find_node_idx_disjoint (s : Submap) (p : nat) (b : list Z) (n : Z) :
  blocks_disjoint s → vertices s !! p = Some b → n ∈ b →
  _find_node_idx s n = Z.of_nat p.
Proof.
  intros Hdis Hp Hn. unfold _find_node_idx.
  destruct (find_node_loop_cases 0 (vertices s) n)
    as [[_ Hnone]|(q & b' & Hq & Hb' & ->)].
  - exfalso. eapply Hnone; [|done]. by eapply list_elem_of_lookup_2.
  - by rewrite (Hdis p q b b' n).
Qed.

Lemma find_node_idx_found (s : Submap) (n : Z) :
  (∃ v, v ∈ vertices s ∧ n ∈ v) →
  ∃ p b, vertices s !! p = Some b ∧ n ∈ b ∧ _find_node_idx s n = Z.of_nat p.
Proof.
  intros (v & Hv & Hn). unfold _find_node_idx.
  destruct (find_node_loop_cases 0 (vertices s) n) as [[_ Hnone]|H]; [|done].
  exfalso. by eapply Hnone.
Qed.

Lemma submap_ge_block_rest (s2 : Submap) (i : nat) (idx : Z) (v : list Z) :
  submap_ge_block s2 (S i) idx v = true ↔ ∀ n, n ∈ v → _find_node_idx s2 n = idx.
Proof.
  revert i. induction v as [|n v IH]; intros i; simpl.
  - split; [|done]. by intros _ ? ?%elem_of_nil.
  - destruct (Z.eqb_spec (_find_node_idx s2 n) idx) as [Heq|Hne]; simpl.
    + rewrite IH. split.
      * intros H n' [->|?]%elem_of_cons; auto.
      * intros H n' Hn'. apply H. by right.
    + split; [done|]. intros H. destruct Hne. apply H. by left.
Qed.

(** The value given to [idx] before the loop is never observed. *)
Lemma submap_ge_block_init (s2 : Submap) (idx idx' : Z) (v : list Z) :
  submap_ge_block s2 0 idx v = submap_ge_block s2 0 idx' v.
Proof. by destruct v. Qed.

Lemma submap_ge_block_true (s2 : Submap) (idx0 : Z) (v : list Z) :
  submap_ge_block s2 0 idx0 v = true
  ↔ ∃ idx, ∀ n, n ∈ v → _find_node_idx s2 n = idx.
Proof.
  destruct v as [|n0 v]; simpl.
  - split; [|done]. intros _. exists 0. by intros ? ?%elem_of_nil.
  - rewrite submap_ge_block_rest. split.
    + intros H. exists (_find_node_idx s2 n0).
      intros n [->|?]%elem_of_cons; auto.
    + intros [idx H] n Hn. rewrite (H n0) by by left. apply H. by right.
Qed.

Lemma submap_ge_true (s1 s2 : Submap) :
  submap_ge s1 s2 = true
  ↔ ∀ v, v ∈ vertices s1 → ∃ idx, ∀ n, n ∈ v → _find_node_idx s2 n = idx.
Proof.
  unfold submap_ge. rewrite forallb_forall. split.
  - intros H v Hv. apply (submap_ge_block_true s2 0). by apply H, list_elem_of_In.
  - intros H v Hv. apply submap_ge_block_true. by apply H, list_elem_of_In.
Qed.

Lemma submap_ge_refl (s : Submap) : blocks_disjoint s → submap_ge s s = true.
Proof.
  intros Hdis. apply submap_ge_true. intros v [p Hp]%list_elem_of_lookup.
  exists (Z.of_nat p). intros n Hn. by eapply find_node_idx_disjoint.
Qed.

Lemma triangle_submaps_enumerated :
  ∃ g', get_all_submaps quiet (from_graph 3 triangle) init_globals
        = Some (triangle_submaps, g').
Proof. eexists. vm_compute. reflexivity. Qed.

Lemma triangle_order_matrix_computed (junk : nat → nat → Z) :
  ∃ g', get_ordering_matrix quiet junk triangle_submaps init_globals
        = (triangle_order_matrix, g').
Proof. eexists. vm_compute. reflexivity. Qed.

(** ** C7 *)

(** C7: the matrix returned by a run of [get_ordering_matrix] during which
    the signal is never read set, on a list of submaps each of which has
    pairwise disjoint blocks (as every submap obtained from a graph by
    contractions has, [reach_blocks_disjoint]), is unit-upper-triangular:
    entry (i,i) is 1 for every index i and entry (i,j) is 0 whenever
    i > j. *)
Theorem C7_unit_upper_triangular (graph_changed : nat → bool)
    (junk : nat → nat → Z) (l : list Submap) (g : Globals) :
  never_set graph_changed → stop_flag g = false → Forall blocks_disjoint l →
  ∃ M g', get_ordering_matrix graph_changed junk l g = (M, g') ∧
          size M = length l ∧ unit_upper_triangular M.
Proof.
  intros Hquiet Hstop Hdis.
  destruct (ordering_matrix_entries graph_changed Hquiet junk l g Hstop)
    as (M & g' & Heq & _ & _ & Hsize & Hentries).
  exists M, g'. split; [done|]. split; [done|].
  intros i j Hi Hj. rewrite Hsize in Hi, Hj.
  destruct (lookup_lt_is_Some_2 l i Hi) as [si Hsi].
  destruct (lookup_lt_is_Some_2 l j Hj) as [sj Hsj].
  rewrite (Hentries i j si sj Hsi Hsj). unfold order_value. split.
  - intros ->. simplify_eq. rewrite Nat.leb_refl, submap_ge_refl; [done|].
    eapply Forall_forall in Hdis; [done|]. by eapply list_elem_of_lookup_2.
  - intros Hlt. destruct (Nat.leb_spec i j); [lia|done].
Qed.

Lemma C7_unit_upper_triangular_witness :
  ∃ M g', get_ordering_matrix quiet (λ _ _, 7) triangle_submaps init_globals
          = (M, g') ∧
          size M = length triangle_submaps ∧ unit_upper_triangular M.
Proof.
  apply (C7_unit_upper_triangular quiet (λ _ _, 7) triangle_submaps init_globals).
  - apply quiet_never_set.
  - reflexivity.
  - repeat constructor; intros p q b1 b2 n Hp Hq Hb1 Hb2;
      destruct p as [|[|[|p]]], q as [|[|[|q]]]; simplify_eq/=; try done;
      set_unfold; lia.
Defined.

(** ** Coefficients *)

Lemma mobius_step_shape (M : WYMatrix) (j : nat) (u : list Z) :
  (j < size M)%nat →
  mobius_shape_inv M (S j) u → mobius_shape_inv M j (mobius_step M u j).
Proof.
  intros Hj (Hlen & Hzero & Htop). unfold mobius_step.
  split; [by rewrite length_insert|]. split.
  - intros k Hk. rewrite list_lookup_total_insert_ne by lia. apply Hzero. lia.
  - intros _. destruct (Nat.eqb_spec j (size M - 1)) as [->|Hne].
    + rewrite list_lookup_total_insert_eq by lia. rewrite Hzero by lia. done.
    + rewrite list_lookup_total_insert_ne by done. apply Htop. lia.
Qed.

Lemma mobius_loop_shape (M : WYMatrix) (n j0 : nat) :
  (j0 + n = size M)%nat →
  mobius_shape_inv M j0
    (foldl (mobius_step M) (replicate (size M) 0) (rev (seq j0 n))).
Proof.
  revert j0. induction n as [|n IH]; intros j0 Hn; simpl.
  - split; [by rewrite length_replicate|]. split; intros; try lia.
    apply lookup_total_replicate_2. lia.
  - rewrite foldl_app. simpl. apply mobius_step_shape; [lia|]. apply IH. lia.
Qed.

Lemma get_mobius_shape (M : WYMatrix) :
  length (get_mobius_of_column M) = size M ∧
  ((0 < size M)%nat → get_mobius_of_column M !!! (size M - 1)%nat = 1).
Proof.
  unfold get_mobius_of_column.
  rewrite (init_zeros []), length_rev, length_seq. simpl.
  destruct (mobius_loop_shape M (size M) 0 eq_refl) as (H1 & _ & H2). done.
Qed.

Lemma get_chromatic_polynomial_unfold (n : nat) (submaps : list Submap) (M : WYMatrix) :
  get_chromatic_polynomial n submaps M
  = foldl (add_mobius submaps) (replicate n 0) (imap pair (get_mobius_of_column M)).
Proof.
  unfold get_chromatic_polynomial. rewrite (init_zeros []), length_seq. done.
Qed.

Lemma add_mobius_length (submaps : list Submap) (ps : list (nat * Z)) (P : list Z) :
  length (foldl (add_mobius submaps) P ps) = length P.
Proof.
  revert P. induction ps as [|p ps IH]; intros P; simpl; [done|].
  rewrite IH. unfold add_mobius. by rewrite length_insert.
Qed.

Lemma add_mobius_untouched (submaps : list Submap) (k : nat)
    (ps : list (nat * Z)) (P : list Z) :
  (∀ p, p ∈ ps → (length (vertices (submaps !!! p.1)) - 1)%nat ≠ k) →
  foldl (add_mobius submaps) P ps !!! k = P !!! k.
Proof.
  revert P. induction ps as [|p ps IH]; intros P Hps; simpl; [done|].
  rewrite IH by (intros; apply Hps; by right).
  unfold add_mobius. apply list_lookup_total_insert_ne, Hps. by left.
Qed.

Lemma snoc_last_total (l : list Z) :
  l ≠ [] → l = take (length l - 1) l ++ [l !!! (length l - 1)%nat].
Proof.
  intros Hl. assert (0 < length l)%nat by (destruct l; simpl; [done|lia]).
  destruct (lookup_lt_is_Some_2 l (length l - 1) ltac:(lia)) as [x Hx].
  rewrite (list_lookup_total_correct _ _ _ Hx).
  rewrite <- (take_S_r _ _ _ Hx).
  replace (S (length l - 1)) with (length l) by lia. by rewrite firstn_all.
Qed.

(** The coefficient of the highest power when exactly the last submap of
    the list has [n] blocks. *)
Lemma leading_coefficient (n : nat) (l' : list Submap) (root : Submap) (M : WYMatrix) :
  (1 ≤ n)%nat → size M = length (l' ++ [root]) →
  length (vertices root) = n →
  (∀ x, x ∈ l' → (1 ≤ length (vertices x) < n)%nat) →
  length (get_chromatic_polynomial n (l' ++ [root]) M) = n ∧
  get_chromatic_polynomial n (l' ++ [root]) M !!! (n - 1)%nat = 1.
Proof.
  intros Hn Hsize Hroot Hl'. rewrite get_chromatic_polynomial_unfold.
  split; [by rewrite add_mobius_length, length_replicate|].
  destruct (get_mobius_shape M) as [Hlen Htop].
  rewrite length_app in Hsize. simpl in Hsize.
  specialize (Htop ltac:(lia)).
  rewrite (snoc_last_total (get_mobius_of_column M))
    by (intros Hnil; rewrite Hnil in Hlen; simpl in Hlen; lia).
  rewrite Hlen, Htop, imap_app, foldl_app. simpl.
  rewrite length_take, Hlen, Nat.add_0_r.
  replace ((size M - 1) `min` size M)%nat with (length l') by lia.
  unfold add_mobius at 1. simpl.
  rewrite lookup_total_app_r, Nat.sub_diag by lia. simpl. rewrite Hroot.
  rewrite list_lookup_total_insert_eq
    by (rewrite add_mobius_length, length_replicate; lia).
  rewrite add_mobius_untouched.
  - rewrite lookup_total_replicate_2 by lia. done.
  - intros [i mu] [k Hk]%list_elem_of_lookup. simpl.
    rewrite list_lookup_imap in Hk.
    destruct (take (size M - 1) (get_mobius_of_column M) !! k) as [y|] eqn:Hy;
      simplify_eq/=.
    apply lookup_lt_Some in Hy. rewrite length_take in Hy.
    destruct (lookup_lt_is_Some_2 l' i ltac:(lia)) as [x Hx].
    rewrite lookup_total_app_l by lia.
    rewrite (list_lookup_total_correct _ _ _ Hx).
    pose proof (Hl' x ltac:(by eapply list_elem_of_lookup_2)). lia.
Qed.

(** ** C8 *)

(** C8: for a well-formed simple graph on [n ≥ 1] vertices and a pass
    during which the signal is never read set, the pipeline returns a
    coefficient array of length [n] whose entry [n-1] is exactly 1. *)
Theorem C8_leading_coefficient_one (graph_changed : nat → bool)
    (junk : nat → nat → Z) (n : nat) (es : list Edge) :
  never_set graph_changed → (1 ≤ n)%nat → well_formed_graph n es →
  ∃ P, pipeline graph_changed junk n es = Some P ∧
       length P = n ∧ P !!! (n - 1)%nat = 1.
Proof.
  intros Hquiet Hn [Hvalid _]. unfold pipeline.
  pose proof (from_graph_edges_valid n es Hvalid) as Hroot.
  destruct (get_all_submaps_visits graph_changed Hquiet (from_graph n es)
              init_globals eq_refl) as (l' & g1 & -> & Hstop & _ & _ & Hl').
  destruct (ordering_matrix_entries graph_changed Hquiet junk
              (l' ++ [from_graph n es]) g1 Hstop) as (M & g2 & -> & _ & _ & Hsize & _).
  eexists. split; [done|].
  apply leading_coefficient; [done|done|apply from_graph_length|].
  intros x Hx. pose proof (proper_reach_blocks_bounds _ _ (Hl' x Hx) Hroot) as H.
  by rewrite from_graph_length in H.
Qed.

Lemma triangle_well_formed : well_formed_graph 3 triangle.
Proof.
  split; [apply triangle_valid|].
  intros p q e1 e2 Hp Hq Hsame.
  destruct p as [|[|[|p]]], q as [|[|[|q]]]; simplify_eq/=; try done;
    destruct Hsame as [[? ?]|[? ?]]; simplify_eq/=.
Qed.

Lemma C8_leading_coefficient_one_witness :
  ∃ P, pipeline quiet (λ _ _, 1) 3 triangle = Some P ∧
       length P = 3%nat ∧ P !!! (3 - 1)%nat = 1.
Proof.
  apply (C8_leading_coefficient_one quiet (λ _ _, 1) 3 triangle).
  - apply quiet_never_set.
  - lia.
  - apply triangle_well_formed.
Defined.

(** ** C4 *)

(** C4: for the triangle on 3 vertices with edges (0,1), (0,2), (1,2) the
    steps [from_graph], [get_all_submaps], [get_ordering_matrix] and
    [get_chromatic_polynomial] with n = 3 yield the coefficients
    [2, -3, 1], that is x^3 - 3x^2 + 2x, whose value is 0 at 2 and 6 at 3. *)
Theorem C4_triangle_polynomial (junk : nat → nat → Z) :
  (∃ l g M g',
      get_all_submaps quiet (from_graph 3 triangle) init_globals = Some (l, g) ∧
      get_ordering_matrix quiet junk l g = (M, g') ∧
      get_chromatic_polynomial 3 l M = [2; -3; 1]) ∧
  pipeline quiet junk 3 triangle = Some [2; -3; 1] ∧
  polynomial_eval [2; -3; 1] 2 = 0 ∧
  polynomial_eval [2; -3; 1] 3 = 6.
Proof.
  split; [|split; [|split]].
  - eexists _, _, _, _. split; [vm_compute; reflexivity|].
    split; vm_compute; reflexivity.
  - vm_compute. reflexivity.
  - vm_compute. reflexivity.
  - vm_compute. reflexivity.
Qed.

(** ** Partitions *)

Lemma elem_of_concat (vs : list (list Z)) (n : Z) :
  n ∈ concat vs ↔ ∃ v, v ∈ vs ∧ n ∈ v.
Proof.
  rewrite list_elem_of_In, in_concat. split; intros (v & Hv & Hn); exists v.
  - by rewrite !list_elem_of_In.
  - by rewrite <- !list_elem_of_In.
Qed.

Lemma NoDup_concat_disjoint (vs : list (list Z)) (p q : nat) (b1 b2 : list Z) (n : Z) :
  NoDup (concat vs) → vs !! p = Some b1 → vs !! q = Some b2 →
  n ∈ b1 → n ∈ b2 → p = q.
Proof.
  revert p q. induction vs as [|v vs IH]; intros p q Hnd Hp Hq H1 H2; [done|].
  simpl in Hnd. apply NoDup_app in Hnd as (_ & Hsep & Hnd).
  destruct p as [|p], q as [|q]; simplify_eq/=; [done| | |].
  - destruct (Hsep n H1). apply elem_of_concat. exists b2.
    split; [by eapply list_elem_of_lookup_2|done].
  - destruct (Hsep n H2). apply elem_of_concat. exists b1.
    split; [by eapply list_elem_of_lookup_2|done].
  - f_equal. by apply IH.
Qed.

Lemma graph_labels_NoDup (n : nat) : NoDup (graph_labels n).
Proof. apply NoDup_fmap_2; [apply _|apply NoDup_seq]. Qed.

Lemma partitions_disjoint (L : list Z) (s : Submap) :
  NoDup L → partitions L s → blocks_disjoint s.
Proof.
  intros Hnd [_ Hperm] p q b1 b2 n. apply NoDup_concat_disjoint.
  by rewrite Hperm.
Qed.

Lemma partitions_covers (L : list Z) (s : Submap) (n : Z) :
  partitions L s → n ∈ L ↔ ∃ v, v ∈ vertices s ∧ n ∈ v.
Proof. intros [_ Hperm]. by rewrite <- Hperm, elem_of_concat. Qed.

Lemma from_graph_partitions (n : nat) (es : list Edge) :
  partitions (graph_labels n) (from_graph n es).
Proof.
  unfold partitions, graph_labels. rewrite from_graph_vertices. split.
  - apply Forall_fmap, Forall_forall. by intros i _.
  - generalize 0%nat. induction n as [|n IH]; intros k; simpl; [done|].
    by rewrite IH.
Qed.

Lemma merge_blocks_perm (vs : list (list Z)) (i j : nat) (bi bj m : list Z) :
  (i < j)%nat → vs !! i = Some bi → vs !! j = Some bj → m ≡ₚ bi ++ bj →
  concat (delete j (<[i := m]> vs)) ≡ₚ concat vs.
Proof.
  revert i j. induction vs as [|v vs IH]; intros i j Hij Hi Hj Hm; [done|].
  destruct j as [|j]; [lia|]. destruct i as [|i]; simplify_eq/=.
  - rewrite Hm, <- app_assoc. f_equiv.
    rewrite (delete_Permutation vs j bj Hj) at 2. done.
  - f_equiv. apply (IH i j); [lia|done..].
Qed.

Lemma contract_partitions (L : list Z) (s : Submap) (e : Edge) :
  edges_valid s → e ∈ edges s → partitions L s → partitions L (contract s e).
Proof.
  intros Hv He [Hne Hperm].
  eapply Forall_forall in Hv; [|done]. destruct Hv as (Hs & Ht & Hst).
  destruct (lookup_lt_is_Some_2 (vertices s) (lo e)) as [bi Hbi]; [unfold lo; lia|].
  destruct (lookup_lt_is_Some_2 (vertices s) (hi e)) as [bj Hbj]; [unfold hi; lia|].
  unfold partitions. rewrite contract_vertices by done.
  rewrite (list_lookup_total_correct _ _ _ Hbi), (list_lookup_total_correct _ _ _ Hbj).
  split.
  - apply Forall_delete, Forall_insert; [done|].
    intros Hnil. apply (f_equal length) in Hnil.
    rewrite qsort_length, length_app in Hnil.
    assert (bi ≠ []).
    { eapply Forall_forall in Hne; [done|]. by eapply list_elem_of_lookup_2. }
    destruct bi; simpl in *; [done|lia].
  - rewrite <- Hperm. apply (merge_blocks_perm _ _ _ bi bj); [|done..|apply qsort_perm].
    unfold lo, hi. lia.
Qed.

Lemma reach_partitions (L : list Z) (s x : Submap) :
  reach s x → edges_valid s → partitions L s → partitions L x.
Proof.
  intros Hr Hv Hp.
  apply (reach_invariant (λ s, edges_valid s ∧ partitions L s) s x); [|done|done].
  intros s' c [? ?] Hc. split.
  - eapply reach_edges_valid; [|done]. by repeat econstructor.
  - apply elem_of_get_direct_submaps in Hc as (e & He & ->).
    by apply contract_partitions.
Qed.

(** The blocks of every submap obtained from a graph by contractions are
    pairwise disjoint. *)
Lemma reach_blocks_disjoint (n : nat) (es : list Edge) (x : Submap) :
  Forall (edge_valid n) es → reach (from_graph n es) x → blocks_disjoint x.
Proof.
  intros Hvalid Hr. apply (partitions_disjoint (graph_labels n)).
  - apply graph_labels_NoDup.
  - eapply reach_partitions; [done| |apply from_graph_partitions].
    by apply from_graph_edges_valid.
Qed.

Lemma submap_ge_coarsening (L : list Z) (fine coarse : Submap) :
  NoDup L → partitions L fine → partitions L coarse →
  submap_ge fine coarse = true ↔ is_coarsening_of coarse fine.
Proof.
  intros Hnd Hfine Hcoarse.
  pose proof (partitions_disjoint L coarse Hnd Hcoarse) as Hdis.
  rewrite submap_ge_true. split.
  - intros H v Hv. destruct (H v Hv) as [idx Hidx].
    assert (v ≠ []) as Hne by (destruct Hfine as [Hne _]; by eapply Forall_forall in Hne).
    destruct v as [|n0 v]; [done|].
    assert (∀ n, n ∈ n0 :: v →
                 ∃ p b, vertices coarse !! p = Some b ∧ n ∈ b ∧
                        _find_node_idx coarse n = Z.of_nat p) as Hfound.
    { intros n Hn. apply find_node_idx_found.
      apply (partitions_covers L coarse n Hcoarse).
      apply (partitions_covers L fine n Hfine). by exists (n0 :: v). }
    destruct (Hfound n0 ltac:(by left)) as (p & b & Hp & Hb & Hf).
    exists p. split.
    + exists b. split; [done|]. intros n Hn.
      destruct (Hfound n Hn) as (p' & b' & Hp' & Hb' & Hf').
      rewrite (Hidx n Hn) in Hf'. rewrite (Hidx n0 ltac:(by left)) in Hf.
      assert (p' = p) as -> by lia. by simplify_eq.
    + intros q' (c' & Hq' & Hsub).
      apply (Hdis q' p c' b n0); [done..|apply Hsub; by left|done].
  - intros H v Hv. destruct (H v Hv) as (q & (c & Hq & Hsub) & _).
    exists (Z.of_nat q). intros n Hn.
    apply (find_node_idx_disjoint coarse q c); [done..|by apply Hsub].
Qed.

(** ** C1 *)

(** C1, counterexample: for the graph with two vertices and one edge, the
    list is [{0,1}; {0},{1}] and entry (0,1) is 1, although submap 1 is not
    a coarsening of submap 0: the block {0,1} of submap 0 lies in no block
    of submap 1. *)
Lemma C1_entry_set_but_not_coarser :
  ∃ l g M g' s0 s1,
    get_all_submaps quiet (from_graph 2 single_edge) init_globals = Some (l, g) ∧
    get_ordering_matrix quiet (λ _ _, 0) l g = (M, g') ∧
    l !! 0%nat = Some s0 ∧ l !! 1%nat = Some s1 ∧ (0 ≤ 1)%nat ∧
    entry M 0 1 = 1 ∧ ¬ is_coarsening_of s1 s0.
Proof.
  eexists _, _, _, _, _, _. split; [vm_compute; reflexivity|].
  split; [vm_compute; reflexivity|].
  split; [reflexivity|]. split; [reflexivity|]. split; [lia|].
  split; [reflexivity|].
  intros H. destruct (H [0; 1]) as (q & (c & Hq & Hsub) & _); [by left|].
  simpl in Hq. destruct q as [|[|q]]; simplify_eq/=.
  - specialize (Hsub 1). set_unfold. lia.
  - specialize (Hsub 0). set_unfold. lia.
Qed.

(** C1, amended: for the order matrix built by [get_ordering_matrix] over
    the enumerated submap list of a well-formed graph, in a pass during
    which the signal is never read set, for every pair of indices (i,j)
    with i ≤ j, entry (i,j) is 1 if and only if submap i is a coarsening of
    submap j, i.e. every block of submap j is a subset of exactly one block
    of submap i. *)
Theorem C1_entry_iff_row_coarser (graph_changed : nat → bool)
    (junk : nat → nat → Z) (n : nat) (es : list Edge) :
  never_set graph_changed → well_formed_graph n es →
  ∃ l g M g',
    get_all_submaps graph_changed (from_graph n es) init_globals = Some (l, g) ∧
    get_ordering_matrix graph_changed junk l g = (M, g') ∧
    ∀ i j si sj, (i ≤ j)%nat → l !! i = Some si → l !! j = Some sj →
                 (entry M i j = 1 ↔ is_coarsening_of si sj).
Proof.
  intros Hquiet [Hvalid _].
  pose proof (from_graph_edges_valid n es Hvalid) as Hroot.
  destruct (get_all_submaps_visits graph_changed Hquiet (from_graph n es)
              init_globals eq_refl) as (l' & g1 & Heq & Hstop & _ & _ & Hl').
  destruct (ordering_matrix_entries graph_changed Hquiet junk
              (l' ++ [from_graph n es]) g1 Hstop)
    as (M & g2 & HeqM & _ & _ & _ & Hentries).
  exists (l' ++ [from_graph n es]), g1, M, g2. split; [done|]. split; [done|].
  assert (∀ k s, (l' ++ [from_graph n es]) !! k = Some s →
                 partitions (graph_labels n) s) as Hpart.
  { intros k s Hk. apply (reach_partitions _ (from_graph n es));
      [|done|apply from_graph_partitions].
    apply list_elem_of_lookup_2, elem_of_app in Hk as [Hx|Hx%list_elem_of_singleton].
    - by apply proper_reach_reach, Hl'.
    - subst. constructor. }
  intros i j si sj Hij Hi Hj. rewrite (Hentries i j si sj Hi Hj).
  unfold order_value. destruct (Nat.leb_spec i j); [simpl|lia].
  rewrite <- (submap_ge_coarsening (graph_labels n) sj si);
    [|apply graph_labels_NoDup|by eapply Hpart..].
  destruct (submap_ge sj si); split; (done || lia || intros; discriminate).
Qed.

Lemma C1_entry_iff_row_coarser_witness :
  ∃ l g M g',
    get_all_submaps quiet (from_graph 3 triangle) init_globals = Some (l, g) ∧
    get_ordering_matrix quiet (λ _ _, 0) l g = (M, g') ∧
    ∀ i j si sj, (i ≤ j)%nat → l !! i = Some si → l !! j = Some sj →
                 (entry M i j = 1 ↔ is_coarsening_of si sj).
Proof.
  apply (C1_entry_iff_row_coarser quiet (λ _ _, 0) 3 triangle).
  - apply quiet_never_set.
  - apply triangle_well_formed.
Defined.

Lemma C5_mobius_identity_witness :
  let mu := [2; -1; -1; -1; 1] in
  let m := size triangle_order_matrix in
  length mu = m ∧
  (∀ s, (s < m)%nat →
        sum_upto m (λ t, mu !!! t * entry triangle_order_matrix s t)
        = if (s =? m - 1)%nat then 1 else 0) ∧
  ((0 < m)%nat → mu !!! (m - 1)%nat = 1) ∧
  (∀ s, (s < m - 1)%nat →
        mu !!! s
        = - sum_upto m (λ t, if negb (t =? s)%nat
                                && (entry triangle_order_matrix s t =? 1)
                             then mu !!! t else 0)).
Proof.
  apply (C5_mobius_identity triangle_order_matrix [2; -1; -1; -1; 1]).
  - intros i j Hi Hj. simpl in Hi, Hj.
    destruct i as [|[|[|[|[|i]]]]], j as [|[|[|[|[|j]]]]]; try lia;
      split; intros; (reflexivity || lia).
  - intros i j Hi Hj. simpl in Hi, Hj.
    destruct i as [|[|[|[|[|i]]]]], j as [|[|[|[|[|j]]]]]; try lia;
      vm_compute; auto.
  - reflexivity.
Defined.

(** ** Termination of the enumeration *)

Lemma for_each_total {A S : Type} (body : A → S → option S) (l : list A) (s : S) :
  (∀ x s, x ∈ l → ∃ s', body x s = Some s') → ∃ s', for_each body l s = Some s'.
Proof.
  revert s. induction l as [|x l IH]; intros s H; simpl; [by eexists|].
  destruct (H x s ltac:(by left)) as [s' ->].
  apply IH. intros; apply H; by right.
Qed.

(** [_handle] returns, whatever the signal does, once [fuel] exceeds the
    number of edges. *)
Lemma handle_fuel (graph_changed : nat → bool) (fuel : nat) (s : Submap) (g : Globals) :
  (length (edges s) < fuel)%nat → ∃ g', _handle graph_changed fuel s g = Some g'.
Proof.
  revert s g. induction fuel as [|fuel IH]; intros s g Hfuel; [lia|]. simpl.
  destruct (graph_changed (polls g) || stop_flag g); [by eexists|].
  destruct (in_submap_array (_all_submaps g) s); [by eexists|].
  destruct (1 <? length (vertices s))%nat; [|by eexists].
  destruct (for_each_total (_handle graph_changed fuel) (get_direct_submaps s) (tick g))
    as [g1 ->]; [|by eexists].
  intros c g' (e & He & ->)%elem_of_get_direct_submaps. apply IH.
  pose proof (contract_edges_length s e He). lia.
Qed.

Lemma get_all_submaps_total (graph_changed : nat → bool) (s : Submap) (g : Globals) :
  ∃ l g', get_all_submaps graph_changed s g = Some (l, g').
Proof.
  unfold get_all_submaps.
  destruct (handle_fuel graph_changed (S (length (edges s))) s (set_all_submaps [] g))
    as [g1 ->]; [lia|]. by eexists _, _.
Qed.

(** ** C9 *)

(** C9, the code at a pass over the triangle: the worker counts the nodes
    between [mtx_lock] and [mtx_unlock] of [nodes_mutex], but reads the
    edge list in [from_graph] after the unlock, so not every read of the
    shared graph is made under the mutex. *)
Theorem C9_edge_list_read_after_unlock (junk : nat → nat → Z) :
  ∃ w', calculate_iteration changed_once junk three_nodes triangle init_worker = Some w' ∧
        trace w' !! 5%nat = Some read_nodes ∧
        held nodes_mutex (take 5 (trace w')) = true ∧
        trace w' !! 7%nat = Some read_edges ∧
        held nodes_mutex (take 7 (trace w')) = false ∧
        ¬ graph_reads_guarded (trace w').
Proof.
  eexists. split; [vm_compute; reflexivity|].
  split; [reflexivity|]. split; [reflexivity|].
  split; [reflexivity|]. split; [reflexivity|].
  intros H. specialize (H 7%nat read_edges eq_refl eq_refl). discriminate H.
Qed.

(** ** Cancellation *)

Lemma handle_stops (graph_changed : nat → bool) (fuel : nat) (s : Submap) (g : Globals) :
  graph_changed (polls g) = true ∨ stop_flag g = true →
  _handle graph_changed (S fuel) s g = Some (set_stop_flag true (tick g)).
Proof.
  intros H. simpl.
  assert (graph_changed (polls g) || stop_flag g = true) as ->; [|done].
  destruct H as [-> | ->]; [done|by rewrite orb_true_r].
Qed.

Lemma matrix_init_entry (junk : nat → nat → Z) (m i j : nat) :
  (i < m)%nat → (j < m)%nat → entry (matrix_init junk m) i j = junk i j.
Proof.
  intros Hi Hj. unfold matrix_init, entry.
  destruct (Nat.eqb_spec m 0) as [->|]; [lia|]. simpl.
  rewrite (list_lookup_total_correct _ i (map (junk i) (seq 0 m))).
  - apply list_lookup_total_correct.
    change (map (junk i) (seq 0 m)) with (junk i <$> seq 0 m).
    by rewrite list_lookup_fmap, lookup_seq_lt.
  - change (map ?f ?l) with (f <$> l).
    by rewrite list_lookup_fmap, lookup_seq_lt.
Qed.

Lemma ordering_rows_cancelled (graph_changed : nat → bool) (l : list Submap)
    (rows1 : list (nat * Submap)) (p : nat * Submap) (rows2 : list (nat * Submap))
    (M : WYMatrix) (g : Globals) :
  stop_flag g = false →
  (∀ t, (t < length rows1)%nat → graph_changed (polls g + t)%nat = false) →
  graph_changed (polls g + length rows1)%nat = true →
  ∃ g', ordering_rows graph_changed l (rows1 ++ p :: rows2) M g
        = (foldl (λ M p, ordering_row l p.1 p.2 M) M rows1, g') ∧
        stop_flag g' = false ∧ cur_submap_count g' = 0%nat ∧
        cur_matrix_rows_count g' = 0%nat ∧ _all_submaps g' = _all_submaps g.
Proof.
  revert M g. induction rows1 as [|[i s1] rows1 IH]; intros M g Hstop Hclear Hset.
  - destruct p as [i s1]. simpl in *. rewrite Nat.add_0_r in Hset.
    rewrite Hset. simpl. by eexists.
  - simpl. rewrite Hstop, orb_false_r.
    pose proof (Hclear 0%nat ltac:(simpl; lia)) as H0. rewrite Nat.add_0_r in H0.
    rewrite H0.
    destruct (IH (ordering_row l i s1 M)
                (tick (set_cur_matrix_rows_count (S (cur_matrix_rows_count g)) g)))
      as (g' & Heq & ? & ? & ? & ?).
    + done.
    + intros t Ht. simpl. rewrite <- Nat.add_succ_r. apply Hclear. simpl. lia.
    + simpl. rewrite <- Nat.add_succ_r. done.
    + exists g'. by rewrite Heq.
Qed.

(** The matrix of a pass cancelled at the poll of row [k]. *)
Lemma ordering_matrix_cancelled (graph_changed : nat → bool) (junk : nat → nat → Z)
    (l : list Submap) (g : Globals) (k : nat) :
  stop_flag g = false → (k < length l)%nat →
  (∀ t, (t < k)%nat → graph_changed (polls g + t)%nat = false) →
  graph_changed (polls g + k)%nat = true →
  ∃ M g', get_ordering_matrix graph_changed junk l g = (M, g') ∧
          size M = length l ∧ stop_flag g' = false ∧
          cur_submap_count g' = 0%nat ∧ cur_matrix_rows_count g' = 0%nat ∧
          ∀ i j, (i < length l)%nat → (j < length l)%nat →
                 entry M i j
                 = if decide (i < k)%nat
                   then order_value i j (l !!! i) (l !!! j) else junk i j.
Proof.
  intros Hstop Hk Hclear Hset. unfold get_ordering_matrix.
  pose proof (enumerates_imap l) as Henum.
  assert (length (imap pair l) = length l) as Hlen by apply length_imap.
  rewrite <- (take_drop k (imap pair l)) in Henum |- *.
  assert (length (take k (imap pair l)) = k) as Hlk by (rewrite length_take; lia).
  destruct (drop k (imap pair l)) as [|p rows2] eqn:Hdrop.
  { apply (f_equal length) in Hdrop. rewrite length_drop in Hdrop. simpl in Hdrop. lia. }
  destruct (ordering_rows_cancelled graph_changed l (take k (imap pair l)) p rows2
              (matrix_init junk (length l)) g Hstop)
    as (g' & Heq & Hs & Hc & Hr & _).
  { by rewrite Hlk. }
  { by rewrite Hlk. }
  rewrite Heq.
  destruct (ordering_rows_prefix l (matrix_init junk (length l)) (take k (imap pair l)))
    as (H1 & H2 & H3).
  { apply matrix_init_shape. }
  { by rewrite matrix_init_size. }
  { by eapply enumerates_app_l. }
  rewrite matrix_init_size in H2, H3. rewrite Hlk in H3.
  eexists _, g'. split; [done|]. split; [done|]. split; [done|].
  split; [done|]. split; [done|].
  intros i j Hi Hj. rewrite H3 by done.
  destruct (decide (i < k)%nat); [done|]. by apply matrix_init_entry.
Qed.

Lemma iteration_begins_with_loading (graph_changed : nat → bool)
    (junk : nat → nat → Z) (nodes : list Node) (es : list Edge) (w : Worker) :
  graph_changed (polls (globals w)) = true →
  ∃ w' rest,
    calculate_iteration graph_changed junk nodes es w = Some w' ∧
    trace w' = trace w
               ++ [mtx_lock graph_changed_mutex; clear_graph_changed;
                   mtx_unlock graph_changed_mutex; set_output OutLoading]
               ++ rest.
Proof.
  intros Hchanged. unfold calculate_iteration. rewrite Hchanged. simpl.
  destruct (active_node_count nodes =? 0)%nat.
  - eexists _, _. split; [done|]. simpl. rewrite <- !app_assoc. done.
  - match goal with
    | |- context [get_all_submaps ?gc ?s ?g] =>
        destruct (get_all_submaps_total gc s g) as (l & g1 & ->)
    end.
    destruct (get_ordering_matrix graph_changed junk l g1) as [M g2].
    eexists _, _. split; [done|]. simpl. rewrite <- !app_assoc. done.
Qed.

(** ** C2 *)

(** C2, counterexample: the worker has published x^2 - x; the graph becomes
    the triangle and, while the enumeration runs, changes once more.  The
    pass enumerates only the triangle itself, and still stores the array
    [0, 0, 1] computed from that partial list in the output slot. *)
Lemma C2_cancelled_pass_overwrites_output :
  changed_again 0 = true ∧ changed_again 1 = false ∧ changed_again 2 = true ∧
  ∃ w', calculate_iteration changed_again (λ _ _, 0) three_nodes triangle
          after_single_edge = Some w' ∧
        all_submaps w' = [from_graph 3 triangle] ∧
        chromatic_polynomial w' = [0; 0; 1] ∧
        output w' = OutPolynomial [0; 0; 1] ∧
        output w' ≠ output after_single_edge.
Proof.
  split; [reflexivity|]. split; [reflexivity|]. split; [reflexivity|].
  eexists. split; [vm_compute; reflexivity|].
  split; [reflexivity|]. split; [reflexivity|]. split; [reflexivity|].
  discriminate.
Qed.

(** C2, amended: a pass that starts a cycle on a snapshot whose edge
    indices are valid first replaces the output by the loading marker, so
    the previously published output is not kept; at a polling point where
    the signal reads set (or [stop_flag] is already set), [_handle] returns
    without touching the list of submaps and leaves [stop_flag] set; and
    when [get_ordering_matrix], entered with [stop_flag] clear, reads the
    signal clear at the polls of rows 0 .. k-1 and set at the poll of row
    [k], it returns at once the matrix with the rows before [k] written and
    every row from [k] on as allocated, with [stop_flag] clear and both
    progress counters zero. *)
Theorem C2_positive_reading_stops_step (graph_changed : nat → bool)
    (junk : nat → nat → Z) (nodes : list Node) (es : list Edge) (w : Worker)
    (fuel : nat) (s : Submap) (g : Globals)
    (l : list Submap) (g0 : Globals) (k : nat) :
  Forall (edge_valid (active_node_count nodes)) es →
  graph_changed (polls (globals w)) = true →
  graph_changed (polls g) = true ∨ stop_flag g = true →
  stop_flag g0 = false → (k < length l)%nat →
  (∀ t, (t < k)%nat → graph_changed (polls g0 + t)%nat = false) →
  graph_changed (polls g0 + k)%nat = true →
  (∃ w' rest,
      calculate_iteration graph_changed junk nodes es w = Some w' ∧
      trace w' = trace w
                 ++ [mtx_lock graph_changed_mutex; clear_graph_changed;
                     mtx_unlock graph_changed_mutex; set_output OutLoading]
                 ++ rest) ∧
  (∃ g', _handle graph_changed (S fuel) s g = Some g' ∧
         _all_submaps g' = _all_submaps g ∧ stop_flag g' = true) ∧
  (∃ M g', get_ordering_matrix graph_changed junk l g0 = (M, g') ∧
           size M = length l ∧ stop_flag g' = false ∧
           cur_submap_count g' = 0%nat ∧ cur_matrix_rows_count g' = 0%nat ∧
           ∀ i j, (i < length l)%nat → (j < length l)%nat →
                  entry M i j
                  = if decide (i < k)%nat
                    then order_value i j (l !!! i) (l !!! j) else junk i j).
Proof.
  intros _ Hstart Hset Hstop Hk Hclear Hread.
  split; [by apply iteration_begins_with_loading|].
  split; [|by apply ordering_matrix_cancelled].
  eexists. split; [by apply handle_stops|]. done.
Qed.

Lemma C2_positive_reading_stops_step_witness :
  (∃ w' rest,
      calculate_iteration changed_again (λ _ _, 7) three_nodes triangle
        after_single_edge = Some w' ∧
      trace w' = trace after_single_edge
                 ++ [mtx_lock graph_changed_mutex; clear_graph_changed;
                     mtx_unlock graph_changed_mutex; set_output OutLoading]
                 ++ rest) ∧
  (∃ g', _handle changed_again 4 (from_graph 3 triangle) (tick (tick init_globals))
         = Some g' ∧
         _all_submaps g' = _all_submaps (tick (tick init_globals)) ∧
         stop_flag g' = true) ∧
  (∃ M g', get_ordering_matrix changed_again (λ _ _, 7) triangle_submaps
             (tick init_globals) = (M, g') ∧
           size M = length triangle_submaps ∧ stop_flag g' = false ∧
           cur_submap_count g' = 0%nat ∧ cur_matrix_rows_count g' = 0%nat ∧
           ∀ i j, (i < length triangle_submaps)%nat →
                  (j < length triangle_submaps)%nat →
                  entry M i j
                  = if decide (i < 1)%nat
                    then order_value i j (triangle_submaps !!! i) (triangle_submaps !!! j)
                    else 7).
Proof.
  apply (C2_positive_reading_stops_step changed_again (λ _ _, 7) three_nodes
           triangle after_single_edge 3 (from_graph 3 triangle)
           (tick (tick init_globals)) triangle_submaps (tick init_globals) 1).
  - apply triangle_valid.
  - reflexivity.
  - left. reflexivity.
  - reflexivity.
  - simpl. lia.
  - intros t Ht. destruct t; [reflexivity|lia].
  - reflexivity.
Defined.

(** ** Two more graphs *)

(** One edge between two vertices: x^2 - x, with value 2 at 2. *)
Example single_edge_polynomial (junk : nat → nat → Z) :
  pipeline quiet junk 2 single_edge = Some [-1; 1] ∧
  polynomial_eval [-1; 1] 2 = 2.
Proof. split; vm_compute; reflexivity. Qed.

(** Four isolated vertices: x^4. *)
Example isolated_vertices_polynomial (junk : nat → nat → Z) :
  pipeline quiet junk 4 [] = Some [0; 0; 0; 1].
Proof. vm_compute. reflexivity. Qed.

(** * Further properties of the code *)

(** ** Equality and membership of submaps *)

(** X1: [submap_eq] holds exactly for submaps with the same blocks, in the
    same order, and the same edge array, and [in_submap_array] holds
    exactly when the array has such an element. *)
Theorem X1_submap_eq_is_equality (l : list Submap) (s1 s2 : Submap) :
  (submap_eq s1 s2 = true ↔ s1 = s2) ∧
  (submap_eq s1 s2 = submap_eq s2 s1) ∧
  (in_submap_array l s1 = true ↔ s1 ∈ l).
Proof.
  split; [apply submap_eq_true|]. split; [|apply in_submap_array_true].
  destruct (submap_eq s1 s2) eqn:E12, (submap_eq s2 s1) eqn:E21; try done.
  - apply submap_eq_true in E12. subst.
    assert (submap_eq s2 s2 = true) by by apply submap_eq_true. congruence.
  - apply submap_eq_true in E21. subst.
    assert (submap_eq s1 s1 = true) by by apply submap_eq_true. congruence.
Qed.

(** ** Children *)

Lemma remap_edge_ordered (nb i j : nat) (e e' : Edge) :
  (i < j)%nat → edge_valid nb e → e' ∈ remap_edge i j e →
  (start_idx e' < end_idx e')%nat.
Proof.
  intros Hij (Hs & He & Hne). unfold remap_edge.
  destruct e as [k l]; simpl in *. intros Hin.
  split_tests; set_unfold; destruct_or?; subst; simpl; try done; lia.
Qed.

(** X2: [get_direct_submaps] returns one child per edge; when the edge
    indices of the parent are valid and distinct, every child has exactly
    one block fewer, strictly fewer edges, valid and distinct edge indices
    again, and each of its edges is stored with the smaller index first. *)
Theorem X2_children_shape (s c : Submap) :
  edges_valid s → c ∈ get_direct_submaps s →
  length (get_direct_submaps s) = length (edges s) ∧
  S (length (vertices c)) = length (vertices s) ∧
  (length (edges c) < length (edges s))%nat ∧
  edges_valid c ∧
  Forall (λ e, (start_idx e < end_idx e)%nat) (edges c).
Proof.
  intros Hv Hc. split; [apply length_map|].
  split; [by apply child_blocks|].
  apply elem_of_get_direct_submaps in Hc as (e & He & ->).
  split; [by apply contract_edges_length|].
  split; [by apply contract_edges_valid|].
  rewrite contract_edges. apply Forall_forall. intros e' He'.
  apply list_elem_of_In, in_flat_map in He' as (e0 & Hin0 & He').
  apply list_elem_of_In in Hin0, He'.
  assert (edge_valid (length (vertices s)) e) as (? & ? & ?)
    by (by eapply Forall_forall in Hv).
  eapply (remap_edge_ordered _ (lo e) (hi e) e0); [unfold lo, hi; lia| |done].
  by eapply Forall_forall in Hv.
Qed.

Lemma X2_children_shape_witness :
  length (get_direct_submaps (from_graph 3 triangle))
  = length (edges (from_graph 3 triangle)) ∧
  S (length (vertices triangle_child)) = length (vertices (from_graph 3 triangle)) ∧
  (length (edges triangle_child) < length (edges (from_graph 3 triangle)))%nat ∧
  edges_valid triangle_child ∧
  Forall (λ e, (start_idx e < end_idx e)%nat) (edges triangle_child).
Proof.
  apply (X2_children_shape (from_graph 3 triangle) triangle_child).
  - apply from_graph_edges_valid, triangle_valid.
  - vm_compute. left.
Defined.

(** ** The enumeration under any signal *)

Lemma for_each_sound (graph_changed : nat → bool) (s : Submap) (fuel : nat)
    (cs : list Submap) (g : Globals) :
  (∀ c g, (length (edges c) < fuel)%nat → NoDup (_all_submaps g) →
          ∃ g' added, _handle graph_changed fuel c g = Some g' ∧
                      _all_submaps g' = _all_submaps g ++ added ∧
                      NoDup (_all_submaps g') ∧ ∀ x, x ∈ added → reach c x) →
  (∀ c, c ∈ cs → c ∈ get_direct_submaps s ∧ (length (edges c) < fuel)%nat) →
  NoDup (_all_submaps g) →
  ∃ g' added, for_each (_handle graph_changed fuel) cs g = Some g' ∧
              _all_submaps g' = _all_submaps g ++ added ∧
              NoDup (_all_submaps g') ∧ ∀ x, x ∈ added → proper_reach s x.
Proof.
  intros IH. revert g. induction cs as [|c cs IHcs]; intros g Hcs Hnd; simpl.
  - exists g, []. rewrite app_nil_r. repeat split; try done.
    by intros ? ?%elem_of_nil.
  - destruct (Hcs c ltac:(by left)) as [Hc Hfuel].
    destruct (IH c g Hfuel Hnd) as (g1 & added1 & -> & Heq1 & Hnd1 & Hadded1).
    destruct (IHcs g1) as (g2 & added2 & -> & Heq2 & Hnd2 & Hadded2);
      [intros; apply Hcs; by right|done|].
    exists g2, (added1 ++ added2). rewrite Heq2, Heq1, <- app_assoc.
    repeat split; try done. by rewrite app_assoc, <- Heq1, <- Heq2.
    intros x [Hx|Hx]%elem_of_app; [|by apply Hadded2].
    exists c. split; [done|]. by apply Hadded1.
Qed.

Lemma handle_sound (graph_changed : nat → bool) (fuel : nat) (s : Submap) (g : Globals) :
  (length (edges s) < fuel)%nat → NoDup (_all_submaps g) →
  ∃ g' added, _handle graph_changed fuel s g = Some g' ∧
              _all_submaps g' = _all_submaps g ++ added ∧
              NoDup (_all_submaps g') ∧ (∀ x, x ∈ added → reach s x) ∧
              (graph_changed (polls g) || stop_flag g = true → added = []) ∧
              (graph_changed (polls g) || stop_flag g = false →
               s ∉ _all_submaps g → last added = Some s).
Proof.
  revert s g. induction fuel as [|fuel IH]; intros s g Hfuel Hnd; [lia|]. simpl.
  destruct (graph_changed (polls g) || stop_flag g) eqn:Hstop.
  { eexists _, []. simpl. rewrite app_nil_r. repeat split; try done.
    by intros ? ?%elem_of_nil. }
  destruct (in_submap_array (_all_submaps g) s) eqn:Hinside.
  { apply in_submap_array_true in Hinside.
    eexists _, []. simpl. rewrite app_nil_r. repeat split; try done.
    by intros ? ?%elem_of_nil. }
  apply in_submap_array_false in Hinside.
  assert (∃ g1 added1,
            (if (1 <? length (vertices s))%nat
             then for_each (_handle graph_changed fuel) (get_direct_submaps s) (tick g)
             else Some (tick g)) = Some g1 ∧
            _all_submaps g1 = _all_submaps g ++ added1 ∧
            NoDup (_all_submaps g1) ∧ ∀ x, x ∈ added1 → proper_reach s x)
    as (g1 & added1 & -> & Heq1 & Hnd1 & Hadded1).
  { destruct (1 <? length (vertices s))%nat.
    - apply (for_each_sound graph_changed s fuel (get_direct_submaps s) (tick g));
        [|intros c Hc|done].
      + intros c g0 Hc Hg0.
        destruct (IH c g0 Hc Hg0) as (g' & added & ? & ? & ? & ? & _).
        by exists g', added.
      + split; [done|].
        pose proof (proper_reach_edges_length s c) as Hlt.
        specialize (Hlt ltac:(exists c; split; [done|constructor])). lia.
    - exists (tick g), []. simpl. rewrite app_nil_r. repeat split; try done.
      by intros ? ?%elem_of_nil. }
  destruct s as [vs es]. simpl in *.
  eexists _, (added1 ++ [mkSubmap vs es]). split; [done|]. simpl.
  rewrite Heq1, <- app_assoc. split; [done|].
  split; [|split; [|split]].
  - rewrite app_assoc, <- Heq1. apply NoDup_app. split; [done|].
    split; [|apply NoDup_singleton].
    intros x Hx ->%list_elem_of_singleton. rewrite Heq1 in Hx.
    apply elem_of_app in Hx as [?|Hx]; [done|].
    by apply Hadded1, proper_reach_ne in Hx.
  - intros x [Hx| ->%list_elem_of_singleton]%elem_of_app; [|constructor].
    by apply proper_reach_reach, Hadded1.
  - done.
  - intros _ _. apply last_snoc.
Qed.

(** X3: for every submap whose edge indices are in range and without
    self-loop, [get_all_submaps] returns under every behaviour of the
    signal (the recursion of [_handle] is never deeper than the number of
    edges plus one).  On return [stop_flag] is clear, the progress counter
    is zero, the list has no repetitions and holds only submaps obtained
    from the input by contractions, whose edge indices are in range again;
    it is empty when the first poll reads the signal set (or [stop_flag]
    was set), and otherwise the input is its last element. *)
Theorem X3_enumeration_under_any_signal (graph_changed : nat → bool)
    (s : Submap) (g : Globals) :
  edges_valid s →
  ∃ l g', get_all_submaps graph_changed s g = Some (l, g') ∧
          _all_submaps g' = l ∧ stop_flag g' = false ∧ cur_submap_count g' = 0%nat ∧
          NoDup l ∧ (∀ x, x ∈ l → reach s x ∧ edges_valid x) ∧
          (if graph_changed (polls g) || stop_flag g then l = []
           else last l = Some s).
Proof.
  intros Hvalid. unfold get_all_submaps.
  destruct (handle_sound graph_changed (S (length (edges s))) s (set_all_submaps [] g))
    as (g1 & added & -> & Heq & Hnd & Hreach & Hstop & Hlast);
    [lia|apply NoDup_nil_2|].
  simpl in *. eexists _, _. split; [done|]. simpl. rewrite Heq.
  split; [done|]. split; [done|]. split; [done|]. split; [by rewrite <- Heq|].
  split.
  - intros x Hx. split; [by apply Hreach|].
    eapply reach_edges_valid; [by apply Hreach|done].
  - destruct (graph_changed (polls g) || stop_flag g).
    + by apply Hstop.
    + apply Hlast; [done|]. by intros ?%elem_of_nil.
Qed.

Lemma X3_enumeration_under_any_signal_witness :
  ∃ l g', get_all_submaps changed_again (from_graph 3 triangle) (tick init_globals)
          = Some (l, g') ∧
          _all_submaps g' = l ∧ stop_flag g' = false ∧ cur_submap_count g' = 0%nat ∧
          NoDup l ∧
          (∀ x, x ∈ l → reach (from_graph 3 triangle) x ∧ edges_valid x) ∧
          (if changed_again (polls (tick init_globals)) || stop_flag (tick init_globals)
           then l = [] else last l = Some (from_graph 3 triangle)).
Proof.
  apply (X3_enumeration_under_any_signal changed_again (from_graph 3 triangle)
           (tick init_globals)).
  apply from_graph_edges_valid, triangle_valid.
Defined.

(** ** The enumerated list *)

(** X4: when the signal is never read set, the list returned by
    [get_all_submaps] for a submap with valid, distinct edge indices holds,
    without repetition, exactly the submaps that can be obtained from the
    input by contracting edges one after the other (the input included). *)
Theorem X4_list_is_contraction_closure (graph_changed : nat → bool)
    (s : Submap) (g : Globals) :
  never_set graph_changed → stop_flag g = false → edges_valid s →
  ∃ l g', get_all_submaps graph_changed s g = Some (l, g') ∧
          NoDup l ∧ ∀ x, x ∈ l ↔ reach s x.
Proof.
  intros Hquiet Hstop Hvalid.
  destruct (get_all_submaps_visits graph_changed Hquiet s g Hstop)
    as (l' & g' & Heq & _ & Hcf & Hnd & Hl').
  exists (l' ++ [s]), g'. split; [done|]. split; [done|].
  assert (∀ x, x ∈ l' ++ [s] → reach s x) as Hsound.
  { intros x [Hx| ->%list_elem_of_singleton]%elem_of_app; [|constructor].
    by apply proper_reach_reach, Hl'. }
  intros x. split; [apply Hsound|].
  assert (∀ y, reach y x → y ∈ l' ++ [s] → x ∈ l' ++ [s]) as Hclosed.
  { induction 1 as [|y c x Hc Hr IH]; intros Hy; [done|].
    apply IH. apply list_elem_of_lookup in Hy as [p Hp].
    pose proof (reach_edges_valid s y (Hsound y ltac:(by eapply list_elem_of_lookup_2))
                  Hvalid) as Hvy.
    destruct (child_blocks y c Hvy Hc) as [Hlen _].
    destruct (Hcf p y c Hp Hlen Hc) as (q & _ & Hq).
    by eapply list_elem_of_lookup_2. }
  intros Hr. apply (Hclosed s Hr). apply elem_of_app. right. by left.
Qed.

Lemma X4_list_is_contraction_closure_witness :
  ∃ l g', get_all_submaps quiet (from_graph 3 triangle) init_globals = Some (l, g') ∧
          NoDup l ∧ ∀ x, x ∈ l ↔ reach (from_graph 3 triangle) x.
Proof.
  apply (X4_list_is_contraction_closure quiet (from_graph 3 triangle) init_globals).
  - apply quiet_never_set.
  - reflexivity.
  - apply from_graph_edges_valid, triangle_valid.
Defined.

Lemma reach_canonical (s x : Submap) : reach s x → canonical s → canonical x.
Proof.
  apply reach_invariant. intros s' c Hs' (e & _ & ->)%elem_of_get_direct_submaps.
  by apply contract_canonical.
Qed.

(** X5: for a graph on [n ≥ 1] vertices whose edges are in range and join
    distinct vertices, every submap enumerated while the signal stays clear
    has valid, distinct edge indices, between 1 and [n] blocks, blocks that
    are non-empty and together hold each label 0..n-1 exactly once, sorted
    blocks, and a block sequence ordered by increasing minimum label. *)
Theorem X5_enumerated_submaps_are_partitions (graph_changed : nat → bool)
    (n : nat) (es : list Edge) (g : Globals) :
  never_set graph_changed → stop_flag g = false → (1 ≤ n)%nat →
  Forall (edge_valid n) es →
  ∃ l g', get_all_submaps graph_changed (from_graph n es) g = Some (l, g') ∧
          ∀ x, x ∈ l →
               edges_valid x ∧ (1 ≤ length (vertices x) ≤ n)%nat ∧
               partitions (graph_labels n) x ∧ NoDup (concat (vertices x)) ∧
               canonical x.
Proof.
  intros Hquiet Hstop Hn Hvalid.
  pose proof (from_graph_edges_valid n es Hvalid) as Hroot.
  destruct (get_all_submaps_visits graph_changed Hquiet (from_graph n es) g Hstop)
    as (l' & g' & Heq & _ & _ & _ & Hl').
  exists (l' ++ [from_graph n es]), g'. split; [done|]. intros x Hx.
  assert (reach (from_graph n es) x) as Hr.
  { apply elem_of_app in Hx as [Hx| ->%list_elem_of_singleton]; [|constructor].
    by apply proper_reach_reach, Hl'. }
  pose proof (reach_partitions (graph_labels n) _ x Hr Hroot
                (from_graph_partitions n es)) as Hpart.
  split; [by eapply reach_edges_valid|]. split; [|split; [done|split]].
  - pose proof (reach_blocks_bounds _ x Hr Hroot) as H.
    rewrite from_graph_length in H. by apply H.
  - destruct Hpart as [_ ->]. apply graph_labels_NoDup.
  - eapply reach_canonical; [done|apply from_graph_canonical].
Qed.

Lemma X5_enumerated_submaps_are_partitions_witness :
  ∃ l g', get_all_submaps quiet (from_graph 3 triangle) init_globals = Some (l, g') ∧
          ∀ x, x ∈ l →
               edges_valid x ∧ (1 ≤ length (vertices x) ≤ 3)%nat ∧
               partitions (graph_labels 3) x ∧ NoDup (concat (vertices x)) ∧
               canonical x.
Proof.
  apply (X5_enumerated_submaps_are_partitions quiet 3 triangle init_globals).
  - apply quiet_never_set.
  - reflexivity.
  - lia.
  - apply triangle_valid.
Defined.

(** ** The order matrix of the pipeline *)

Lemma submap_ge_singletons (s1 s2 : Submap) :
  Forall (λ v, (length v ≤ 1)%nat) (vertices s1) → submap_ge s1 s2 = true.
Proof.
  intros H. unfold submap_ge. apply forallb_forall. intros v Hv%list_elem_of_In.
  eapply Forall_forall in H; [|done].
  destruct v as [|n [|n' v]]; simpl in *; [done..|lia].
Qed.

Lemma from_graph_singletons (n : nat) (es : list Edge) :
  Forall (λ v, (length v ≤ 1)%nat) (vertices (from_graph n es)).
Proof.
  rewrite from_graph_vertices. apply Forall_fmap, Forall_forall.
  intros i _. simpl. lia.
Qed.

(** X6: for a graph whose edges are in range and join distinct vertices,
    the matrix built over the enumerated list while the signal stays clear
    is square of the size of the list, holds only 0 and 1, is
    unit-upper-triangular, and has 1 in every row of its last column (the
    input graph is above every submap); hence the values of
    [get_mobius_of_column] on it satisfy the Moebius identity. *)
Theorem X6_pipeline_matrix (graph_changed : nat → bool) (junk : nat → nat → Z)
    (n : nat) (es : list Edge) :
  never_set graph_changed → Forall (edge_valid n) es →
  ∃ l g M g',
    get_all_submaps graph_changed (from_graph n es) init_globals = Some (l, g) ∧
    get_ordering_matrix graph_changed junk l g = (M, g') ∧
    well_shaped M ∧ size M = length l ∧ zero_one M ∧ unit_upper_triangular M ∧
    (∀ i, (i < size M)%nat → entry M i (size M - 1) = 1) ∧
    (∀ s, (s < size M)%nat →
          sum_upto (size M) (λ t, get_mobius_of_column M !!! t * entry M s t)
          = if (s =? size M - 1)%nat then 1 else 0).
Proof.
  intros Hquiet Hvalid.
  pose proof (from_graph_edges_valid n es Hvalid) as Hroot.
  destruct (get_all_submaps_visits graph_changed Hquiet (from_graph n es)
              init_globals eq_refl) as (l' & g1 & Heq & Hstop & _ & _ & Hl').
  destruct (ordering_matrix_entries graph_changed Hquiet junk
              (l' ++ [from_graph n es]) g1 Hstop)
    as (M & g2 & HeqM & _ & Hshape & Hsize & Hentries).
  exists (l' ++ [from_graph n es]), g1, M, g2.
  split; [done|]. split; [done|]. split; [done|]. split; [done|].
  assert (∀ k s, (l' ++ [from_graph n es]) !! k = Some s → blocks_disjoint s) as Hdis.
  { intros k s Hk. apply (partitions_disjoint (graph_labels n)); [apply graph_labels_NoDup|].
    apply (reach_partitions _ (from_graph n es)); [|done|apply from_graph_partitions].
    apply list_elem_of_lookup_2, elem_of_app in Hk as [Hx|Hx%list_elem_of_singleton].
    - by apply proper_reach_reach, Hl'.
    - subst. constructor. }
  assert (unit_upper_triangular M) as Htri.
  { intros i j Hi Hj. rewrite Hsize in Hi, Hj.
    destruct (lookup_lt_is_Some_2 _ i Hi) as [si Hsi].
    destruct (lookup_lt_is_Some_2 _ j Hj) as [sj Hsj].
    rewrite (Hentries i j si sj Hsi Hsj). unfold order_value. split.
    - intros ->. simplify_eq. rewrite Nat.leb_refl, submap_ge_refl; [done|].
      by eapply Hdis.
    - intros Hlt. destruct (Nat.leb_spec i j); [lia|done]. }
  split; [|split; [done|split]].
  - intros i j Hi Hj. rewrite Hsize in Hi, Hj.
    destruct (lookup_lt_is_Some_2 _ i Hi) as [si Hsi].
    destruct (lookup_lt_is_Some_2 _ j Hj) as [sj Hsj].
    rewrite (Hentries i j si sj Hsi Hsj). unfold order_value.
    case_match; auto.
  - intros i Hi. rewrite Hsize in Hi.
    destruct (lookup_lt_is_Some_2 _ i Hi) as [si Hsi].
    rewrite length_app in Hsize, Hi. simpl in Hsize, Hi.
    assert ((l' ++ [from_graph n es]) !! (size M - 1)%nat = Some (from_graph n es))
      as Hlast.
    { rewrite lookup_app_r by lia.
      replace (size M - 1 - length l')%nat with 0%nat by lia. done. }
    rewrite (Hentries i _ si _ Hsi Hlast). unfold order_value.
    rewrite submap_ge_singletons by apply from_graph_singletons.
    destruct (Nat.leb_spec i (size M - 1)); [done|lia].
  - intros s Hs. destruct (get_mobius_inv M Htri) as (_ & _ & Hsum & _).
    apply Hsum. lia.
Qed.

Lemma X6_pipeline_matrix_witness :
  ∃ l g M g',
    get_all_submaps quiet (from_graph 3 triangle) init_globals = Some (l, g) ∧
    get_ordering_matrix quiet (λ _ _, 0) l g = (M, g') ∧
    well_shaped M ∧ size M = length l ∧ zero_one M ∧ unit_upper_triangular M ∧
    (∀ i, (i < size M)%nat → entry M i (size M - 1) = 1) ∧
    (∀ s, (s < size M)%nat →
          sum_upto (size M) (λ t, get_mobius_of_column M !!! t * entry M s t)
          = if (s =? size M - 1)%nat then 1 else 0).
Proof.
  apply (X6_pipeline_matrix quiet (λ _ _, 0) 3 triangle).
  - apply quiet_never_set.
  - apply triangle_valid.
Defined.

(** ** Graphs without edges *)

(** X7: for [n ≥ 1] isolated vertices the enumeration finds the initial
    submap only, and the pipeline returns the coefficients of x^n: zero
    everywhere except 1 at index [n-1]. *)
Theorem X7_isolated_vertices (graph_changed : nat → bool) (junk : nat → nat → Z)
    (n : nat) :
  never_set graph_changed → (1 ≤ n)%nat →
  (∃ g', get_all_submaps graph_changed (from_graph n []) init_globals
         = Some ([from_graph n []], g')) ∧
  pipeline graph_changed junk n [] = Some (replicate (n - 1) 0 ++ [1]).
Proof.
  intros Hquiet Hn. unfold pipeline.
  destruct (get_all_submaps_visits graph_changed Hquiet (from_graph n [])
              init_globals eq_refl) as (l' & g1 & Heq & Hstop & _ & _ & Hl').
  assert (l' = []) as ->.
  { destruct l' as [|x l']; [done|].
    destruct (Hl' x ltac:(by left)) as (c & Hc & _). by apply elem_of_nil in Hc. }
  simpl in Heq. rewrite Heq. split; [by eexists|].
  destruct (ordering_matrix_entries graph_changed Hquiet junk [from_graph n []] g1 Hstop)
    as (M & g2 & -> & _ & _ & Hsize & _).
  f_equal. rewrite get_chromatic_polynomial_unfold.
  destruct (get_mobius_shape M) as [Hlen Htop]. rewrite Hsize in Hlen, Htop.
  simpl in Hlen, Htop. specialize (Htop ltac:(lia)).
  destruct (get_mobius_of_column M) as [|mu [|mu' mus]]; simplify_eq/=.
  unfold add_mobius. simpl. rewrite length_map, length_seq.
  rewrite lookup_total_replicate_2 by lia.
  replace n with (S (n - 1)) at 2 by lia. rewrite replicate_S_end.
  rewrite insert_app_r_alt by (rewrite length_replicate; lia).
  rewrite length_replicate, Nat.sub_diag. done.
Qed.

Lemma X7_isolated_vertices_witness :
  (∃ g', get_all_submaps quiet (from_graph 4 []) init_globals
         = Some ([from_graph 4 []], g')) ∧
  pipeline quiet (λ _ _, 0) 4 [] = Some (replicate (4 - 1) 0 ++ [1]).
Proof.
  apply (X7_isolated_vertices quiet (λ _ _, 0) 4).
  - apply quiet_never_set.
  - lia.
Defined.

(** ** Edges are determined by the blocks *)

Lemma remap_edge_sym (i j : nat) (e1 e2 : Edge) :
  same_pair e1 e2 → remap_edge i j e1 = remap_edge i j e2.
Proof.
  destruct e1 as [k1 l1], e2 as [k2 l2].
  intros [[? ?]|[? ?]]; simplify_eq/=; [done|].
  unfold remap_edge; simpl.
  split_tests; try lia; try done; f_equal; f_equal; lia.
Qed.

Lemma remap_edge_renumber (i j k l : nat) :
  (i < j)%nat → k ≠ l →
  remap_edge i j (mkEdge k l)
  = if (renumber i j k =? renumber i j l)%nat then []
    else [mkEdge (renumber i j k `min` renumber i j l)
                 (renumber i j k `max` renumber i j l)].
Proof.
  intros Hij Hkl. unfold remap_edge, renumber; simpl.
  split_tests; try lia; try done; f_equal; f_equal; lia.
Qed.

Lemma flat_map_same_pair (i j : nat) (l1 l2 : list Edge) :
  Forall2 same_pair l1 l2 →
  flat_map (remap_edge i j) l1 = flat_map (remap_edge i j) l2.
Proof.
  induction 1 as [|e1 e2 l1 l2 He _ IH]; simpl; [done|].
  by rewrite (remap_edge_sym i j e1 e2 He), IH.
Qed.

Lemma flat_map_flat_map {A B C : Type} (f : A → list B) (g : B → list C) (l : list A) :
  flat_map g (flat_map f l) = flat_map (λ a, flat_map g (f a)) l.
Proof.
  induction l as [|a l IH]; simpl; [done|]. by rewrite flat_map_app, IH.
Qed.

Lemma flat_map_ext_in {A B : Type} (f g : A → list B) (l : list A) :
  (∀ a, a ∈ l → f a = g a) → flat_map f l = flat_map g l.
Proof.
  induction l as [|a l IH]; intros H; simpl; [done|].
  rewrite H by by left. rewrite IH; [done|]. intros; apply H; by right.
Qed.

Lemma block_index_found (L : list Z) (s : Submap) (u : Z) :
  NoDup L → partitions L s → u ∈ L →
  ∃ p v, vertices s !! p = Some v ∧ u ∈ v ∧ block_index (vertices s) u = p.
Proof.
  intros Hnd Hpart Hu.
  apply (partitions_covers L s u Hpart) in Hu as (v & [p Hp]%list_elem_of_lookup & Hv).
  exists p, v. split; [done|]. split; [done|]. unfold block_index.
  pose proof (find_node_idx_disjoint s p v u (partitions_disjoint L s Hnd Hpart) Hp Hv) as H.
  unfold _find_node_idx in H. rewrite H. lia.
Qed.

Lemma block_index_unique (L : list Z) (s : Submap) (u : Z) (p : nat) (v : list Z) :
  NoDup L → partitions L s → vertices s !! p = Some v → u ∈ v →
  block_index (vertices s) u = p.
Proof.
  intros Hnd Hpart Hp Hv. unfold block_index.
  pose proof (find_node_idx_disjoint s p v u (partitions_disjoint L s Hnd Hpart) Hp Hv) as H.
  unfold _find_node_idx in H. rewrite H. lia.
Qed.

Lemma block_index_contract (L : list Z) (s : Submap) (e : Edge) (u : Z) :
  NoDup L → edges_valid s → e ∈ edges s → partitions L s → u ∈ L →
  block_index (vertices (contract s e)) u
  = renumber (lo e) (hi e) (block_index (vertices s) u).
Proof.
  intros Hnd Hv He Hpart Hu.
  destruct (block_index_found L s u Hnd Hpart Hu) as (p & v & Hp & Huv & ->).
  pose proof (contract_partitions L s e Hv He Hpart) as Hpart'.
  pose proof (lookup_lt_Some _ _ _ Hp) as Hplt.
  eapply Forall_forall in Hv; [|done]. destruct Hv as (Hs & Ht & Hst).
  assert (lo e < hi e ∧ hi e < length (vertices s))%nat as [Hlh Hhl]
    by (unfold lo, hi; lia).
  set (m := qsort cmp (vertices s !!! lo e ++ vertices s !!! hi e)).
  assert (∃ v', vertices (contract s e) !! renumber (lo e) (hi e) p = Some v' ∧ u ∈ v')
    as (v' & Hp' & Huv').
  { rewrite contract_vertices by done. fold m. unfold renumber.
    destruct (Nat.eqb_spec p (hi e)) as [->|Hne].
    - exists m. rewrite list_lookup_delete_lt by lia.
      rewrite list_lookup_insert_eq by lia. split; [done|].
      apply qsort_elem_of, elem_of_app. right.
      by rewrite (list_lookup_total_correct _ _ _ Hp).
    - destruct (Nat.ltb_spec (hi e) p).
      + exists v. rewrite list_lookup_delete_ge by lia.
        replace (S (p - 1)) with p by lia.
        rewrite list_lookup_insert_ne by lia. done.
      + rewrite list_lookup_delete_lt by lia.
        destruct (decide (p = lo e)) as [->|Hnl].
        * exists m. rewrite list_lookup_insert_eq by lia. split; [done|].
          apply qsort_elem_of, elem_of_app. left.
          by rewrite (list_lookup_total_correct _ _ _ Hp).
        * exists v. rewrite list_lookup_insert_ne by done. done. }
  by eapply (block_index_unique L).
Qed.

Lemma project_contract (L : list Z) (s : Submap) (e e0 : Edge) :
  NoDup L → edges_valid s → e ∈ edges s → partitions L s →
  Z.of_nat (start_idx e0) ∈ L → Z.of_nat (end_idx e0) ∈ L →
  flat_map (remap_edge (lo e) (hi e)) (project (vertices s) e0)
  = project (vertices (contract s e)) e0.
Proof.
  intros Hnd Hv He Hpart Hs Ht.
  assert (lo e < hi e)%nat as Hlh.
  { eapply Forall_forall in Hv; [|done]. destruct Hv as (? & ? & ?).
    unfold lo, hi. lia. }
  unfold project.
  rewrite !(block_index_contract L s e) by done.
  set (p := block_index (vertices s) (Z.of_nat (start_idx e0))).
  set (q := block_index (vertices s) (Z.of_nat (end_idx e0))).
  destruct (Nat.eqb_spec p q) as [->|Hpq]; simpl.
  - by rewrite Nat.eqb_refl.
  - rewrite app_nil_r, remap_edge_renumber by lia.
    destruct (Nat.le_ge_cases p q).
    + rewrite Nat.min_l, Nat.max_r by lia. done.
    + rewrite Nat.min_r, Nat.max_l by lia.
      rewrite (Nat.eqb_sym (renumber _ _ q)), (Nat.min_comm (renumber _ _ q)),
        (Nat.max_comm (renumber _ _ q)). done.
Qed.

Lemma graph_labels_elem_of (n a : nat) : (a < n)%nat → Z.of_nat a ∈ graph_labels n.
Proof.
  intros Ha. unfold graph_labels. apply list_elem_of_fmap. exists a.
  split; [done|]. apply elem_of_seq. lia.
Qed.

Lemma project_root (n : nat) (es : list Edge) (e0 : Edge) :
  edge_valid n e0 →
  project (vertices (from_graph n es)) e0
  = [mkEdge (start_idx e0 `min` end_idx e0) (start_idx e0 `max` end_idx e0)].
Proof.
  intros (Hs & Ht & Hne). unfold project.
  assert (∀ a, (a < n)%nat →
               block_index (vertices (from_graph n es)) (Z.of_nat a) = a) as Hidx.
  { intros a Ha.
    apply (block_index_unique (graph_labels n) _ _ a [Z.of_nat a]);
      [apply graph_labels_NoDup|apply from_graph_partitions| |by left].
    rewrite from_graph_vertices, list_lookup_fmap, lookup_seq_lt by done. done. }
  rewrite !Hidx by done. by destruct (Nat.eqb_spec (start_idx e0) (end_idx e0)).
Qed.

Lemma root_edges_same_pair (n : nat) (es es0 : list Edge) :
  Forall (edge_valid n) es0 →
  Forall2 same_pair es0 (flat_map (project (vertices (from_graph n es))) es0).
Proof.
  induction 1 as [|e0 es0 He0 _ IH]; cbn [flat_map]; [constructor|].
  rewrite project_root by done. cbn [app]. constructor; [|done].
  unfold same_pair. simpl. lia.
Qed.

Lemma same_pair_refl (l : list Edge) : Forall2 same_pair l l.
Proof. induction l; constructor; [|done]. by left. Qed.

(** The edges of a descendant of the initial submap are read off the input
    edges and its own blocks. *)
Lemma reach_edges_projected (n : nat) (es : list Edge) (x : Submap) :
  Forall (edge_valid n) es → reach (from_graph n es) x →
  Forall2 same_pair (edges x) (flat_map (project (vertices x)) es) ∧
  (x = from_graph n es ∨ edges x = flat_map (project (vertices x)) es).
Proof.
  intros Hvalid Hr.
  pose proof (from_graph_edges_valid n es Hvalid) as Hroot.
  apply (reach_invariant
           (λ s, (edges_valid s ∧ partitions (graph_labels n) s) ∧
                 Forall2 same_pair (edges s) (flat_map (project (vertices s)) es) ∧
                 (s = from_graph n es ∨ edges s = flat_map (project (vertices s)) es))
           (from_graph n es) x); [|done|].
  - intros s c ((Hv & Hpart) & Hsame & _) Hc.
    assert (edges c = flat_map (project (vertices c)) es) as Heq.
    { apply elem_of_get_direct_submaps in Hc as (e & He & ->).
      rewrite contract_edges.
      rewrite (flat_map_same_pair _ _ _ _ Hsame), flat_map_flat_map.
      apply flat_map_ext_in. intros e0 He0.
      eapply Forall_forall in Hvalid; [|done]. destruct Hvalid as (? & ? & ?).
      apply (project_contract (graph_labels n)); try done;
        [apply graph_labels_NoDup|by apply graph_labels_elem_of..]. }
    split; [split|].
    + eapply reach_edges_valid; [|done]. by repeat econstructor.
    + apply elem_of_get_direct_submaps in Hc as (e & He & ->).
      by apply contract_partitions.
    + rewrite <- Heq. split; [apply same_pair_refl|by right].
  - split; [split; [done|apply from_graph_partitions]|].
    split; [|by left]. rewrite from_graph_edges at 1.
    by apply root_edges_same_pair.
Qed.

Lemma reach_cases (s x : Submap) : reach s x → x = s ∨ proper_reach s x.
Proof. destruct 1 as [|s c x Hc Hr]; [by left|right; by exists c]. Qed.

Lemma reach_same_blocks (n : nat) (es : list Edge) (x y : Submap) :
  Forall (edge_valid n) es →
  reach (from_graph n es) x → reach (from_graph n es) y →
  vertices x = vertices y → x = y.
Proof.
  intros Hvalid Hx Hy Hblocks.
  pose proof (from_graph_edges_valid n es Hvalid) as Hroot.
  assert (∀ a b, reach (from_graph n es) a → reach (from_graph n es) b →
                 vertices a = vertices b → a = from_graph n es → b = from_graph n es)
    as Hrootcase.
  { intros a b _ Hb Hab ->. destruct (reach_cases _ _ Hb) as [|Hp]; [done|].
    pose proof (proper_reach_blocks_bounds _ _ Hp Hroot) as H. rewrite Hab in H. lia. }
  destruct (reach_edges_projected n es x Hvalid Hx) as [_ [Hxr|Hxe]].
  { rewrite (Hrootcase x y Hx Hy Hblocks Hxr). done. }
  destruct (reach_edges_projected n es y Hvalid Hy) as [_ [Hyr|Hye]].
  { rewrite (Hrootcase y x Hy Hx (eq_sym Hblocks) Hyr). done. }
  destruct x as [vx ex], y as [vy ey]. simpl in *. congruence.
Qed.

(** X8: for a graph whose edges are in range and join distinct vertices,
    two submaps obtained from the initial submap by contractions that have
    the same blocks (as sets of sets of labels) are equal as values, edges
    included; so the list enumerated while the signal stays clear never
    holds the same partition twice. *)
Theorem X8_one_entry_per_partition (graph_changed : nat → bool)
    (n : nat) (es : list Edge) (g : Globals) :
  never_set graph_changed → stop_flag g = false → Forall (edge_valid n) es →
  (∀ x y, reach (from_graph n es) x → reach (from_graph n es) y →
          same_partition x y → x = y) ∧
  ∃ l g', get_all_submaps graph_changed (from_graph n es) g = Some (l, g') ∧
          ∀ i j x y, l !! i = Some x → l !! j = Some y →
                     same_partition x y → i = j.
Proof.
  intros Hquiet Hstop Hvalid.
  assert (∀ x y, reach (from_graph n es) x → reach (from_graph n es) y →
                 same_partition x y → x = y) as Hsame.
  { intros x y Hx Hy Hxy. apply (reach_same_blocks n es); [done..|].
    apply canonical_same_partition; [| |done];
      (eapply reach_canonical; [done|apply from_graph_canonical]). }
  split; [done|].
  destruct (get_all_submaps_visits graph_changed Hquiet (from_graph n es) g Hstop)
    as (l' & g' & Heq & _ & _ & Hnd & Hl').
  exists (l' ++ [from_graph n es]), g'. split; [done|].
  assert (∀ k x, (l' ++ [from_graph n es]) !! k = Some x → reach (from_graph n es) x)
    as Hreach.
  { intros k x Hk.
    apply list_elem_of_lookup_2, elem_of_app in Hk as [Hx|Hx%list_elem_of_singleton].
    - by apply proper_reach_reach, Hl'.
    - subst. constructor. }
  intros i j x y Hi Hj Hxy.
  assert (x = y) as -> by (apply Hsame; eauto).
  by eapply NoDup_lookup.
Qed.

Lemma X8_one_entry_per_partition_witness :
  (∀ x y, reach (from_graph 3 triangle) x → reach (from_graph 3 triangle) y →
          same_partition x y → x = y) ∧
  ∃ l g', get_all_submaps quiet (from_graph 3 triangle) init_globals = Some (l, g') ∧
          ∀ i j x y, l !! i = Some x → l !! j = Some y →
                     same_partition x y → i = j.
Proof.
  apply (X8_one_entry_per_partition quiet 3 triangle init_globals).
  - apply quiet_never_set.
  - reflexivity.
  - apply triangle_valid.
Defined.

(** ** The editor's edge list *)

Lemma same_pair_sym (e1 e2 : Edge) : same_pair e1 e2 → same_pair e2 e1.
Proof. unfold same_pair. naive_solver. Qed.

Lemma no_duplicate_edge_cons (e : Edge) (es : list Edge) :
  no_duplicate_edge (e :: es)
  ↔ Forall (λ e', ¬ same_pair e e') es ∧ no_duplicate_edge es.
Proof.
  split.
  - intros H. split.
    + apply Forall_forall. intros e' [q Hq]%list_elem_of_lookup Hsame.
      by specialize (H 0%nat (S q) e e' eq_refl Hq Hsame).
    + intros p q e1 e2 Hp Hq Hsame.
      by specialize (H (S p) (S q) e1 e2 Hp Hq Hsame) as [= ->].
  - intros [Hall Hes] p q e1 e2 Hp Hq Hsame.
    destruct p as [|p], q as [|q]; simplify_eq/=; [done| | |].
    + eapply Forall_forall in Hall; [by destruct Hall|].
      by eapply list_elem_of_lookup_2.
    + eapply Forall_forall in Hall; [destruct Hall; by apply same_pair_sym|].
      by eapply list_elem_of_lookup_2.
    + f_equal. by eapply Hes.
Qed.

Lemma no_duplicate_edge_nil : no_duplicate_edge [].
Proof. intros p q e1 e2 Hp. by rewrite lookup_nil in Hp. Qed.

Lemma no_duplicate_edge_snoc (es : list Edge) (e : Edge) :
  no_duplicate_edge es → Forall (λ e', ¬ same_pair e' e) es →
  no_duplicate_edge (es ++ [e]).
Proof.
  induction es as [|e0 es IH]; intros Hes Hall; simpl.
  - apply no_duplicate_edge_cons. split; [constructor|apply no_duplicate_edge_nil].
  - apply no_duplicate_edge_cons in Hes as [H0 Hes].
    apply Forall_cons in Hall as [He0 Hall].
    apply no_duplicate_edge_cons. split; [|by apply IH].
    apply Forall_app. split; [done|]. by repeat constructor.
Qed.

Lemma add_edge_loop_true (es : list Edge) (a b : nat) :
  add_edge_loop es a b = true ↔ ∃ e, e ∈ es ∧ same_pair e (mkEdge a b).
Proof.
  induction es as [|e es IH]; simpl.
  - split; [done|]. by intros (? & ?%elem_of_nil & _).
  - destruct ((start_idx e =? a) && (end_idx e =? b)
              || (start_idx e =? b) && (end_idx e =? a))%nat eqn:E.
    + split; [|done]. intros _. exists e. split; [by left|].
      unfold same_pair. simpl. split_tests; lia.
    + rewrite IH. split.
      * intros (e' & ? & ?). exists e'. split; [by right|done].
      * intros (e' & [->|?]%elem_of_cons & Hsame); [|by exists e'].
        unfold same_pair in Hsame. simpl in Hsame. split_tests; lia.
Qed.

Lemma add_edge_cases (es : list Edge) (a b : nat) :
  (add_edge es a b = es ∧ ∃ e, e ∈ es ∧ same_pair e (mkEdge a b)) ∨
  (add_edge es a b = es ++ [mkEdge a b] ∧ ∀ e, e ∈ es → ¬ same_pair e (mkEdge a b)).
Proof.
  unfold add_edge. destruct es as [|e0 es]; simpl length.
  - right. split; [done|]. by intros ? ?%elem_of_nil.
  - cbn [Nat.eqb]. destruct (add_edge_loop (e0 :: es) a b) eqn:E.
    + left. split; [done|]. by apply add_edge_loop_true.
    + right. split; [done|]. intros e He Hsame.
      assert (add_edge_loop (e0 :: es) a b = true); [|congruence].
      apply add_edge_loop_true. by exists e.
Qed.

(** X9: [add_edge] never removes or reorders an edge.  It appends the new
    edge exactly when no edge joins the same two nodes in either
    direction, so afterwards the pair is present once, adding it again in
    either direction changes nothing, and a well-formed edge list stays
    well-formed when the two ends are distinct nodes in range. *)
Theorem X9_add_edge (n : nat) (es : list Edge) (a b : nat) :
  well_formed_graph n es → (a < n)%nat → (b < n)%nat → a ≠ b →
  well_formed_graph n (add_edge es a b) ∧
  (add_edge es a b = es ∨ add_edge es a b = es ++ [mkEdge a b]) ∧
  (∃ e, e ∈ add_edge es a b ∧ same_pair e (mkEdge a b)) ∧
  add_edge (add_edge es a b) a b = add_edge es a b ∧
  add_edge (add_edge es a b) b a = add_edge es a b.
Proof.
  intros [Hvalid Hnd] Ha Hb Hab.
  assert (∃ e, e ∈ add_edge es a b ∧ same_pair e (mkEdge a b)) as Hpresent.
  { destruct (add_edge_cases es a b) as [[-> ?]|[-> _]]; [done|].
    exists (mkEdge a b). split; [|by left].
    apply elem_of_app. right. by left. }
  split; [|split; [|split; [done|split]]].
  - destruct (add_edge_cases es a b) as [[-> _]|[-> Hfresh]]; [done|]. split.
    + apply Forall_app. split; [done|]. by repeat constructor.
    + apply no_duplicate_edge_snoc; [done|]. by apply Forall_forall.
  - destruct (add_edge_cases es a b) as [[-> _]|[-> _]]; auto.
  - destruct (add_edge_cases (add_edge es a b) a b) as [[-> _]|[_ Hfresh]]; [done|].
    destruct Hpresent as (e & He & Hsame). by destruct (Hfresh e He).
  - destruct (add_edge_cases (add_edge es a b) b a) as [[-> _]|[_ Hfresh]]; [done|].
    destruct Hpresent as (e & He & Hsame). destruct (Hfresh e He).
    unfold same_pair in *. simpl in *. lia.
Qed.

Lemma X9_add_edge_witness :
  well_formed_graph 3 (add_edge single_edge 1 2) ∧
  (add_edge single_edge 1 2 = single_edge
   ∨ add_edge single_edge 1 2 = single_edge ++ [mkEdge 1 2]) ∧
  (∃ e, e ∈ add_edge single_edge 1 2 ∧ same_pair e (mkEdge 1 2)) ∧
  add_edge (add_edge single_edge 1 2) 1 2 = add_edge single_edge 1 2 ∧
  add_edge (add_edge single_edge 1 2) 2 1 = add_edge single_edge 1 2.
Proof.
  apply (X9_add_edge 3 single_edge 1 2); [|lia..].
  split.
  - unfold single_edge, edge_valid. repeat constructor; simpl; lia.
  - intros p q e1 e2 Hp Hq _.
    destruct p as [|p], q as [|q]; simplify_eq/=; done.
Defined.

Lemma remove_incident_loop_filter (fuel sel i : nat) (es : list Edge) :
  (length es ≤ fuel + i)%nat →
  remove_incident_loop fuel sel i es
  = Some (take i es ++ filter (λ e, ¬ incident sel e) (drop i es)).
Proof.
  revert i es. induction fuel as [|fuel IH]; intros i es Hlen.
  - simpl. rewrite (proj2 (lookup_ge_None es i)) by lia.
    rewrite drop_ge by lia. by rewrite take_ge, app_nil_r by lia.
  - simpl. destruct (es !! i) as [e|] eqn:Hi.
    + pose proof (lookup_lt_Some _ _ _ Hi) as Hlt.
      rewrite (drop_S _ _ _ Hi), filter_cons.
      destruct ((start_idx e =? sel) || (end_idx e =? sel))%nat eqn:E.
      * rewrite IH by (rewrite length_delete by eauto; lia).
        rewrite decide_False by (unfold incident; split_tests; naive_solver lia).
        rewrite delete_take_drop.
        rewrite take_app_length' by (rewrite length_take; lia).
        rewrite drop_app_length' by (rewrite length_take; lia). done.
      * rewrite IH by lia.
        rewrite decide_True by (unfold incident; split_tests; naive_solver lia).
        rewrite (take_S_r _ _ _ Hi), <- app_assoc. done.
    + apply lookup_ge_None in Hi.
      rewrite drop_ge by lia. by rewrite take_ge, app_nil_r by lia.
Qed.

Lemma no_duplicate_edge_filter (P : Edge → Prop) `{∀ e, Decision (P e)}
    (es : list Edge) :
  no_duplicate_edge es → no_duplicate_edge (filter P es).
Proof.
  induction es as [|e es IH]; intros Hes; [done|].
  apply no_duplicate_edge_cons in Hes as [He Hes].
  rewrite filter_cons. destruct (decide (P e)); [|by apply IH].
  apply no_duplicate_edge_cons. split; [|by apply IH].
  apply Forall_forall. intros e' He'%list_elem_of_filter.
  eapply Forall_forall in He; [done|]. by destruct He'.
Qed.

Lemma shift_edge_same_pair (sel : nat) (e1 e2 : Edge) :
  ¬ incident sel e1 → ¬ incident sel e2 →
  same_pair (shift_edge sel e1) (shift_edge sel e2) → same_pair e1 e2.
Proof.
  unfold incident, same_pair, shift_edge. destruct e1, e2; simpl.
  intros H1 H2. split_tests; lia.
Qed.

Lemma no_duplicate_edge_shift (sel : nat) (es : list Edge) :
  Forall (λ e, ¬ incident sel e) es → no_duplicate_edge es →
  no_duplicate_edge (map (shift_edge sel) es).
Proof.
  induction 1 as [|e es He Hall IH]; intros Hes; [done|]. simpl.
  apply no_duplicate_edge_cons in Hes as [Hfresh Hes].
  apply no_duplicate_edge_cons. split; [|by apply IH].
  apply Forall_fmap, Forall_forall. intros e' He' Hsame. simpl in Hsame.
  eapply Forall_forall in Hfresh; [|done]. apply Hfresh.
  apply (shift_edge_same_pair sel); [done| |done].
  by eapply Forall_forall in Hall.
Qed.

(** X10: the two loops run when a node is deleted always finish; they
    remove exactly the edges that touch the node, keep the others in their
    order and lower every index above the deleted one by one.  A
    well-formed edge list over [n] nodes becomes a well-formed edge list
    over [n-1] nodes. *)
Theorem X10_delete_node_edges (n sel : nat) (es : list Edge) :
  well_formed_graph n es → (sel < n)%nat →
  delete_node_edges sel es
  = Some (map (shift_edge sel) (filter (λ e, ¬ incident sel e) es)) ∧
  ∃ es', delete_node_edges sel es = Some es' ∧ well_formed_graph (n - 1) es'.
Proof.
  intros [Hvalid Hnd] Hsel. unfold delete_node_edges.
  rewrite remove_incident_loop_filter by lia. rewrite take_0, drop_0. simpl.
  split; [done|]. eexists. split; [done|]. split.
  - apply Forall_fmap, Forall_forall. intros e [Hinc He]%list_elem_of_filter.
    eapply Forall_forall in Hvalid; [|done].
    destruct Hvalid as (? & ? & ?). unfold incident in Hinc.
    unfold edge_valid, shift_edge. simpl. split_tests; lia.
  - apply no_duplicate_edge_shift; [|by apply no_duplicate_edge_filter].
    apply Forall_forall. by intros e [? _]%list_elem_of_filter.
Qed.

Lemma X10_delete_node_edges_witness :
  delete_node_edges 0 triangle
  = Some (map (shift_edge 0) (filter (λ e, ¬ incident 0 e) triangle)) ∧
  ∃ es', delete_node_edges 0 triangle = Some es' ∧ well_formed_graph (3 - 1) es'.
Proof.
  apply (X10_delete_node_edges 3 0 triangle).
  - apply triangle_well_formed.
  - lia.
Defined.

(** ** Active nodes *)

Lemma active_node_count_fold (acc : nat) (nodes : list Node) :
  foldl (λ count node, if negb (deleted node) then S count else count) acc nodes
  = (acc + active_node_count nodes)%nat.
Proof.
  unfold active_node_count. revert acc.
  induction nodes as [|node nodes IH]; intros acc; simpl; [lia|].
  rewrite IH, (IH (if negb (deleted node) then 1%nat else 0%nat)).
  destruct (deleted node); simpl; lia.
Qed.

Lemma active_node_count_cons (node : Node) (nodes : list Node) :
  active_node_count (node :: nodes)
  = ((if deleted node then 0 else 1) + active_node_count nodes)%nat.
Proof.
  unfold active_node_count at 1. simpl. rewrite active_node_count_fold.
  by destruct (deleted node).
Qed.

Lemma get_ith_active_node_loop_found (j : nat) (nodes : list Node) (i : Z) :
  0 ≤ i < Z.of_nat (active_node_count nodes) → i < UINT_MAX →
  ∃ k node, get_ith_active_node_loop j nodes i = Some (j + k)%nat ∧
            nodes !! k = Some node ∧ deleted node = false ∧
            Z.of_nat (active_node_count (take k nodes)) = i.
Proof.
  revert j i. induction nodes as [|node nodes IH]; intros j i Hi Hmax.
  - unfold active_node_count in Hi. simpl in Hi. lia.
  - rewrite active_node_count_cons in Hi. simpl. unfold UINT_MAX in *.
    destruct (deleted node) eqn:Hdel; simpl.
    + destruct (Z.eqb_spec i (2 ^ 32 - 1)); [lia|].
      destruct (IH (S j) i) as (k & node' & -> & Hk & Hd & Hcount); [lia..|].
      exists (S k), node'. split; [f_equal; lia|]. split; [done|]. split; [done|].
      simpl. rewrite active_node_count_cons, Hdel. lia.
    + destruct (decide (i = 0)) as [->|Hne].
      * exists 0%nat, node. simpl. rewrite Nat.add_0_r. done.
      * rewrite Z.mod_small by lia.
        destruct (Z.eqb_spec (i - 1) (2 ^ 32 - 1)); [lia|].
        destruct (IH (S j) (i - 1)) as (k & node' & -> & Hk & Hd & Hcount); [lia..|].
        exists (S k), node'. split; [f_equal; lia|]. split; [done|]. split; [done|].
        simpl. rewrite active_node_count_cons, Hdel. lia.
Qed.

Lemma get_ith_active_node_loop_none (j : nat) (nodes : list Node) (i : Z) :
  Z.of_nat (active_node_count nodes) ≤ i < UINT_MAX →
  get_ith_active_node_loop j nodes i = None.
Proof.
  revert j i. induction nodes as [|node nodes IH]; intros j i Hi; [done|].
  rewrite active_node_count_cons in Hi. simpl. unfold UINT_MAX in *.
  destruct (deleted node) eqn:Hdel; simpl.
  - destruct (Z.eqb_spec i (2 ^ 32 - 1)); [lia|]. apply IH. lia.
  - rewrite Z.mod_small by lia.
    destruct (Z.eqb_spec (i - 1) (2 ^ 32 - 1)); [lia|]. apply IH. lia.
Qed.

(** X11: for [i] below the number of active nodes,
    [get_ith_active_node_idx] returns the position of a node that is not
    marked deleted and has exactly [i] active nodes before it; for an
    index at or above that number (and below [UINT_MAX]) the loop ends
    without reaching a [return]. *)
Theorem X11_ith_active_node (nodes : list Node) (i : Z) :
  0 ≤ i < Z.of_nat (active_node_count nodes) → i < UINT_MAX →
  (∃ j node, get_ith_active_node_idx nodes i = Some j ∧
             nodes !! j = Some node ∧ deleted node = false ∧
             Z.of_nat (active_node_count (take j nodes)) = i) ∧
  (∀ i', Z.of_nat (active_node_count nodes) ≤ i' < UINT_MAX →
         get_ith_active_node_idx nodes i' = None).
Proof.
  intros Hi Hmax. split.
  - destruct (get_ith_active_node_loop_found 0 nodes i) as (k & node & ? & ?);
      [lia..|]. by exists k, node.
  - intros i' Hi'. by apply get_ith_active_node_loop_none.
Qed.

Lemma X11_ith_active_node_witness :
  (∃ j node, get_ith_active_node_idx three_nodes 1 = Some j ∧
             three_nodes !! j = Some node ∧ deleted node = false ∧
             Z.of_nat (active_node_count (take j three_nodes)) = 1) ∧
  (∀ i', Z.of_nat (active_node_count three_nodes) ≤ i' < UINT_MAX →
         get_ith_active_node_idx three_nodes i' = None).
Proof.
  apply (X11_ith_active_node three_nodes 1).
  - vm_compute. split; [discriminate|reflexivity].
  - reflexivity.
Defined.

(** ** Numbers in the output text *)

Lemma ten_pow_fold (acc : Z) (l : list nat) :
  foldl (λ res _, res * 10) acc l = acc * 10 ^ Z.of_nat (length l).
Proof.
  revert acc. induction l as [|x l IH]; intros acc; simpl length; simpl foldl.
  - lia.
  - rewrite IH, Nat2Z.inj_succ, Z.pow_succ_r by lia. lia.
Qed.

Lemma ten_pow_spec (k : nat) : ten_pow (Z.of_nat k) = 10 ^ Z.of_nat k.
Proof. unfold ten_pow. rewrite ten_pow_fold, length_seq, Nat2Z.id. lia. Qed.

Lemma num_digits_loop_spec (fuel : nat) (i n : Z) :
  n ≤ Z.of_nat fuel →
  ∃ d : nat, num_digits_loop fuel i n = Some (i + Z.of_nat d) ∧
             (n < 1 → d = 0%nat) ∧
             (1 ≤ n → (1 ≤ d)%nat ∧ 10 ^ (Z.of_nat d - 1) ≤ n < 10 ^ Z.of_nat d).
Proof.
  revert i n. induction fuel as [|fuel IH]; intros i n Hn.
  - exists 0%nat. simpl. destruct (Z.leb_spec 1 n); [lia|].
    split; [f_equal; lia|]. split; [done|lia].
  - simpl. destruct (Z.leb_spec 1 n) as [Hge|Hlt].
    + assert (n ÷ 10 = n / 10) as Hq by (apply Z.quot_div_nonneg; lia).
      pose proof (Z.div_mod n 10 ltac:(lia)) as Hdm.
      pose proof (Z.mod_pos_bound n 10 ltac:(lia)) as Hmod.
      destruct (IH (i + 1) (n ÷ 10)) as (d & -> & Hzero & Hpos); [lia|].
      exists (S d). split; [f_equal; lia|]. split; [lia|]. intros _.
      split; [lia|]. rewrite Nat2Z.inj_succ.
      replace (Z.succ (Z.of_nat d) - 1) with (Z.of_nat d) by lia.
      rewrite Z.pow_succ_r by lia.
      destruct (Z.le_gt_cases 1 (n ÷ 10)) as [Hq1|Hq0].
      * destruct (Hpos Hq1) as (Hd & Hlo & Hhi).
        replace (Z.of_nat d) with (Z.succ (Z.of_nat d - 1)) at 1 by lia.
        rewrite Z.pow_succ_r by lia. lia.
      * rewrite (Hzero Hq0). simpl. lia.
    + exists 0%nat. split; [f_equal; lia|]. split; [done|lia].
Qed.

Lemma add_digits_loop (glyph : Z → Z) (k : nat) (n : Z) (output : list Z) :
  0 ≤ n < 10 ^ Z.of_nat k →
  ∃ qs, (foldl (λ st (i : nat),
                  let div := ten_pow (Z.of_nat i) in
                  (st.1 ++ [glyph (st.2 ÷ div)], Z.rem st.2 div))
               (output, n) (rev (seq 0 k))).1 = output ++ map glyph qs ∧
        length qs = k ∧ Forall (λ q, 0 ≤ q ≤ 9) qs ∧
        (∀ acc, foldl (λ acc q, acc * 10 + q) acc qs = acc * 10 ^ Z.of_nat k + n) ∧
        (10 ^ (Z.of_nat k - 1) ≤ n → (1 ≤ k)%nat → 1 ≤ hd 0 qs).
Proof.
  revert n output. induction k as [|k IH]; intros n output Hn.
  - exists []. simpl in *. rewrite app_nil_r. repeat split; try done; [|lia].
    intros acc. lia.
  - rewrite seq_S, rev_app_distr. simpl rev. simpl app. cbn [foldl]. simpl.
    rewrite ten_pow_spec.
    assert (0 < 10 ^ Z.of_nat k) as Hpow by (apply Z.pow_pos_nonneg; lia).
    rewrite Nat2Z.inj_succ, Z.pow_succ_r in Hn by lia.
    assert (n ÷ 10 ^ Z.of_nat k = n / 10 ^ Z.of_nat k) as ->
      by (apply Z.quot_div_nonneg; lia).
    assert (Z.rem n (10 ^ Z.of_nat k) = n `mod` 10 ^ Z.of_nat k) as ->
      by (apply Z.rem_mod_nonneg; lia).
    pose proof (Z.div_mod n (10 ^ Z.of_nat k) ltac:(lia)) as Hdm.
    pose proof (Z.mod_pos_bound n (10 ^ Z.of_nat k) Hpow) as Hmod.
    assert (0 ≤ n / 10 ^ Z.of_nat k ≤ 9) as Hq.
    { split; [apply Z.div_pos; lia|].
      assert (n / 10 ^ Z.of_nat k < 10); [|lia].
      apply Z.div_lt_upper_bound; lia. }
    destruct (IH (n `mod` 10 ^ Z.of_nat k) (output ++ [glyph (n / 10 ^ Z.of_nat k)]))
      as (qs & Heq & Hlen & Hall & Hval & _); [lia|].
    exists (n / 10 ^ Z.of_nat k :: qs). split; [|split; [|split; [|split]]].
    + etrans; [exact Heq|]. by rewrite <- app_assoc.
    + simpl. lia.
    + by constructor.
    + intros acc. simpl. rewrite Hval, Nat2Z.inj_succ, Z.pow_succ_r by lia. lia.
    + intros Hlo _.
      assert (Z.of_nat (S k) - 1 = Z.of_nat k) as Hk by lia.
      rewrite Hk in Hlo. cbn [hd]. apply Z.div_le_lower_bound; lia.
Qed.

Lemma decimal_value_glyphs (qs : list Z) :
  decimal_value (map (λ q, 0x30 + q) qs) = foldl (λ acc q, acc * 10 + q) 0 qs.
Proof.
  unfold decimal_value. generalize 0.
  induction qs as [|q qs IH]; intros acc; simpl; [done|].
  rewrite IH. f_equal. lia.
Qed.

(** X12: for [n ≥ 1], [add_number_to_output] appends the decimal digits of
    [n]: ASCII digits, the first of them not '0', whose decimal value is
    [n], as many as [num_digits] counts.  For a number that is zero or
    negative it appends nothing. *)
Theorem X12_number_round_trip (output : list Z) (n : Z) :
  1 ≤ n →
  (∃ ds d, num_digits n = Some (Z.of_nat d) ∧ length ds = d ∧
           add_number_to_output output n = Some (output ++ ds) ∧
           Forall (λ c, 0x30 ≤ c ≤ 0x39) ds ∧
           hd 0 ds ≠ 0x30 ∧ decimal_value ds = n) ∧
  (∀ m, m ≤ 0 → add_number_to_output output m = Some output).
Proof.
  intros Hn. unfold add_number_to_output, num_digits. split.
  - destruct (num_digits_loop_spec (Z.to_nat n) 0 n ltac:(lia))
      as (d & -> & _ & Hpos).
    destruct (Hpos Hn) as (Hd & Hlo & Hhi).
    rewrite Z.add_0_l.
    destruct (add_digits_loop (λ q, 0x30 + q) d n output ltac:(lia))
      as (qs & Heq & Hlen & Hall & Hval & Hhd).
    exists (map (λ q, 0x30 + q) qs), d.
    split; [done|]. split; [by rewrite length_map|].
    split; [f_equal; unfold add_digits; rewrite Nat2Z.id; exact Heq|].
    split; [|split].
    + apply Forall_fmap. eapply Forall_impl; [done|]. simpl. lia.
    + specialize (Hhd Hlo Hd). destruct qs; simpl in *; lia.
    + rewrite decimal_value_glyphs, Hval. lia.
  - intros m Hm. replace (Z.to_nat m) with 0%nat by lia. simpl.
    destruct (Z.leb_spec 1 m); [lia|]. done.
Qed.

Lemma X12_number_round_trip_witness :
  (∃ ds d, num_digits 305 = Some (Z.of_nat d) ∧ length ds = d ∧
           add_number_to_output [0x78] 305 = Some ([0x78] ++ ds) ∧
           Forall (λ c, 0x30 ≤ c ≤ 0x39) ds ∧
           hd 0 ds ≠ 0x30 ∧ decimal_value ds = 305) ∧
  (∀ m, m ≤ 0 → add_number_to_output [0x78] m = Some [0x78]).
Proof. apply (X12_number_round_trip [0x78] 305). lia. Defined.

(** ** Codepoints *)

Lemma elem_of_range (P : Z → Prop) (m : Z) (k : nat) :
  Forall P (seqZ m (Z.of_nat k)) → ∀ c, m ≤ c < m + Z.of_nat k → P c.
Proof.
  intros H c Hc. eapply Forall_forall in H; [done|]. by apply elem_of_seqZ.
Qed.

Lemma digits_in_font (c : Z) : 0x30 ≤ c ≤ 0x39 → c ∈ codepoints.
Proof.
  intros Hc. apply (elem_of_range (λ c, c ∈ codepoints) 0x30 10); [|lia].
  apply (bool_decide_unpack
           (Forall (λ c : Z, c ∈ codepoints) (seqZ 48 (Z.of_nat 10)))).
  vm_compute. exact I.
Qed.

Lemma superscripts_in_font (d : Z) :
  0 ≤ d ≤ 9 →
  get_superscript_codepoint d ∈ codepoints ∧
  superscript_digit (get_superscript_codepoint d) = d.
Proof.
  intros Hd.
  apply (elem_of_range
           (λ d, get_superscript_codepoint d ∈ codepoints ∧
                 superscript_digit (get_superscript_codepoint d) = d) 0 10); [|lia].
  apply (bool_decide_unpack
           (Forall (λ d : Z, get_superscript_codepoint d ∈ codepoints ∧
                       superscript_digit (get_superscript_codepoint d) = d)
                   (seqZ 0 (Z.of_nat 10)))).
  vm_compute. exact I.
Qed.

Lemma get_ascii_codepoint_id (c : Z) :
  get_ascii_codepoint c = (if has_ascii_branch c then Some c else None).
Proof.
  unfold get_ascii_codepoint, has_ascii_branch.
  change (char_code "a") with 97. change (char_code "z") with 122.
  change (char_code "A") with 65. change (char_code "Z") with 90.
  change (char_code "0") with 48. change (char_code "9") with 57.
  change (char_code " ") with 32. change (char_code "/") with 47.
  change (char_code "+") with 43. change (char_code "-") with 45.
  repeat match goal with
         | |- context [?a <=? ?b] => destruct (Z.leb_spec a b); simpl
         | |- context [?a =? ?b] => destruct (Z.eqb_spec a b); simpl
         end; try done; try (f_equal; lia); try lia.
Qed.

(** X13: [get_ascii_codepoint] returns the code of the character itself
    for letters, digits, space, '/', '+' and '-', and reaches no [return]
    for any other character, the '.' of the loading text included.
    [get_superscript_codepoint] maps the ten digits to ten different
    codepoints ([superscript_digit] recovers the digit), all of them in
    the table the font is loaded with, as are the ASCII digits. *)
Theorem X13_codepoints (c d d' : Z) :
  0 ≤ d ≤ 9 → 0 ≤ d' ≤ 9 →
  get_ascii_codepoint c = (if has_ascii_branch c then Some c else None) ∧
  get_ascii_codepoint (char_code ".") = None ∧
  set_output_to_loading = None ∧
  get_superscript_codepoint d ∈ codepoints ∧
  (get_superscript_codepoint d = get_superscript_codepoint d' → d = d') ∧
  0x30 + d ∈ codepoints.
Proof.
  intros Hd Hd'. split; [|split; [done|split; [done|split; [|split]]]].
  - apply get_ascii_codepoint_id.
  - by apply superscripts_in_font.
  - intros Heq.
    rewrite <- (proj2 (superscripts_in_font d Hd)),
      <- (proj2 (superscripts_in_font d' Hd')). by rewrite Heq.
  - apply digits_in_font. lia.
Qed.

Lemma X13_codepoints_witness :
  get_ascii_codepoint 120 = (if has_ascii_branch 120 then Some 120 else None) ∧
  get_ascii_codepoint (char_code ".") = None ∧
  set_output_to_loading = None ∧
  get_superscript_codepoint 3 ∈ codepoints ∧
  (get_superscript_codepoint 3 = get_superscript_codepoint 7 → 3 = 7) ∧
  0x30 + 3 ∈ codepoints.
Proof. apply (X13_codepoints 120 3 7); lia. Defined.

(** ** The text of a polynomial *)

Lemma add_digits_font (glyph : Z → Z) (n : Z) (output : list Z) :
  (∀ q, 0 ≤ q ≤ 9 → glyph q ∈ codepoints) →
  Forall (λ c, c ∈ codepoints) output →
  ∃ d, num_digits n = Some d ∧
       Forall (λ c, c ∈ codepoints) (add_digits glyph d n output).
Proof.
  intros Hglyph Hout. unfold num_digits.
  destruct (num_digits_loop_spec (Z.to_nat n) 0 n ltac:(lia))
    as (d & -> & Hzero & Hpos).
  eexists. split; [done|]. rewrite Z.add_0_l. unfold add_digits. rewrite Nat2Z.id.
  destruct (Z.le_gt_cases 1 n) as [Hn|Hn].
  - destruct (Hpos Hn) as (_ & _ & Hhi).
    destruct (add_digits_loop glyph d n output ltac:(lia))
      as (qs & Heq & _ & Hall & _).
    eapply (eq_ind_r (Forall _)); [|exact Heq].
    apply Forall_app. split; [done|]. apply Forall_fmap.
    eapply Forall_impl; [done|]. intros q Hq. by apply Hglyph.
  - rewrite (Hzero ltac:(lia)). done.
Qed.

Lemma add_number_font (output : list Z) (n : Z) :
  Forall (λ c, c ∈ codepoints) output →
  ∃ output', add_number_to_output output n = Some output' ∧
             Forall (λ c, c ∈ codepoints) output'.
Proof.
  intros Hout. unfold add_number_to_output.
  destruct (add_digits_font (λ q, 0x30 + q) n output) as (d & -> & H); [|done|].
  - intros q Hq. apply digits_in_font. lia.
  - by eexists.
Qed.

Lemma add_superscript_font (output : list Z) (n : Z) :
  Forall (λ c, c ∈ codepoints) output →
  ∃ output', add_superscript_number_to_output output n = Some output' ∧
             Forall (λ c, c ∈ codepoints) output'.
Proof.
  intros Hout. unfold add_superscript_number_to_output.
  destruct (add_digits_font get_superscript_codepoint n output) as (d & -> & H);
    [|done|].
  - intros q Hq. by apply superscripts_in_font.
  - by eexists.
Qed.

Lemma add_sign_font (output : list Z) (c : ascii) :
  c = "+"%char ∨ c = "-"%char ∨ c = "x"%char →
  Forall (λ c, c ∈ codepoints) output →
  ∃ output', add_ascii_char_to_output output c = Some output' ∧
             Forall (λ c, c ∈ codepoints) output'.
Proof.
  intros Hc Hout.
  destruct Hc as [->|[->| ->]]; (eexists; split; [reflexivity|]);
    (apply Forall_app; split; [done|]); repeat constructor;
    apply (bool_decide_unpack _); vm_compute; exact I.
Qed.

Lemma polynomial_term_font (P : list Z) (degree : Z) (output : list Z) (power : nat) :
  Forall (λ c, c ∈ codepoints) output →
  ∃ output', polynomial_term P (Some degree) output power = Some output' ∧
             Forall (λ c, c ∈ codepoints) output'.
Proof.
  intros Hout. unfold polynomial_term.
  set (coeff := P !!! (power - 1)%nat).
  assert (∃ o1, (if (0 <? coeff) && (Z.of_nat power <? Z.of_nat (length P) - 1)
                 then add_ascii_char_to_output output "+"
                 else if coeff <? 0 then add_ascii_char_to_output output "-"
                      else Some output) = Some o1 ∧
                Forall (λ c, c ∈ codepoints) o1) as (o1 & -> & Ho1).
  { repeat case_match; try (by eexists); apply add_sign_font; auto. }
  cbn [mbind option_bind].
  assert (∃ o2, (if negb ((if coeff <? 0 then - coeff else coeff) =? 0)
                    && negb ((if coeff <? 0 then - coeff else coeff) =? 1)
                 then add_number_to_output o1 (if coeff <? 0 then - coeff else coeff)
                 else Some o1) = Some o2 ∧
                Forall (λ c, c ∈ codepoints) o2) as (o2 & -> & Ho2).
  { case_match; [by apply add_number_font|by eexists]. }
  cbn [mbind option_bind]. destruct (degree <=? Z.of_nat power); [|by eexists].
  destruct (add_sign_font o2 "x") as (o3 & -> & Ho3); [auto|done|]. cbn [mbind option_bind].
  destruct (1 <? Z.of_nat power); [by apply add_superscript_font|by eexists].
Qed.

Lemma find_degree_some (power : nat) (P : list Z) :
  (∃ c, c ∈ P ∧ c ≠ 0) → ∃ degree, find_degree power P = Some degree.
Proof.
  revert power. induction P as [|c0 P IH]; intros power (c & Hc & Hne).
  - by apply elem_of_nil in Hc.
  - simpl. destruct (Z.eqb_spec c0 0) as [->|]; simpl; [|by eexists].
    apply IH. apply elem_of_cons in Hc as [->|Hc]; [done|]. by exists c.
Qed.

Lemma find_degree_zeros (power n : nat) : find_degree power (replicate n 0) = None.
Proof. revert power. induction n as [|n IH]; intros power; simpl; [done|apply IH]. Qed.

Lemma polynomial_terms_font (P : list Z) (degree : Z) (powers : list nat)
    (output : list Z) :
  Forall (λ c, c ∈ codepoints) output →
  ∃ text, foldl (λ output power,
                   output ≫= λ output, polynomial_term P (Some degree) output power)
                (Some output) powers = Some text ∧
          Forall (λ c, c ∈ codepoints) text.
Proof.
  revert output. induction powers as [|power powers IH]; intros output Hout; simpl.
  - by eexists.
  - destruct (polynomial_term_font P degree output power Hout) as (o & -> & Ho).
    by apply IH.
Qed.

Lemma polynomial_terms_none (P : list Z) (degree : option Z) (powers : list nat) :
  foldl (λ output power, output ≫= λ output, polynomial_term P degree output power)
        None powers = None.
Proof. induction powers; simpl; done. Qed.

Lemma polynomial_terms_first_none (P : list Z) (degree : option Z) (power : nat)
    (powers : list nat) :
  polynomial_term P degree [] power = None →
  foldl (λ output power, output ≫= λ output, polynomial_term P degree output power)
        (Some []) (power :: powers) = None.
Proof.
  intros H.
  change (foldl (λ output power,
                   output ≫= λ output, polynomial_term P degree output power)
                (polynomial_term P degree [] power) powers = None).
  rewrite H. apply polynomial_terms_none.
Qed.

(** For an array of zeros the local [degree] is never assigned, and the
    first pass of the second loop reads it. *)
Lemma set_output_to_polynomial_zeros (n : nat) :
  (1 ≤ n)%nat → set_output_to_polynomial (replicate n 0) = None.
Proof.
  intros Hn. unfold set_output_to_polynomial.
  rewrite find_degree_zeros, length_replicate.
  destruct n as [|n]; [lia|].
  rewrite seq_S, rev_app_distr. simpl rev. simpl app.
  apply polynomial_terms_first_none. unfold polynomial_term.
  rewrite lookup_total_replicate_2 by lia. done.
Qed.

(** X14: for a coefficient array with a non-zero entry,
    [set_output_to_polynomial] writes a text all of whose codepoints are in
    the table the font is loaded with.  For an array of zeros (what a pass
    cancelled at its first poll computes) the local [degree] is never
    assigned and is read in the first pass of the loop. *)
Theorem X14_polynomial_text (P : list Z) :
  (∃ c, c ∈ P ∧ c ≠ 0) →
  (∃ text, set_output_to_polynomial P = Some text ∧
           Forall (λ c, c ∈ codepoints) text) ∧
  (∀ n, (1 ≤ n)%nat → set_output_to_polynomial (replicate n 0) = None).
Proof.
  intros Hnz. split.
  - unfold set_output_to_polynomial.
    destruct (find_degree_some 0 P Hnz) as [degree ->].
    by apply polynomial_terms_font.
  - intros n Hn. by apply set_output_to_polynomial_zeros.
Qed.

Lemma X14_polynomial_text_witness :
  (∃ text, set_output_to_polynomial [2; -3; 1] = Some text ∧
           Forall (λ c, c ∈ codepoints) text) ∧
  (∀ n, (1 ≤ n)%nat → set_output_to_polynomial (replicate n 0) = None).
Proof.
  apply (X14_polynomial_text [2; -3; 1]).
  exists 2. split; [by left|lia].
Defined.

(** The text written for the triangle: x³-3x²+2x. *)
Example triangle_text :
  set_output_to_polynomial [2; -3; 1]
  = Some [0x78; 0xb3; 0x2d; 0x33; 0x78; 0xb2; 0x2b; 0x32; 0x78].
Proof. vm_compute. reflexivity. Qed.

(** ** Arrays *)

Lemma insert_delete_perm {T : Type} (l : list T) (i : nat) (x : T) :
  (i < length l)%nat → <[i := x]> l ≡ₚ delete i l ++ [x].
Proof.
  revert i. induction l as [|y l IH]; intros i Hi; simpl in Hi; [lia|].
  destruct i as [|i]; simpl.
  - by rewrite Permutation_app_comm.
  - f_equiv. apply IH. lia.
Qed.

(** X15: within range, [array_del_unordered] shortens the array by one,
    leaves the elements before [i] in place and keeps exactly the elements
    that the order-preserving [array_del] keeps, the former last element
    standing at [i]; out of range both assertions fail. *)
Theorem X15_array_del_unordered {T : Type} (a : list T) (i : nat) :
  (i < length a)%nat →
  (∃ a', array_del_unordered a i = Some a' ∧
         length a' = (length a - 1)%nat ∧
         take i a' = take i a ∧
         ((i < length a - 1)%nat → a' !! i = last a) ∧
         a' ≡ₚ delete i a ∧ array_del a i = Some (delete i a)) ∧
  (∀ j, (length a ≤ j)%nat →
        array_del_unordered a j = None ∧ array_del a j = None).
Proof.
  intros Hi. split.
  - unfold array_del_unordered, array_del.
    destruct (Nat.ltb_spec i (length a)); [|lia].
    destruct (last a) as [x|] eqn:Hlast; [|apply last_None in Hlast; subst; simpl in *; lia].
    apply last_Some in Hlast as [a0 ->]. rewrite length_app in *. simpl in *.
    replace (length a0 + 1 - 1)%nat with (length a0) by lia.
    eexists. split; [done|].
    destruct (decide (i = length a0)) as [->|Hne].
    + rewrite insert_app_r_alt, Nat.sub_diag by lia. simpl.
      rewrite take_app_length.
      rewrite delete_take_drop, take_app_length.
      rewrite (drop_ge (a0 ++ [x])) by (rewrite length_app; simpl; lia).
      rewrite app_nil_r.
      repeat split; try done; try lia.
      by rewrite take_ge.
    + rewrite insert_app_l by lia.
      rewrite take_app_length' by (rewrite length_insert; lia).
      rewrite length_insert. split; [done|]. split.
      { rewrite take_insert_ge by lia. by rewrite take_app_le by lia. }
      split.
      { intros _. apply list_lookup_insert_eq. lia. }
      split; [|done].
      rewrite insert_delete_perm by lia.
      rewrite (delete_take_drop (a0 ++ [x])), (delete_take_drop a0).
      rewrite take_app_le, drop_app_le by lia. by rewrite <- app_assoc.
  - intros j Hj. unfold array_del_unordered, array_del.
    by destruct (Nat.ltb_spec j (length a)); [lia|].
Qed.

Lemma X15_array_del_unordered_witness :
  (∃ a', array_del_unordered [10; 11; 12; 13; 14; 15] 2 = Some a' ∧
         length a' = (length [10; 11; 12; 13; 14; 15] - 1)%nat ∧
         take 2 a' = take 2 [10; 11; 12; 13; 14; 15] ∧
         ((2 < length [10; 11; 12; 13; 14; 15] - 1)%nat
          → a' !! 2%nat = last [10; 11; 12; 13; 14; 15]) ∧
         a' ≡ₚ delete 2%nat [10; 11; 12; 13; 14; 15] ∧
         array_del [10; 11; 12; 13; 14; 15] 2
         = Some (delete 2%nat [10; 11; 12; 13; 14; 15])) ∧
  (∀ j, (length [10; 11; 12; 13; 14; 15] ≤ j)%nat →
        array_del_unordered [10; 11; 12; 13; 14; 15] j = None ∧
        array_del [10; 11; 12; 13; 14; 15] j = None).
Proof. apply (X15_array_del_unordered [10; 11; 12; 13; 14; 15] 2). simpl. lia. Defined.

(** X16: [array_add] on an array whose cells in use are counted by [size]
    and fit [cap] either appends the element (then [oom] is clear and
    [size] grows by one) or leaves size, capacity and contents untouched
    with [oom] set; the latter happens exactly when the array is full and
    the capacity cannot be doubled or [realloc] fails.  The result is
    consistent again and the capacity never shrinks. *)
Theorem X16_array_add {T : Type} (max : nat) (realloc_ok : bool)
    (a : Array.array T) (k : T) :
  Array.consistent a →
  let a' := Array.array_add max realloc_ok a k in
  Array.consistent a' ∧ (Array.cap a ≤ Array.cap a')%nat ∧
  (Array.oom a' = true
   ↔ Array.cap a = Array.size a ∧ ((max / 2 < Array.cap a)%nat ∨ realloc_ok = false)) ∧
  (if Array.oom a'
   then Array.elems a' = Array.elems a ∧ Array.size a' = Array.size a ∧
        Array.cap a' = Array.cap a
   else Array.elems a' = Array.elems a ++ [k] ∧ Array.size a' = S (Array.size a)).
Proof.
  intros [Hlen Hcap]. unfold Array.array_add, Array.consistent.
  destruct (Nat.eqb_spec (Array.cap a) (Array.size a)) as [Heq|Hne].
  - destruct (Nat.ltb_spec (max / 2) (Array.cap a)); simpl.
    + split; [done|]. split; [done|]. split; [|done]. split; [|done].
      intros _. split; [done|]. by left.
    + destruct realloc_ok; simpl.
      * rewrite length_app. simpl.
        split; [split; [lia|destruct (Nat.eqb_spec (Array.cap a) 0); lia]|].
        split; [destruct (Nat.eqb_spec (Array.cap a) 0); lia|].
        split; [|done]. split; [done|]. intros [_ [Hlt|?]]; [|done]. destruct (Nat.lt_irrefl _ (Nat.lt_le_trans _ _ _ Hlt H)).
      * split; [done|]. split; [done|]. split; [|done]. split; [|done].
        intros _. split; [done|]. by right.
  - simpl. rewrite length_app. simpl.
    split; [split; lia|]. split; [done|]. split; [|done].
    split; [done|]. intros [? _]. lia.
Qed.

Lemma X16_array_add_witness :
  let a' := Array.array_add 1000 true (Array.array_init (T := Z)) 7 in
  Array.consistent a' ∧
  (Array.cap (Array.array_init (T := Z)) ≤ Array.cap a')%nat ∧
  (Array.oom a' = true
   ↔ Array.cap (Array.array_init (T := Z)) = Array.size (Array.array_init (T := Z)) ∧
     ((1000 / 2 < Array.cap (Array.array_init (T := Z)))%nat ∨ true = false)) ∧
  (if Array.oom a'
   then Array.elems a' = Array.elems (Array.array_init (T := Z)) ∧
        Array.size a' = Array.size (Array.array_init (T := Z)) ∧
        Array.cap a' = Array.cap (Array.array_init (T := Z))
   else Array.elems a' = Array.elems (Array.array_init (T := Z)) ++ [7] ∧
        Array.size a' = S (Array.size (Array.array_init (T := Z)))).
Proof.
  apply (X16_array_add 1000 true (Array.array_init (T := Z)) 7).
  split; simpl; lia.
Defined.

(** ** One colour *)

Lemma find_node_idx_block_index (L : list Z) (s : Submap) (u : Z) :
  NoDup L → partitions L s → u ∈ L →
  _find_node_idx s u = Z.of_nat (block_index (vertices s) u).
Proof.
  intros HL Hs Hu.
  destruct (find_node_idx_found s u) as (p & b & _ & _ & Hp).
  { by apply (partitions_covers L). }
  unfold block_index, _find_node_idx in *. rewrite Hp. lia.
Qed.

(** A submap without edges puts the two ends of every edge of the graph
    into one block. *)
Lemma leaf_joins_edges (n : nat) (es : list Edge) (s0 : Submap) (e0 : Edge) :
  Forall (edge_valid n) es → reach (from_graph n es) s0 → edges s0 = [] →
  e0 ∈ es →
  block_index (vertices s0) (Z.of_nat (start_idx e0))
  = block_index (vertices s0) (Z.of_nat (end_idx e0)).
Proof.
  intros Hvalid Hreach Hleaf He0.
  destruct (reach_edges_projected n es s0 Hvalid Hreach) as [Hproj _].
  rewrite Hleaf in Hproj. apply Forall2_nil_inv_l in Hproj.
  unfold project in Hproj.
  destruct (Nat.eqb_spec (block_index (vertices s0) (Z.of_nat (start_idx e0)))
              (block_index (vertices s0) (Z.of_nat (end_idx e0)))) as [|Hne]; [done|].
  exfalso.
  assert (mkEdge (block_index (vertices s0) (Z.of_nat (start_idx e0))
                  `min` block_index (vertices s0) (Z.of_nat (end_idx e0)))
                 (block_index (vertices s0) (Z.of_nat (start_idx e0))
                  `max` block_index (vertices s0) (Z.of_nat (end_idx e0)))
          ∈ ([] : list Edge)) as Hin; [|by apply elem_of_nil in Hin].
  rewrite <- Hproj. apply list_elem_of_In, in_flat_map.
  exists e0. split; [by apply list_elem_of_In|].
  destruct (Nat.eqb_spec (block_index (vertices s0) (Z.of_nat (start_idx e0)))
              (block_index (vertices s0) (Z.of_nat (end_idx e0)))); [done|].
  by left.
Qed.

(** The first submap of a children-first list has no edge. *)
Lemma first_is_leaf (l : list Submap) (s0 : Submap) :
  children_first l → l !! 0%nat = Some s0 → edges_valid s0 → edges s0 = [].
Proof.
  intros Hcf H0 Hvalid. destruct (edges s0) as [|e es'] eqn:Hes; [done|].
  assert (contract s0 e ∈ get_direct_submaps s0) as Hc.
  { apply elem_of_get_direct_submaps. exists e. split; [|done].
    rewrite Hes. by left. }
  destruct (child_blocks s0 _ Hvalid Hc) as [Hlen _].
  destruct (Hcf 0%nat s0 _ H0 Hlen Hc) as (q & Hq & _). lia.
Qed.

(** Contracting an edge keeps every block inside one block of a submap
    that joins the ends of every edge of the graph. *)
Lemma blocks_joined_step (n : nat) (es : list Edge) (s0 y c : Submap) :
  Forall (edge_valid n) es → partitions (graph_labels n) s0 →
  (∀ e0, e0 ∈ es →
         block_index (vertices s0) (Z.of_nat (start_idx e0))
         = block_index (vertices s0) (Z.of_nat (end_idx e0))) →
  reach (from_graph n es) y → blocks_joined s0 y →
  c ∈ get_direct_submaps y → blocks_joined s0 c.
Proof.
  intros Hvalid Hs0 Hleaf Hreach Hy Hc.
  apply elem_of_get_direct_submaps in Hc as (e & He & ->).
  pose proof (reach_edges_valid _ _ Hreach (from_graph_edges_valid n es Hvalid))
    as Hyvalid.
  pose proof (reach_partitions _ _ _ Hreach (from_graph_edges_valid n es Hvalid)
                (from_graph_partitions n es)) as Hypart.
  pose proof (graph_labels_NoDup n) as HL.
  assert (edge_valid (length (vertices y)) e) as (Hs & Ht & Hne).
  { eapply Forall_forall in Hyvalid; done. }
  destruct (reach_edges_projected n es y Hvalid Hreach) as [Hproj _].
  apply list_elem_of_lookup in He as [k Hk].
  destruct (Forall2_lookup_l _ _ _ _ _ Hproj Hk) as (e' & He' & Hsame).
  apply list_elem_of_lookup_2, list_elem_of_In, in_flat_map in He'
    as (e0 & He0%list_elem_of_In & He').
  assert (edge_valid n e0) as (Hs0' & Ht0 & _).
  { eapply Forall_forall in Hvalid; done. }
  destruct (block_index_found _ y (Z.of_nat (start_idx e0)) HL Hypart
              (graph_labels_elem_of _ _ Hs0')) as (p & vp & Hp & Hinp & Hidxp).
  destruct (block_index_found _ y (Z.of_nat (end_idx e0)) HL Hypart
              (graph_labels_elem_of _ _ Ht0)) as (q & vq & Hq & Hinq & Hidxq).
  unfold project in He'. rewrite Hidxp, Hidxq in He'.
  destruct (Nat.eqb_spec p q) as [|Hpq]; [destruct He'|].
  destruct He' as [<-|[]].
  assert (_find_node_idx s0 (Z.of_nat (start_idx e0))
          = _find_node_idx s0 (Z.of_nat (end_idx e0))) as Hends.
  { rewrite !(find_node_idx_block_index (graph_labels n))
      by (done || by apply graph_labels_elem_of).
    by rewrite (Hleaf e0 He0). }
  assert (∀ a, a ∈ vertices y !!! lo e ++ vertices y !!! hi e →
               _find_node_idx s0 a = _find_node_idx s0 (Z.of_nat (start_idx e0)))
    as Hmerged.
  { assert (∀ a, a ∈ vp ++ vq →
                 _find_node_idx s0 a = _find_node_idx s0 (Z.of_nat (start_idx e0)))
      as Hpq'.
    { intros a [Ha|Ha]%elem_of_app.
      - apply (Hy vp); [by eapply list_elem_of_lookup_2|done..].
      - rewrite Hends. apply (Hy vq); [by eapply list_elem_of_lookup_2|done..]. }
    assert (lo e = p ∧ hi e = q ∨ lo e = q ∧ hi e = p) as Hcase.
    { unfold lo, hi. destruct Hsame as [[H1 H2]|[H1 H2]]; simpl in H1, H2; lia. }
    intros a Ha. apply Hpq'.
    destruct Hcase as [[Hlo Hhi]|[Hlo Hhi]];
      rewrite Hlo, Hhi, (list_lookup_total_correct _ _ _ Hp),
              (list_lookup_total_correct _ _ _ Hq) in Ha; [done|].
    apply elem_of_app in Ha. apply elem_of_app. tauto. }
  assert (start_idx e ≠ end_idx e) as Hne' by done.
  intros v a b Hv Ha Hb. rewrite (contract_vertices y e Hne') in Hv.
  apply list_elem_of_delete_inv, list_elem_of_lookup in Hv as [i Hi].
  apply list_lookup_insert_Some in Hi as [(_ & Hv & _)|[_ Hi]].
  - rewrite <- Hv in Ha, Hb. rewrite qsort_elem_of in Ha, Hb.
    by rewrite (Hmerged a Ha), (Hmerged b Hb).
  - apply (Hy v); [by eapply list_elem_of_lookup_2|done..].
Qed.

Lemma reach_snoc (s y c : Submap) :
  reach s y → c ∈ get_direct_submaps y → reach s c.
Proof.
  induction 1 as [y|s c0 y Hc0 _ IH]; intros Hc.
  - eapply reach_step; [done|constructor].
  - eapply reach_step; [done|by apply IH].
Qed.

Lemma reach_blocks_joined (n : nat) (es : list Edge) (s0 x : Submap) :
  Forall (edge_valid n) es → partitions (graph_labels n) s0 →
  (∀ e0, e0 ∈ es →
         block_index (vertices s0) (Z.of_nat (start_idx e0))
         = block_index (vertices s0) (Z.of_nat (end_idx e0))) →
  reach (from_graph n es) x → blocks_joined s0 x.
Proof.
  intros Hvalid Hs0 Hleaf Hreach.
  apply (reach_invariant
           (λ y, reach (from_graph n es) y ∧ blocks_joined s0 y)
           (from_graph n es) x); [|done|].
  - intros y c [Hy Hj] Hc. split; [by eapply reach_snoc|].
    by eapply blocks_joined_step.
  - split; [constructor|]. intros v a b Hv Ha Hb.
    pose proof (from_graph_singletons n es) as Hone.
    eapply Forall_forall in Hone; [|done].
    destruct v as [|c [|c' v]]; simpl in Hone; [| |lia].
    + by apply elem_of_nil in Ha.
    + apply list_elem_of_singleton in Ha, Hb. by subst.
Qed.

Lemma coefficient_sum_insert (P : list Z) (k : nat) (c : Z) :
  (k < length P)%nat →
  coefficient_sum (<[k := c]> P) = coefficient_sum P - P !!! k + c.
Proof.
  revert k. induction P as [|p P IH]; intros k Hk; simpl in Hk; [lia|].
  destruct k as [|k]; simpl.
  - change ((p :: P) !!! 0%nat) with p. lia.
  - change ((p :: P) !!! S k) with (P !!! k). rewrite IH by lia. lia.
Qed.

Lemma coefficient_sum_zeros (n : nat) : coefficient_sum (replicate n 0) = 0.
Proof. induction n as [|n IH]; [done|]. simpl. exact IH. Qed.

Lemma add_mobius_sum (submaps : list Submap) (ps : list (nat * Z)) (P : list Z) :
  (∀ p, p ∈ ps → (length (vertices (submaps !!! p.1)) - 1 < length P)%nat) →
  coefficient_sum (foldl (add_mobius submaps) P ps)
  = coefficient_sum P + coefficient_sum (ps.*2).
Proof.
  revert P. induction ps as [|p ps IH]; intros P Hps; [simpl; lia|].
  cbn [foldl]. rewrite fmap_cons.
  change (coefficient_sum (p.2 :: ps.*2)) with (p.2 + coefficient_sum (ps.*2)).
  rewrite IH.
  - unfold add_mobius. rewrite coefficient_sum_insert by (apply Hps; by left).
    lia.
  - intros p' Hp'. unfold add_mobius. rewrite length_insert. apply Hps. by right.
Qed.

Lemma snd_imap_pair (g : nat → nat) (l : list Z) :
  (imap (λ i c, (g i, c)) l).*2 = l.
Proof.
  revert g. induction l as [|c l IH]; intros g; simpl; [done|].
  f_equal. apply (IH (λ i, g (S i))).
Qed.

Lemma polynomial_eval_one_shift (g : nat → nat) (P : list Z) :
  foldr (λ (p : nat * Z) acc, p.2 * 1 ^ Z.of_nat (S p.1) + acc) 0
        (imap (λ i c, (g i, c)) P)
  = coefficient_sum P.
Proof.
  revert g. induction P as [|c P IH]; intros g; simpl; [done|].
  rewrite Z.pow_1_l by lia. f_equal; [lia|]. apply (IH (λ i, g (S i))).
Qed.

Lemma polynomial_eval_one (P : list Z) : polynomial_eval P 1 = coefficient_sum P.
Proof. apply (polynomial_eval_one_shift (λ i, i)). Qed.

Lemma sum_upto_lookup_shift (f : nat → Z) (a : nat) (u : list Z) :
  (∀ i, (i < length u)%nat → f (a + i)%nat = u !!! i) →
  foldr (λ t acc, f t + acc) 0 (seq a (length u)) = coefficient_sum u.
Proof.
  revert a. induction u as [|c u IH]; intros a Hf; simpl; [done|].
  f_equal.
  - specialize (Hf 0%nat ltac:(simpl; lia)). by rewrite Nat.add_0_r in Hf.
  - apply IH. intros i Hi. specialize (Hf (S i) ltac:(simpl; lia)).
    change ((c :: u) !!! S i) with (u !!! i) in Hf. rewrite <- Hf.
    f_equal. lia.
Qed.

Lemma sum_upto_lookup (u : list Z) :
  sum_upto (length u) (λ t, u !!! t) = coefficient_sum u.
Proof. by apply sum_upto_lookup_shift. Qed.

(** X17: a graph with at least one edge cannot be coloured with one
    colour, and the computed polynomial agrees: for every graph whose
    edges are in range and join distinct vertices, and that has an edge,
    the pipeline returns [n] coefficients whose polynomial vanishes at 1
    (the coefficients sum to zero). *)
Theorem X17_one_colour (graph_changed : nat → bool) (junk : nat → nat → Z)
    (n : nat) (es : list Edge) :
  never_set graph_changed → Forall (edge_valid n) es → es ≠ [] →
  ∃ P, pipeline graph_changed junk n es = Some P ∧ length P = n ∧
       coefficient_sum P = 0 ∧ polynomial_eval P 1 = 0.
Proof.
  intros Hquiet Hvalid Hes.
  pose proof (from_graph_edges_valid n es Hvalid) as Hroot.
  pose proof (graph_labels_NoDup n) as HL.
  destruct (get_all_submaps_visits graph_changed Hquiet (from_graph n es)
              init_globals eq_refl) as (l' & g1 & Heq & Hstop & Hcf & _ & Hl').
  destruct (ordering_matrix_entries graph_changed Hquiet junk
              (l' ++ [from_graph n es]) g1 Hstop)
    as (M & g2 & HeqM & _ & Hshape & Hsize & Hentries).
  unfold pipeline. rewrite Heq, HeqM. eexists. split; [done|].
  assert (∀ k x, (l' ++ [from_graph n es]) !! k = Some x → reach (from_graph n es) x)
    as Hreach.
  { intros k x Hk.
    apply list_elem_of_lookup_2, elem_of_app in Hk as [Hx|Hx%list_elem_of_singleton].
    - by apply proper_reach_reach, Hl'.
    - subst. constructor. }
  assert (∀ k x, (l' ++ [from_graph n es]) !! k = Some x →
                 partitions (graph_labels n) x) as Hpart.
  { intros k x Hk.
    apply (reach_partitions _ (from_graph n es)); [|done|apply from_graph_partitions].
    by eapply Hreach. }
  (* the list has a second element *)
  destruct es as [|e es]; [done|].
  assert (contract (from_graph n (e :: es)) e
          ∈ get_direct_submaps (from_graph n (e :: es))) as Hc.
  { apply elem_of_get_direct_submaps. exists e. split; [|done].
    rewrite from_graph_edges. by left. }
  destruct (child_blocks _ _ Hroot Hc) as [Hn _].
  destruct (Hcf (length l') (from_graph n (e :: es)) _
              ltac:(by rewrite lookup_app_r, Nat.sub_diag by lia) Hn Hc)
    as (q & Hq & _).
  destruct l' as [|s0 l']; [simpl in Hq; lia|].
  (* its first element has no edge *)
  assert (reach (from_graph n (e :: es)) s0) as Hs0 by (by apply (Hreach 0%nat)).
  assert (edges s0 = []) as Hleaf.
  { eapply first_is_leaf; [done|done|]. by eapply reach_edges_valid. }
  assert (partitions (graph_labels n) s0) as Hs0part by (by apply (Hpart 0%nat)).
  (* so its row of the matrix holds 1 everywhere *)
  assert (∀ t, (t < size M)%nat → entry M 0 t = 1) as Hrow.
  { intros t Ht. rewrite Hsize in Ht.
    destruct (lookup_lt_is_Some_2 _ t Ht) as [st Hst].
    rewrite (Hentries 0%nat t s0 st eq_refl Hst). unfold order_value.
    assert (submap_ge st s0 = true) as ->; [|done].
    apply submap_ge_true. intros v Hv.
    assert (blocks_joined s0 st) as Hj.
    { apply (reach_blocks_joined n (e :: es)); try done; [|by eapply Hreach].
      intros e0 He0. by apply (leaf_joins_edges n (e :: es)). }
    destruct v as [|a v]; [exists 0; by intros ? ?%elem_of_nil|].
    exists (_find_node_idx s0 a). intros b Hb. apply (Hj (a :: v)); [done..|by left]. }
  assert (unit_upper_triangular M) as Htri.
  { intros i j Hi Hj. rewrite Hsize in Hi, Hj.
    destruct (lookup_lt_is_Some_2 _ i Hi) as [si Hsi].
    destruct (lookup_lt_is_Some_2 _ j Hj) as [sj Hsj].
    rewrite (Hentries i j si sj Hsi Hsj). unfold order_value. split.
    - intros ->. simplify_eq. rewrite Nat.leb_refl, submap_ge_refl; [done|].
      apply (partitions_disjoint (graph_labels n)); [done|by eapply Hpart].
    - intros Hlt. destruct (Nat.leb_spec i j); [lia|done]. }
  destruct (get_mobius_inv M Htri) as (Hlen & _ & Hsum & _).
  rewrite length_app in Hsize. simpl in Hsize.
  specialize (Hsum 0%nat ltac:(lia)).
  rewrite (sum_upto_ext _ (λ t, get_mobius_of_column M !!! t)) in Hsum
    by (intros t Ht; rewrite Hrow by done; lia).
  destruct (Nat.eqb_spec 0 (size M - 1)) as [|_]; [lia|].
  rewrite <- Hlen, sum_upto_lookup in Hsum.
  assert (coefficient_sum
            (get_chromatic_polynomial n ((s0 :: l') ++ [from_graph n (e :: es)]) M) = 0)
    as Hzero.
  { rewrite get_chromatic_polynomial_unfold, add_mobius_sum.
    - rewrite (snd_imap_pair (λ i, i)), Hsum, coefficient_sum_zeros. done.
    - intros p (i & c & -> & Hi)%elem_of_lookup_imap.
      apply lookup_lt_Some in Hi. rewrite Hlen in Hi. simpl.
      destruct (lookup_lt_is_Some_2 ((s0 :: l') ++ [from_graph n (e :: es)]) i)
        as [x Hx]; [rewrite length_app; simpl; lia|].
      rewrite (list_lookup_total_correct _ _ _ Hx), length_replicate.
      pose proof (reach_blocks_bounds _ _ (Hreach _ _ Hx) Hroot ltac:(lia)) as Hb.
      rewrite from_graph_length in Hb. lia. }
  split; [|split; [done|by rewrite polynomial_eval_one]].
  by rewrite get_chromatic_polynomial_unfold, add_mobius_length, length_replicate.
Qed.

Lemma X17_one_colour_witness :
  ∃ P, pipeline quiet (λ _ _, 0) 3 triangle = Some P ∧ length P = 3%nat ∧
       coefficient_sum P = 0 ∧ polynomial_eval P 1 = 0.
Proof.
  apply (X17_one_colour quiet (λ _ _, 0) 3 triangle).
  - apply quiet_never_set.
  - apply triangle_valid.
  - done.
Defined.

(** ** A pass of the worker *)

Lemma ordering_row_size (submaps : list Submap) (i : nat) (s1 : Submap)
    (M : WYMatrix) :
  size (ordering_row submaps i s1 M) = size M.
Proof.
  unfold ordering_row. generalize (imap pair submaps). intros ps.
  revert M. induction ps as [|p ps IH]; intros M; simpl; [done|].
  rewrite IH. by destruct (_ && _).
Qed.

Lemma ordering_rows_post (graph_changed : nat → bool) (submaps : list Submap)
    (rows : list (nat * Submap)) (M : WYMatrix) (g : Globals) :
  stop_flag g = false → cur_submap_count g = 0%nat →
  ∃ M' g', ordering_rows graph_changed submaps rows M g = (M', g') ∧
           size M' = size M ∧ _all_submaps g' = _all_submaps g ∧
           stop_flag g' = false ∧ cur_submap_count g' = 0%nat ∧
           cur_matrix_rows_count g' = 0%nat.
Proof.
  revert M g. induction rows as [|[i s1] rows IH]; intros M g Hstop Hcount; simpl.
  - by eexists _, _.
  - rewrite Hstop, orb_false_r.
    destruct (graph_changed (polls g)); [by eexists _, _|].
    destruct (IH (ordering_row submaps i s1 M)
                (tick (set_cur_matrix_rows_count (S (cur_matrix_rows_count g)) g))
                Hstop Hcount) as (M' & g' & -> & HM & Hall & ? & ? & ?).
    eexists _, _. split; [done|]. by rewrite HM, ordering_row_size.
Qed.

(** X18: a pass of the worker's loop ends for every behaviour of the
    signal and every snapshot of the graph whose edge indices are below
    the number of active nodes and without self-loop.  With the flag clear
    it changes nothing that is visible.  With the flag set and no active
    node it leaves the loading marker and an empty coefficient array.
    Otherwise it publishes the coefficient array it computed, of one entry
    per active node, over a duplicate-free list of contractions of the
    snapshot (each with edge indices in range) and a matrix of the size of
    that list; the cancellation flag is clear and both progress counters
    are zero again.  If the signal is set again at the first poll of the
    enumeration, the list is empty and the array holds only zeros, for
    which [set_output_to_polynomial] reads [degree] unassigned. *)
Theorem X18_pass (graph_changed : nat → bool) (junk : nat → nat → Z)
    (nodes : list Node) (es : list Edge) (w : Worker) :
  Forall (edge_valid (active_node_count nodes)) es →
  ∃ w', calculate_iteration graph_changed junk nodes es w = Some w' ∧
    if negb (graph_changed (polls (globals w))) then
      all_submaps w' = all_submaps w ∧
      chromatic_polynomial w' = chromatic_polynomial w ∧
      output w' = output w ∧ trace w' = trace w
    else if (active_node_count nodes =? 0)%nat then
      output w' = OutLoading ∧ chromatic_polynomial w' = [] ∧
      all_submaps w' = all_submaps w
    else
      output w' = OutPolynomial (chromatic_polynomial w') ∧
      length (chromatic_polynomial w') = active_node_count nodes ∧
      all_submaps w' = _all_submaps (globals w') ∧ NoDup (all_submaps w') ∧
      (∀ x, x ∈ all_submaps w' →
            reach (from_graph (active_node_count nodes) es) x ∧ edges_valid x) ∧
      size (local_M w') = length (all_submaps w') ∧
      stop_flag (globals w') = false ∧
      cur_submap_count (globals w') = 0%nat ∧
      cur_matrix_rows_count (globals w') = 0%nat ∧
      (graph_changed (S (polls (globals w))) = true →
       all_submaps w' = [] ∧
       chromatic_polynomial w' = replicate (active_node_count nodes) 0 ∧
       set_output_to_polynomial (chromatic_polynomial w') = None).
Proof.
  intros Hvalid. unfold calculate_iteration.
  destruct (graph_changed (polls (globals w))) eqn:Hchanged; simpl;
    [|by eexists].
  destruct (Nat.eqb_spec (active_node_count nodes) 0) as [|Hn]; [by eexists|].
  unfold get_all_submaps.
  match goal with
  | |- context [_handle ?gc ?fuel ?s ?g] =>
      destruct (handle_sound gc fuel s g)
        as (g1 & added & -> & Heq & Hnd & Hreach & Hstop & _);
        [lia|apply NoDup_nil_2|]
  end.
  simpl in Heq, Hstop. unfold get_ordering_matrix.
  match goal with
  | |- context [ordering_rows ?gc ?l ?rows ?M ?g] =>
      destruct (ordering_rows_post gc l rows M g eq_refl eq_refl)
        as (M' & g2 & HeqM & Hsize & Hall & Hstop2 & Hcount & Hrows)
  end.
  simpl in HeqM, Hall. simpl. rewrite HeqM. eexists. split; [done|]. simpl.
  rewrite matrix_init_size in Hsize.
  split; [done|]. split.
  { by rewrite get_chromatic_polynomial_unfold, add_mobius_length, length_replicate. }
  split; [done|]. split; [done|]. split.
  { rewrite Heq. intros x Hx. split; [by apply Hreach|].
    eapply reach_edges_valid; [by apply Hreach|].
    by apply from_graph_edges_valid. }
  split; [done|]. split; [done|]. split; [done|]. split; [done|].
  intros Hagain. rewrite Hagain in Hstop. specialize (Hstop eq_refl).
  rewrite Heq, Hstop in *. split; [done|].
  assert (get_chromatic_polynomial (active_node_count nodes) [] M'
          = replicate (active_node_count nodes) 0) as ->.
  { rewrite get_chromatic_polynomial_unfold.
    destruct (get_mobius_shape M') as [Hlen _]. rewrite Hsize in Hlen.
    simpl in Hlen. rewrite Heq in Hlen. by destruct (get_mobius_of_column M'). }
  split; [done|]. apply set_output_to_polynomial_zeros. lia.
Qed.

Lemma X18_pass_witness :
  ∃ w', calculate_iteration changed_once (λ _ _, 0) three_nodes triangle init_worker
        = Some w' ∧
    if negb (changed_once (polls (globals init_worker))) then
      all_submaps w' = all_submaps init_worker ∧
      chromatic_polynomial w' = chromatic_polynomial init_worker ∧
      output w' = output init_worker ∧ trace w' = trace init_worker
    else if (active_node_count three_nodes =? 0)%nat then
      output w' = OutLoading ∧ chromatic_polynomial w' = [] ∧
      all_submaps w' = all_submaps init_worker
    else
      output w' = OutPolynomial (chromatic_polynomial w') ∧
      length (chromatic_polynomial w') = active_node_count three_nodes ∧
      all_submaps w' = _all_submaps (globals w') ∧ NoDup (all_submaps w') ∧
      (∀ x, x ∈ all_submaps w' →
            reach (from_graph (active_node_count three_nodes) triangle) x ∧
            edges_valid x) ∧
      size (local_M w') = length (all_submaps w') ∧
      stop_flag (globals w') = false ∧
      cur_submap_count (globals w') = 0%nat ∧
      cur_matrix_rows_count (globals w') = 0%nat ∧
      (changed_once (S (polls (globals init_worker))) = true →
       all_submaps w' = [] ∧
       chromatic_polynomial w' = replicate (active_node_count three_nodes) 0 ∧
       set_output_to_polynomial (chromatic_polynomial w') = None).
Proof.
  apply (X18_pass changed_once (λ _ _, 0) three_nodes triangle init_worker).
  apply triangle_valid.
Defined.

(** ** The editor *)

Lemma remove_finished_loop_spec (post pre : list Node) (sel : Z) (fuel : nat) :
  (length post ≤ fuel)%nat → Z.of_nat (length (pre ++ post)) < 2 ^ 31 →
  - 2 ^ 31 + Z.of_nat (length post) ≤ sel < 2 ^ 31 →
  ∃ sel', remove_finished_loop fuel (length pre) (pre ++ post) sel
          = Some (pre ++ filter (λ node, finished node = false) post, sel') ∧
          (sel < 0 →
           sel' = sel - (Z.of_nat (length post)
                         - Z.of_nat (length (filter (λ node, finished node = false) post)))) ∧
          (0 ≤ sel → ∀ node,
             (pre ++ post) !! Z.to_nat sel = Some node → finished node = false →
             0 ≤ sel' ∧
             (pre ++ filter (λ node, finished node = false) post) !! Z.to_nat sel'
             = Some node).
Proof.
  revert pre sel fuel.
  induction post as [|nd post IH]; intros pre sel fuel Hfuel Hlen Hsel.
  - assert (remove_finished_loop fuel (length pre) (pre ++ []) sel
            = Some (pre ++ [], sel)) as ->.
    { destruct fuel; simpl; by rewrite lookup_ge_None_2 by (rewrite length_app; simpl; lia). }
    exists sel. split; [done|]. split; [simpl; lia|]. intros ? node ? ?. split; [lia|done].
  - destruct fuel as [|fuel]; [simpl in Hfuel; lia|].
    rewrite length_app in Hlen. simpl in Hfuel, Hlen, Hsel.
    cbn [remove_finished_loop]. rewrite list_lookup_middle by done.
    destruct (finished nd) eqn:Hnd.
    + rewrite filter_cons_False by (by rewrite Hnd).
      assert (delete (length pre) (pre ++ nd :: post) = pre ++ post) as ->.
      { rewrite delete_middle; done. }
      destruct (IH pre (if Z.of_nat (length pre) <? sel `mod` 2 ^ 64
                        then sel - 1 else sel) fuel) as (sel' & -> & Hneg & Hpos).
      { lia. }
      { rewrite length_app. lia. }
      { destruct (Z.ltb_spec (Z.of_nat (length pre)) (sel `mod` 2 ^ 64)); [|lia].
        split; [lia|lia]. }
      exists sel'. split; [done|]. split.
      * intros Hs.
        assert (sel `mod` 2 ^ 64 = 2 ^ 64 + sel) as Hmod.
        { symmetry. apply (Z.mod_unique _ _ (-1)); lia. }
        rewrite Hmod in Hneg.
        destruct (Z.ltb_spec (Z.of_nat (length pre)) (2 ^ 64 + sel)); [|lia].
        rewrite Hneg by lia. simpl length. lia.
      * intros Hs node Hnode Halive.
        rewrite Z.mod_small in Hpos by lia.
        assert (Z.to_nat sel ≠ length pre) as Hne.
        { intros Heq. rewrite Heq, list_lookup_middle in Hnode by done.
          simplify_eq. congruence. }
        destruct (Z.ltb_spec (Z.of_nat (length pre)) sel).
        -- apply (Hpos ltac:(lia) node); [|done].
           rewrite lookup_app_r in Hnode by lia. rewrite lookup_app_r by lia.
           replace (Z.to_nat sel - length pre)%nat
             with (S (Z.to_nat (sel - 1) - length pre)) in Hnode by lia.
           done.
        -- apply (Hpos Hs node); [|done].
           rewrite lookup_app_l in Hnode by lia. by rewrite lookup_app_l by lia.
    + rewrite filter_cons_True by done.
      replace (S (length pre)) with (length (pre ++ [nd]))
        by (rewrite length_app; simpl; lia).
      rewrite (cons_middle nd pre post), app_assoc.
      destruct (IH (pre ++ [nd]) sel fuel) as (sel' & -> & Hneg & Hpos).
      { lia. }
      { rewrite !length_app. simpl. lia. }
      { lia. }
      exists sel'. rewrite (cons_middle nd pre (filter _ post)), app_assoc.
      split; [done|]. split; [|done].
      intros Hs. rewrite Hneg by done. simpl length. lia.
Qed.

(** X19: the loop that opens a frame always ends; it removes exactly the
    nodes that are marked deleted and whose animation is over, and keeps
    the others in their order.  A selection keeps pointing at the same
    node when that node stays; with no selection the index stays negative
    (it is decremented once for every removed node). *)
Theorem X19_remove_finished_nodes (nodes : list Node) (selected_idx : Z) :
  Z.of_nat (length nodes) < 2 ^ 31 →
  - 2 ^ 31 + Z.of_nat (length nodes) ≤ selected_idx < 2 ^ 31 →
  ∃ nodes' sel',
    remove_finished_nodes nodes selected_idx = Some (nodes', sel') ∧
    nodes' = filter (λ node, finished node = false) nodes ∧
    (selected_idx < 0 →
     sel' = selected_idx - (Z.of_nat (length nodes) - Z.of_nat (length nodes'))
     ∧ sel' < 0) ∧
    (0 ≤ selected_idx → ∀ node,
       nodes !! Z.to_nat selected_idx = Some node → finished node = false →
       0 ≤ sel' ∧ nodes' !! Z.to_nat sel' = Some node).
Proof.
  intros Hlen Hsel.
  destruct (remove_finished_loop_spec nodes [] selected_idx (length nodes))
    as (sel' & Heq & Hneg & Hpos); [done..|].
  exists (filter (λ node, finished node = false) nodes), sel'.
  split; [done|]. split; [done|]. split; [|done].
  intros Hs. split; [by apply Hneg|]. rewrite Hneg by done.
  pose proof (length_filter (λ node, finished node = false) nodes). lia.
Qed.

Lemma X19_remove_finished_nodes_witness :
  ∃ nodes' sel',
    remove_finished_nodes
      [mkNode 0 0 false true 0 0; mkNode 10 10 true false 0 0] 1
    = Some (nodes', sel') ∧
    nodes' = filter (λ node, finished node = false)
               [mkNode 0 0 false true 0 0; mkNode 10 10 true false 0 0] ∧
    (1 < 0 →
     sel' = 1 - (Z.of_nat (length [mkNode 0 0 false true 0 0;
                                    mkNode 10 10 true false 0 0])
                 - Z.of_nat (length nodes'))
     ∧ sel' < 0) ∧
    (0 ≤ 1 → ∀ node,
       [mkNode 0 0 false true 0 0; mkNode 10 10 true false 0 0] !! Z.to_nat 1
       = Some node →
       finished node = false →
       0 ≤ sel' ∧ nodes' !! Z.to_nat sel' = Some node).
Proof.
  apply (X19_remove_finished_nodes
           [mkNode 0 0 false true 0 0; mkNode 10 10 true false 0 0] 1).
  - simpl. lia.
  - simpl. lia.
Defined.

Lemma get_node_idx_loop_spec (i : nat) (nodes : list Node) (x_ y_ : Z) :
  get_node_idx_loop i nodes x_ y_ = -1 ∨
  ∃ k node, get_node_idx_loop i nodes x_ y_ = Z.of_nat (i + k) ∧
            nodes !! k = Some node ∧ deleted node = false.
Proof.
  revert i. induction nodes as [|nd nodes IH]; intros i; simpl; [by left|].
  destruct (deleted nd) eqn:Hnd; simpl.
  - destruct (IH (S i)) as [->|(k & node & -> & ? & ?)]; [by left|].
    right. exists (S k), node. split; [f_equal; lia|done].
  - destruct (_ <? 400).
    + right. exists 0%nat, nd. split; [f_equal; lia|done].
    + destruct (IH (S i)) as [->|(k & node & -> & ? & ?)]; [by left|].
      right. exists (S k), node. split; [f_equal; lia|done].
Qed.

Lemma active_node_count_app (l1 l2 : list Node) :
  active_node_count (l1 ++ l2) = (active_node_count l1 + active_node_count l2)%nat.
Proof.
  induction l1 as [|nd l1 IH]; [done|].
  rewrite <- app_comm_cons, !active_node_count_cons, IH. lia.
Qed.

Lemma active_node_count_le (nodes : list Node) :
  (active_node_count nodes ≤ length nodes)%nat.
Proof.
  induction nodes as [|nd nodes IH]; [done|].
  rewrite active_node_count_cons. simpl. destruct (deleted nd); lia.
Qed.

(** Fewer active nodes than positions stand before a position that comes
    after a node marked deleted. *)
Lemma active_node_count_take_lt (nodes : list Node) (d b : nat) (nd : Node) :
  nodes !! d = Some nd → deleted nd = true → (d < b)%nat →
  (active_node_count (take b nodes) < b)%nat.
Proof.
  intros Hd Hdel Hlt.
  rewrite <- (take_drop_middle nodes d nd Hd).
  assert (length (take d nodes) = d) as Hlen.
  { apply lookup_lt_Some in Hd. rewrite length_take. lia. }
  rewrite take_app_ge by lia. rewrite Hlen.
  replace (b - d)%nat with (S (b - d - 1)) by lia. rewrite firstn_cons.
  rewrite active_node_count_app, active_node_count_cons, Hdel.
  pose proof (active_node_count_le (take d nodes)).
  pose proof (active_node_count_le (take (b - d - 1) (drop (S d) nodes))).
  rewrite length_take in *. lia.
Qed.

(** X20: an edge is stored with the positions of its nodes in the node
    array, while [draw_edge_at_idx] and the worker read its indices as
    positions among the active nodes.  When an edge drag ends on node [b]
    while a node before [b] is marked deleted and still kept for its
    animation, the stored end [b] therefore denotes a later node, or none
    at all: then the edge list is out of range for the graph the worker
    builds and [get_ith_active_node_idx] finds no node for it. *)
Theorem X20_edge_while_node_disappears (nodes : list Node) (es : list Edge)
    (mouse_x mouse_y : Z) (a b d : nat) (nd : Node) :
  get_node_idx_at_coords nodes mouse_x mouse_y = Z.of_nat b → a ≠ b →
  nodes !! d = Some nd → deleted nd = true → (d < b)%nat →
  Z.of_nat b < UINT_MAX →
  ∃ es', finish_edge nodes es (Z.of_nat a) true true mouse_x mouse_y
         = (es', false, true) ∧
         (∃ e, e ∈ es' ∧ same_pair e (mkEdge a b)) ∧
         (∃ node, nodes !! b = Some node ∧ deleted node = false) ∧
         if (active_node_count nodes <=? b)%nat
         then get_ith_active_node_idx nodes (Z.of_nat b) = None ∧
              ¬ Forall (edge_valid (active_node_count nodes)) es'
         else ∃ j, get_ith_active_node_idx nodes (Z.of_nat b) = Some j ∧ (b < j)%nat.
Proof.
  intros Hb Hab Hd Hdel Hlt Hmax.
  unfold finish_edge. rewrite Hb.
  assert ((Z.of_nat a <? 0) = false) as -> by lia.
  assert ((0 <=? Z.of_nat b) = true) as -> by lia.
  assert ((Z.of_nat a =? Z.of_nat b) = false) as -> by lia.
  simpl. rewrite !Nat2Z.id. eexists. split; [done|].
  assert (∃ e, e ∈ add_edge es a b ∧ same_pair e (mkEdge a b)) as Hpresent.
  { destruct (add_edge_cases es a b) as [[-> ?]|[-> _]]; [done|].
    exists (mkEdge a b). split; [|by left].
    apply elem_of_app. right. by left. }
  split; [done|]. split.
  { unfold get_node_idx_at_coords in Hb.
    destruct (get_node_idx_loop_spec 0 nodes mouse_x mouse_y)
      as [Hnone|(k & node & Hk & Hnode & Halive)]; [lia|].
    exists node. rewrite Hk in Hb. by replace b with k by lia. }
  pose proof (active_node_count_take_lt nodes d b nd Hd Hdel Hlt) as Hcount.
  destruct (Nat.leb_spec (active_node_count nodes) b) as [Hle|Hgt].
  - split; [apply get_ith_active_node_loop_none; lia|].
    intros Hvalid. destruct Hpresent as (e & He & Hsame).
    eapply Forall_forall in Hvalid; [|done]. destruct Hvalid as (? & ? & _).
    destruct Hsame as [[? ?]|[? ?]]; simpl in *; lia.
  - destruct (get_ith_active_node_loop_found 0 nodes (Z.of_nat b))
      as (j & node & Hj & Hnode & _ & Hbefore); [lia..|].
    exists j. split; [done|].
    destruct (Nat.lt_trichotomy j b) as [Hjb|[->|?]]; [| |done].
    + pose proof (active_node_count_le (take j nodes)) as Hle.
      rewrite length_take in Hle. lia.
    + lia.
Qed.

Lemma X20_edge_while_node_disappears_witness :
  ∃ es', finish_edge disappearing [] (Z.of_nat 1) true true 300 100
         = (es', false, true) ∧
         (∃ e, e ∈ es' ∧ same_pair e (mkEdge 1 2)) ∧
         (∃ node, disappearing !! 2%nat = Some node ∧ deleted node = false) ∧
         if (active_node_count disappearing <=? 2)%nat
         then get_ith_active_node_idx disappearing (Z.of_nat 2) = None ∧
              ¬ Forall (edge_valid (active_node_count disappearing)) es'
         else ∃ j, get_ith_active_node_idx disappearing (Z.of_nat 2) = Some j
                   ∧ (2 < j)%nat.
Proof.
  apply (X20_edge_while_node_disappears disappearing [] 300 100 1 2 0
           (mkNode 100 100 false true 0 30)).
  - reflexivity.
  - lia.
  - reflexivity.
  - reflexivity.
  - lia.
  - reflexivity.
Defined.

(** ** The coefficient below the leading one *)

Lemma block_index_root (n : nat) (es : list Edge) (a : nat) :
  (a < n)%nat → block_index (vertices (from_graph n es)) (Z.of_nat a) = a.
Proof.
  intros Ha.
  apply (block_index_unique (graph_labels n) _ _ a [Z.of_nat a]);
    [apply graph_labels_NoDup|apply from_graph_partitions| |by left].
  rewrite from_graph_vertices, list_lookup_fmap, lookup_seq_lt by done. done.
Qed.

Lemma renumber_collision (i j p q : nat) :
  (i < j)%nat → p ≠ q → renumber i j p = renumber i j q →
  (p = i ∧ q = j) ∨ (p = j ∧ q = i).
Proof. unfold renumber. intros Hij Hpq. split_tests; lia. Qed.

(** Labels that share a block keep sharing one under contractions. *)
Lemma reach_keeps_together (L : list Z) (y x : Submap) (u w : Z) :
  NoDup L → edges_valid y → partitions L y → reach y x → u ∈ L → w ∈ L →
  block_index (vertices y) u = block_index (vertices y) w →
  block_index (vertices x) u = block_index (vertices x) w.
Proof.
  intros HL Hv Hpart Hr Hu Hw Heq.
  apply (reach_invariant
           (λ s, edges_valid s ∧ partitions L s ∧
                 block_index (vertices s) u = block_index (vertices s) w) y x);
    [|done|done].
  intros s c (Hsv & Hsp & Hs) Hc. split; [|split].
  - eapply reach_edges_valid; [|done]. by repeat econstructor.
  - apply elem_of_get_direct_submaps in Hc as (e & He & ->).
    by apply contract_partitions.
  - apply elem_of_get_direct_submaps in Hc as (e & He & ->).
    by rewrite !(block_index_contract L s e), Hs.
Qed.

(** Labels that share a block of [x] share a block of every submap that
    [submap_ge] finds below [x]. *)
Lemma submap_ge_together (L : list Z) (x c : Submap) (u w : Z) :
  NoDup L → partitions L x → partitions L c → submap_ge x c = true →
  u ∈ L → w ∈ L →
  block_index (vertices x) u = block_index (vertices x) w →
  block_index (vertices c) u = block_index (vertices c) w.
Proof.
  intros HL Hx Hc Hge Hu Hw Heq.
  destruct (block_index_found L x u HL Hx Hu) as (p & v & Hp & Huv & Hpu).
  destruct (block_index_found L x w HL Hx Hw) as (p' & v' & Hp' & Hwv & Hpw).
  assert (p' = p) as -> by congruence. simplify_eq.
  destruct (proj1 (submap_ge_true x c) Hge v) as [idx Hidx].
  { by eapply list_elem_of_lookup_2. }
  pose proof (Hidx u Huv) as H1. pose proof (Hidx w Hwv) as H2.
  rewrite (find_node_idx_block_index L) in H1, H2 by done. lia.
Qed.

Lemma contract_same_pair (s : Submap) (e1 e2 : Edge) :
  same_pair e1 e2 → contract s e1 = contract s e2.
Proof.
  destruct e1 as [k1 l1], e2 as [k2 l2].
  intros [[? ?]|[? ?]]; simplify_eq/=; [done|].
  unfold contract; simpl.
  destruct (Nat.ltb_spec l2 k2), (Nat.ltb_spec k2 l2); try done; try lia.
  by replace l2 with k2 by lia.
Qed.

(** A submap obtained by contractions that [submap_ge] finds above its
    origin is the origin. *)
Lemma reach_submap_ge_eq (L : list Z) (y x : Submap) :
  NoDup L → edges_valid y → partitions L y → reach y x →
  submap_ge x y = true → x = y.
Proof.
  intros HL Hv Hpart Hr Hge.
  destruct (reach_cases y x Hr) as [|(c & Hc & Hcx)]; [done|]. exfalso.
  pose proof Hc as Hc'.
  apply elem_of_get_direct_submaps in Hc as (e & He & ->).
  assert (edge_valid (length (vertices y)) e) as (Hs & Ht & Hne).
  { eapply Forall_forall in Hv; done. }
  assert (lo e < hi e ∧ hi e < length (vertices y))%nat as [Hlh Hhl]
    by (unfold lo, hi; lia).
  destruct (lookup_lt_is_Some_2 (vertices y) (lo e) ltac:(lia)) as [v1 Hv1].
  destruct (lookup_lt_is_Some_2 (vertices y) (hi e) ltac:(lia)) as [v2 Hv2].
  destruct Hpart as [Hne1 Hperm].
  assert (v1 ≠ [] ∧ v2 ≠ []) as [Hn1 Hn2].
  { split; eapply (proj1 (Forall_forall _ _) Hne1), list_elem_of_lookup_2; done. }
  destruct v1 as [|u v1]; [done|]. destruct v2 as [|w v2]; [done|].
  assert (partitions L y) as Hpart by done.
  assert (u ∈ L ∧ w ∈ L) as [Hu Hw].
  { split; apply (partitions_covers L y _ Hpart).
    - exists (u :: v1). split; [by eapply list_elem_of_lookup_2|by left].
    - exists (w :: v2). split; [by eapply list_elem_of_lookup_2|by left]. }
  pose proof (block_index_unique L y u _ _ HL Hpart Hv1 ltac:(by left)) as Hiu.
  pose proof (block_index_unique L y w _ _ HL Hpart Hv2 ltac:(by left)) as Hiw.
  assert (block_index (vertices (contract y e)) u
          = block_index (vertices (contract y e)) w) as Hsame.
  { rewrite !(block_index_contract L y e), Hiu, Hiw by done.
    unfold renumber. split_tests; lia. }
  pose proof (reach_keeps_together L (contract y e) x u w HL
                ltac:(eapply reach_edges_valid; [|done]; by repeat econstructor)
                (contract_partitions L y e Hv He Hpart) Hcx Hu Hw Hsame) as Hx.
  pose proof (submap_ge_together L x y u w HL
                (reach_partitions L y x Hr Hv Hpart) Hpart Hge Hu Hw Hx).
  lia.
Qed.

(** A proper descendant of the initial submap that [submap_ge] finds above
    a child of the initial submap is that child. *)
Lemma finer_than_child (n : nat) (es : list Edge) (e : Edge) (x : Submap) :
  Forall (edge_valid n) es → e ∈ es →
  proper_reach (from_graph n es) x →
  submap_ge x (contract (from_graph n es) e) = true →
  x = contract (from_graph n es) e.
Proof.
  intros Hvalid He (c' & Hc' & Hr) Hge.
  pose proof (graph_labels_NoDup n) as HL.
  pose proof (from_graph_edges_valid n es Hvalid) as Hroot.
  pose proof (from_graph_partitions n es) as Hpart.
  pose proof Hc' as Hchild.
  apply elem_of_get_direct_submaps in Hc' as (e' & He' & ->).
  rewrite from_graph_edges in He'.
  assert (edge_valid n e) as (Hs & Ht & Hne).
  { eapply Forall_forall in Hvalid; done. }
  assert (edge_valid n e') as (Hs' & Ht' & Hne').
  { eapply Forall_forall in Hvalid; done. }
  assert (lo e < hi e ∧ hi e < n ∧ lo e' < hi e' ∧ hi e' < n)%nat
    as (Hlh & Hhn & Hlh' & Hhn') by (unfold lo, hi; lia).
  assert (e ∈ edges (from_graph n es)) as Hein by (by rewrite from_graph_edges).
  assert (e' ∈ edges (from_graph n es)) as Hein' by (by rewrite from_graph_edges).
  assert (Z.of_nat (lo e') ∈ graph_labels n ∧ Z.of_nat (hi e') ∈ graph_labels n)
    as [Hu Hw] by (split; apply graph_labels_elem_of; lia).
  assert (block_index (vertices (contract (from_graph n es) e')) (Z.of_nat (lo e'))
          = block_index (vertices (contract (from_graph n es) e')) (Z.of_nat (hi e')))
    as Hsame.
  { rewrite !(block_index_contract (graph_labels n) _ e') by done.
    rewrite !block_index_root by lia. unfold renumber. split_tests; lia. }
  assert (edges_valid (contract (from_graph n es) e')) as Hcv.
  { eapply reach_edges_valid; [|done]. by repeat econstructor. }
  pose proof (contract_partitions _ _ e' Hroot Hein' Hpart) as Hcp.
  pose proof (reach_keeps_together _ _ x _ _ HL Hcv Hcp Hr Hu Hw Hsame) as Hx.
  pose proof (submap_ge_together (graph_labels n) x _ _ _ HL
                (reach_partitions _ _ x Hr Hcv Hcp)
                (contract_partitions _ _ e Hroot Hein Hpart) Hge Hu Hw Hx) as Hc.
  rewrite !(block_index_contract (graph_labels n) _ e) in Hc by done.
  rewrite !block_index_root in Hc by lia.
  apply renumber_collision in Hc as [[? ?]|[? ?]]; [|lia..].
  assert (contract (from_graph n es) e' = contract (from_graph n es) e) as Heq.
  { apply contract_same_pair. unfold same_pair, lo, hi in *. lia. }
  rewrite Heq in *.
  by apply (reach_submap_ge_eq (graph_labels n)).
Qed.

(** Distinct edges of a graph give distinct children of its initial
    submap. *)
Lemma root_children_NoDup (n : nat) (es : list Edge) :
  well_formed_graph n es → NoDup (contract (from_graph n es) <$> es).
Proof.
  intros [Hvalid Hnd].
  pose proof (graph_labels_NoDup n) as HL.
  pose proof (from_graph_edges_valid n es Hvalid) as Hroot.
  pose proof (from_graph_partitions n es) as Hpart.
  assert (∀ e1 e2, e1 ∈ es → e2 ∈ es →
                   contract (from_graph n es) e1 = contract (from_graph n es) e2 →
                   same_pair e1 e2) as Hinj.
  { intros e1 e2 H1 H2 Heq.
    assert (edge_valid n e1) as (Hs1 & Ht1 & Hne1).
    { eapply Forall_forall in Hvalid; done. }
    assert (edge_valid n e2) as (Hs2 & Ht2 & Hne2).
    { eapply Forall_forall in Hvalid; done. }
    assert (lo e1 < hi e1 ∧ hi e1 < n ∧ lo e2 < hi e2 ∧ hi e2 < n)%nat
      as (? & ? & ? & ?) by (unfold lo, hi; lia).
    assert (block_index (vertices (contract (from_graph n es) e1)) (Z.of_nat (lo e1))
            = block_index (vertices (contract (from_graph n es) e1)) (Z.of_nat (hi e1)))
      as Hsame.
    { rewrite !(block_index_contract (graph_labels n) _ e1)
        by (done || (by rewrite from_graph_edges) || (apply graph_labels_elem_of; lia)).
      rewrite !block_index_root by lia. unfold renumber. split_tests; lia. }
    rewrite Heq in Hsame.
    rewrite !(block_index_contract (graph_labels n) _ e2) in Hsame
      by (done || (by rewrite from_graph_edges) || (apply graph_labels_elem_of; lia)).
    rewrite !block_index_root in Hsame by lia.
    apply renumber_collision in Hsame as [[? ?]|[? ?]]; [|lia..].
    unfold same_pair, lo, hi in *. lia. }
  apply NoDup_fmap_2_strong.
  - intros e1 e2 [p Hp]%list_elem_of_lookup [q Hq]%list_elem_of_lookup Heq.
    assert (p = q) as ->; [|congruence].
    apply (Hnd p q e1 e2 Hp Hq), Hinj; [by eapply list_elem_of_lookup_2..|done].
  - apply NoDup_alt. intros p q e Hp Hq. apply (Hnd p q e e Hp Hq). by left.
Qed.

Lemma sum_upto_S (m : nat) (f : nat → Z) :
  sum_upto (S m) f = sum_upto m f + f m.
Proof.
  unfold sum_upto. rewrite seq_S, foldr_app. simpl.
  generalize (seq 0 m). intros l. induction l as [|t l IH]; simpl; lia.
Qed.

(** The entry of the coefficient array at [k] collects the Moebius values
    of the submaps with [k + 1] blocks. *)
Lemma add_mobius_lookup (submaps : list Submap) (mu P : list Z) (k : nat) :
  (k < length P)%nat →
  foldl (add_mobius submaps) P (imap pair mu) !!! k
  = P !!! k
    + sum_upto (length mu)
        (λ i, if (length (vertices (submaps !!! i)) - 1 =? k)%nat
              then mu !!! i else 0).
Proof.
  intros Hk. induction mu as [|m mu IH] using rev_ind.
  - simpl. unfold sum_upto. simpl. lia.
  - rewrite imap_app, foldl_app, length_app. simpl.
    rewrite Nat.add_0_r, Nat.add_1_r, sum_upto_S.
    rewrite lookup_total_app_r, Nat.sub_diag by lia. simpl.
    rewrite (sum_upto_ext _ (λ i, if (length (vertices (submaps !!! i)) - 1 =? k)%nat
                                  then mu !!! i else 0))
      by (intros t Ht; by rewrite lookup_total_app_l by lia).
    unfold add_mobius at 1. simpl.
    destruct (Nat.eqb_spec (length (vertices (submaps !!! length mu)) - 1) k)
      as [->|Hne].
    + rewrite list_lookup_total_insert_eq by (by rewrite add_mobius_length).
      rewrite IH. lia.
    + rewrite list_lookup_total_insert_ne by done. rewrite IH. lia.
Qed.

Lemma sum_upto_count_shift (Q : Submap → bool) (f : nat → Z) (a : nat)
    (l : list Submap) :
  (∀ i, (i < length l)%nat → f (a + i)%nat = if Q (l !!! i) then -1 else 0) →
  foldr (λ t acc, f t + acc) 0 (seq a (length l))
  = - Z.of_nat (length (filter (λ x, Q x = true) l)).
Proof.
  revert a. induction l as [|x l IH]; intros a Hf; [done|].
  cbn [length seq foldr]. rewrite (IH (S a)).
  - specialize (Hf 0%nat ltac:(simpl; lia)). rewrite Nat.add_0_r in Hf.
    rewrite Hf. change ((x :: l) !!! 0%nat) with x.
    destruct (Q x) eqn:HQ.
    + rewrite filter_cons_True by done. simpl length. lia.
    + rewrite filter_cons_False by (by rewrite HQ). lia.
  - intros i Hi. specialize (Hf (S i) ltac:(simpl; lia)).
    change ((x :: l) !!! S i) with (l !!! i) in Hf. rewrite <- Hf. f_equal. lia.
Qed.

Lemma sum_upto_count (Q : Submap → bool) (l : list Submap) :
  sum_upto (length l) (λ i, if Q (l !!! i) then -1 else 0)
  = - Z.of_nat (length (filter (λ x, Q x = true) l)).
Proof. by apply sum_upto_count_shift. Qed.

(** X21: for a graph on [n ≥ 2] vertices whose edges are in range, join
    distinct vertices and are pairwise distinct, the coefficient of
    x^(n-1) in the computed polynomial is minus the number of edges. *)
Theorem X21_second_coefficient (graph_changed : nat → bool) (junk : nat → nat → Z)
    (n : nat) (es : list Edge) :
  never_set graph_changed → well_formed_graph n es → (2 ≤ n)%nat →
  ∃ P, pipeline graph_changed junk n es = Some P ∧ length P = n ∧
       P !!! (n - 2)%nat = - Z.of_nat (length es).
Proof.
  intros Hquiet Hwf Hn. pose proof Hwf as [Hvalid Hnd].
  pose proof (from_graph_edges_valid n es Hvalid) as Hroot.
  pose proof (from_graph_partitions n es) as Hrootp.
  pose proof (graph_labels_NoDup n) as HL.
  destruct (get_all_submaps_visits graph_changed Hquiet (from_graph n es)
              init_globals eq_refl) as (l' & g1 & Heq & Hstop & Hcf & Hnodup & Hl').
  destruct (ordering_matrix_entries graph_changed Hquiet junk
              (l' ++ [from_graph n es]) g1 Hstop)
    as (M & g2 & HeqM & _ & Hshape & Hsize & Hentries).
  unfold pipeline. rewrite Heq, HeqM. eexists. split; [done|].
  split.
  { by rewrite get_chromatic_polynomial_unfold, add_mobius_length, length_replicate. }
  set (l := l' ++ [from_graph n es]) in *.
  assert (length l = S (length l')) as Hll.
  { unfold l. rewrite length_app. simpl. lia. }
  assert (l !! length l' = Some (from_graph n es)) as Hlast.
  { unfold l. by rewrite lookup_app_r, Nat.sub_diag by lia. }
  assert (∀ k x, l !! k = Some x → (k < length l')%nat →
                 proper_reach (from_graph n es) x) as Hproper.
  { intros k x Hk Hlt. apply Hl'. unfold l in Hk.
    rewrite lookup_app_l in Hk by done. by eapply list_elem_of_lookup_2. }
  assert (∀ k x, l !! k = Some x → reach (from_graph n es) x) as Hreach.
  { intros k x Hk. pose proof (lookup_lt_Some _ _ _ Hk).
    destruct (decide (k = length l')) as [->|].
    - simplify_eq. constructor.
    - eapply proper_reach_reach, Hproper; [done|lia]. }
  assert (∀ k x, l !! k = Some x → partitions (graph_labels n) x) as Hpart.
  { intros k x Hk.
    apply (reach_partitions _ (from_graph n es)); [|done|done]. by eapply Hreach. }
  assert (∀ k x, l !! k = Some x → (1 ≤ length (vertices x) ≤ n)%nat) as Hblocks.
  { intros k x Hk.
    pose proof (reach_blocks_bounds _ _ (Hreach _ _ Hk) Hroot) as Hb.
    rewrite from_graph_length in Hb. apply Hb. lia. }
  (* the submaps with [n - 1] blocks are the children of the initial one *)
  assert (∀ k x, l !! k = Some x → length (vertices x) = (n - 1)%nat →
                 (k < length l')%nat ∧
                 ∃ e, e ∈ es ∧ x = contract (from_graph n es) e) as Hchildren.
  { intros k x Hk Hx. pose proof (lookup_lt_Some _ _ _ Hk).
    assert (k < length l')%nat as Hlt.
    { destruct (decide (k = length l')) as [->|]; [|lia].
      simplify_eq. rewrite from_graph_length in Hx. lia. }
    split; [done|].
    destruct (Hproper k x Hk Hlt) as (c' & Hc' & Hr).
    destruct (child_blocks _ _ Hroot Hc') as [_ Hcb].
    rewrite from_graph_length in Hcb.
    destruct (reach_cases c' x Hr) as [->|Hp].
    - apply elem_of_get_direct_submaps in Hc' as (e & He & ->).
      rewrite from_graph_edges in He. by exists e.
    - apply proper_reach_blocks_bounds in Hp; [lia|].
      eapply reach_edges_valid; [|done]. by repeat econstructor. }
  assert (unit_upper_triangular M) as Htri.
  { intros i j Hi Hj. rewrite Hsize in Hi, Hj.
    destruct (lookup_lt_is_Some_2 _ i Hi) as [si Hsi].
    destruct (lookup_lt_is_Some_2 _ j Hj) as [sj Hsj].
    rewrite (Hentries i j si sj Hsi Hsj). unfold order_value. split.
    - intros ->. simplify_eq. rewrite Nat.leb_refl, submap_ge_refl; [done|].
      apply (partitions_disjoint (graph_labels n)); [done|by eapply Hpart].
    - intros Hlt. destruct (Nat.leb_spec i j); [lia|done]. }
  destruct (get_mobius_inv M Htri) as (Hlen & _ & Hsum & _).
  destruct (get_mobius_shape M) as [_ Htop]. specialize (Htop ltac:(lia)).
  rewrite Hsize, Hll in Hlen, Hsum, Htop. simpl in Htop.
  rewrite Nat.sub_0_r in Htop.
  (* each of them has the Moebius value -1 *)
  assert (∀ k x, l !! k = Some x → length (vertices x) = (n - 1)%nat →
                 get_mobius_of_column M !!! k = -1) as Hmu.
  { intros k x Hk Hx.
    destruct (Hchildren k x Hk Hx) as (Hlt & e & He & ->).
    specialize (Hsum k ltac:(lia)).
    destruct (Nat.eqb_spec k (S (length l') - 1)) as [|_]; [lia|].
    rewrite (sum_upto_ext _
               (λ t, (if (t =? k)%nat then get_mobius_of_column M !!! k else 0)
                     + (if (t =? length l')%nat
                        then get_mobius_of_column M !!! length l' else 0)))
      in Hsum.
    { rewrite sum_upto_plus, !sum_upto_delta in Hsum by lia. lia. }
    intros t Ht.
    destruct (lookup_lt_is_Some_2 l t ltac:(lia)) as [xt Hxt].
    rewrite (Hentries k t _ xt Hk Hxt). unfold order_value.
    destruct (Nat.eqb_spec t k) as [->|Htk].
    - simplify_eq. rewrite Nat.leb_refl, submap_ge_refl.
      + destruct (Nat.eqb_spec k (length l')); [lia|]. simpl. lia.
      + apply (partitions_disjoint (graph_labels n)); [done|by eapply Hpart].
    - destruct (Nat.eqb_spec t (length l')) as [->|Htl].
      + simplify_eq. rewrite submap_ge_singletons by apply from_graph_singletons.
        destruct (Nat.leb_spec k (length l')); [|lia]. simpl. lia.
      + destruct (submap_ge xt _) eqn:Hge; [|rewrite andb_false_r; lia].
        exfalso. apply Htk.
        assert (xt = contract (from_graph n es) e) as ->.
        { apply finer_than_child; try done. eapply Hproper; [done|lia]. }
        by eapply NoDup_lookup. }
  (* so the coefficient counts them *)
  rewrite get_chromatic_polynomial_unfold, add_mobius_lookup
    by (rewrite length_replicate; lia).
  rewrite lookup_total_replicate_2 by lia. rewrite Hlen, <- Hll, Z.add_0_l.
  rewrite (sum_upto_ext _
             (λ i, if (length (vertices (l !!! i)) =? n - 1)%nat then -1 else 0)).
  2:{ intros t Ht. destruct (lookup_lt_is_Some_2 l t Ht) as [xt Hxt].
      rewrite (list_lookup_total_correct _ _ _ Hxt).
      pose proof (Hblocks t xt Hxt).
      destruct (Nat.eqb_spec (length (vertices xt) - 1) (n - 2)),
               (Nat.eqb_spec (length (vertices xt)) (n - 1)); try lia.
      by eapply Hmu. }
  rewrite (sum_upto_count (λ x, (length (vertices x) =? n - 1)%nat)).
  f_equal. f_equal.
  rewrite <- (length_fmap (contract (from_graph n es)) es).
  apply Permutation_length, NoDup_Permutation.
  - by apply NoDup_filter.
  - by apply root_children_NoDup.
  - intros x. rewrite list_elem_of_filter, list_elem_of_fmap. split.
    + intros [Hx%Nat.eqb_eq [k Hk]%list_elem_of_lookup].
      destruct (Hchildren k x Hk Hx) as (_ & e & He & ->). by exists e.
    + intros (e & -> & He).
      assert (contract (from_graph n es) e ∈ get_direct_submaps (from_graph n es))
        as Hc.
      { apply elem_of_get_direct_submaps. exists e. by rewrite from_graph_edges. }
      destruct (child_blocks _ _ Hroot Hc) as [Hone Hcb].
      rewrite from_graph_length in Hcb.
      destruct (Hcf (length l') _ _ Hlast Hone Hc) as (q & _ & Hq).
      split; [apply Nat.eqb_eq; lia|by eapply list_elem_of_lookup_2].
Qed.

Lemma X21_second_coefficient_witness :
  ∃ P, pipeline quiet (λ _ _, 0) 3 triangle = Some P ∧ length P = 3%nat ∧
       P !!! (3 - 2)%nat = - Z.of_nat (length triangle).
Proof.
  apply (X21_second_coefficient quiet (λ _ _, 0) 3 triangle).
  - apply quiet_never_set.
  - apply triangle_well_formed.
  - lia.
Defined.

(** ** The polynomial counts colourings *)

Lemma elem_of_all_colourings (q n : nat) (c : list Z) :
  c ∈ all_colourings q n ↔ length c = n ∧ Forall (λ k, 0 ≤ k < Z.of_nat q) c.
Proof.
  revert c. induction n as [|n IH]; intros c; simpl.
  - rewrite list_elem_of_singleton. split.
    + intros ->. by split.
    + intros [Hlen _]. by destruct c.
  - rewrite list_elem_of_bind. split.
    + intros (k & (c' & -> & [Hlen Hall]%IH)%list_elem_of_fmap & Hk%elem_of_seq).
      split; [simpl; lia|]. constructor; [lia|done].
    + intros [Hlen Hall]. destruct c as [|k c]; [done|].
      apply Forall_cons in Hall as [Hk Hall]. exists (Z.to_nat k). split.
      * apply list_elem_of_fmap. exists c. split; [f_equal; lia|].
        apply IH. split; [simpl in Hlen; lia|done].
      * apply elem_of_seq. lia.
Qed.

Lemma all_colourings_NoDup (q n : nat) : NoDup (all_colourings q n).
Proof.
  induction n as [|n IH]; simpl; [apply NoDup_singleton|].
  apply NoDup_bind; [| |apply NoDup_seq].
  - intros k1 k2 c _ _ (c1 & -> & _)%list_elem_of_fmap (c2 & Heq & _)%list_elem_of_fmap.
    simplify_eq. lia.
  - intros k _. apply NoDup_fmap_2; [|done]. by intros c1 c2 [=].
Qed.

Lemma colourings_bind_length (l : list (list Z)) (a q : nat) :
  length (seq a q ≫= λ k, cons (Z.of_nat k) <$> l) = (q * length l)%nat.
Proof.
  revert a. induction q as [|q IH]; intros a; [done|].
  cbn [seq]. rewrite bind_cons, length_app, length_fmap, IH. lia.
Qed.

Lemma all_colourings_length (q n : nat) :
  Z.of_nat (length (all_colourings q n)) = Z.of_nat q ^ Z.of_nat n.
Proof.
  induction n as [|n IH]; [done|].
  rewrite Nat2Z.inj_succ, Z.pow_succ_r by lia. rewrite <- IH. simpl.
  rewrite colourings_bind_length. lia.
Qed.

Lemma const_onb_true (s : Submap) (c : list Z) :
  const_onb s c = true ↔ const_on s c.
Proof.
  unfold const_onb, const_on. rewrite forallb_forall. split.
  - intros H v a b Hv Ha Hb. specialize (H v ltac:(by apply list_elem_of_In)).
    rewrite forallb_forall in H.
    pose proof (H a ltac:(by apply list_elem_of_In)) as H1.
    pose proof (H b ltac:(by apply list_elem_of_In)) as H2. lia.
  - intros H v Hv%list_elem_of_In. apply forallb_forall. intros a Ha%list_elem_of_In.
    apply Z.eqb_eq, (H v); [done..|].
    destruct v; [by apply elem_of_nil in Ha|by left].
Qed.

Lemma elem_of_graph_labels (n : nat) (u : Z) :
  u ∈ graph_labels n ↔ ∃ a, u = Z.of_nat a ∧ (a < n)%nat.
Proof.
  unfold graph_labels. rewrite list_elem_of_fmap. split.
  - intros (a & -> & Ha%elem_of_seq). exists a. split; [done|lia].
  - intros (a & -> & Ha). exists a. split; [done|]. apply elem_of_seq. lia.
Qed.

Lemma spread_colour (s : Submap) (n : nat) (d : list Z) (a : nat) :
  (a < n)%nat →
  colour_of (spread s n d) (Z.of_nat a) = d !!! block_index (vertices s) (Z.of_nat a).
Proof.
  intros Ha. unfold colour_of, spread. rewrite Nat2Z.id.
  apply list_lookup_total_correct.
  by rewrite list_lookup_fmap, lookup_seq_lt by done.
Qed.

(** The colourings that are constant on the blocks of a partition are as
    many as the colourings of its blocks. *)
Lemma const_colourings_count (q n : nat) (s : Submap) :
  partitions (graph_labels n) s →
  length (filter (λ c, const_onb s c = true) (all_colourings q n))
  = length (all_colourings q (length (vertices s))).
Proof.
  intros Hpart. pose proof (graph_labels_NoDup n) as HL.
  rewrite <- (length_fmap (spread s n) (all_colourings q (length (vertices s)))).
  apply Permutation_length, NoDup_Permutation.
  - apply NoDup_filter, all_colourings_NoDup.
  - apply NoDup_fmap_2_strong; [|apply all_colourings_NoDup].
    intros d d' [Hd _]%elem_of_all_colourings [Hd' _]%elem_of_all_colourings Heq.
    apply (list_eq_same_length _ _ (length (vertices s))); [done..|].
    intros p x y Hp Hx Hy.
    destruct (lookup_lt_is_Some_2 (vertices s) p Hp) as [v Hv].
    assert (v ≠ []) as Hne.
    { destruct Hpart as [Hne _]. eapply Forall_forall in Hne; [done|].
      by eapply list_elem_of_lookup_2. }
    destruct v as [|u v]; [done|].
    assert (u ∈ graph_labels n) as Hu.
    { apply (partitions_covers _ s u Hpart). exists (u :: v).
      split; [by eapply list_elem_of_lookup_2|by left]. }
    apply elem_of_graph_labels in Hu as (a & -> & Ha).
    pose proof (block_index_unique _ s (Z.of_nat a) p _ HL Hpart Hv ltac:(by left))
      as Hidx.
    pose proof (spread_colour s n d a Ha) as H1.
    pose proof (spread_colour s n d' a Ha) as H2.
    rewrite Heq, H2, Hidx in H1.
    rewrite (list_lookup_total_correct _ _ _ Hx),
      (list_lookup_total_correct _ _ _ Hy) in H1. done.
  - intros c. rewrite list_elem_of_filter, list_elem_of_fmap. split.
    + intros [Hconst%const_onb_true [Hlen Hrange]%elem_of_all_colourings].
      exists ((λ v, colour_of c (hd 0 v)) <$> vertices s). split.
      * apply (list_eq_same_length _ _ n);
          [unfold spread; by rewrite length_fmap, length_seq|done|].
        intros a x y Ha Hx Hy. unfold spread in Hy.
        rewrite list_lookup_fmap, lookup_seq_lt in Hy by done. simpl in Hy.
        simplify_eq.
        destruct (block_index_found _ s (Z.of_nat a) HL Hpart
                    (graph_labels_elem_of _ _ Ha)) as (p & v & Hp & Hin & ->).
        rewrite (list_lookup_total_correct _ p (colour_of c (hd 0 v)))
          by (by rewrite list_lookup_fmap, Hp).
        transitivity (colour_of c (Z.of_nat a)).
        -- unfold colour_of. rewrite Nat2Z.id.
           by rewrite (list_lookup_total_correct _ _ _ Hx).
        -- apply (Hconst v); [by eapply list_elem_of_lookup_2|done|].
           destruct v; [by apply elem_of_nil in Hin|by left].
      * apply elem_of_all_colourings. split; [by rewrite length_fmap|].
        apply Forall_fmap, Forall_forall. intros v Hv. simpl.
        assert (v ≠ []) as Hne.
        { destruct Hpart as [Hne _]. by eapply Forall_forall in Hne. }
        destruct v as [|u v]; [done|]. simpl.
        assert (u ∈ graph_labels n) as Hu.
        { apply (partitions_covers _ s u Hpart). exists (u :: v).
          split; [done|by left]. }
        apply elem_of_graph_labels in Hu as (a & -> & Ha).
        unfold colour_of. rewrite Nat2Z.id.
        destruct (lookup_lt_is_Some_2 c a ltac:(lia)) as [k Hk].
        rewrite (list_lookup_total_correct _ _ _ Hk).
        eapply Forall_forall in Hrange; [done|]. by eapply list_elem_of_lookup_2.
    + intros (d & -> & [Hlen Hrange]%elem_of_all_colourings). split.
      * apply const_onb_true. intros v a b Hv Ha Hb.
        apply list_elem_of_lookup in Hv as [p Hp].
        assert (∀ u, u ∈ v → colour_of (spread s n d) u = d !!! p) as Hcol.
        { intros u Hu.
          assert (u ∈ graph_labels n) as Hul.
          { apply (partitions_covers _ s u Hpart). exists v.
            split; [by eapply list_elem_of_lookup_2|done]. }
          apply elem_of_graph_labels in Hul as (a' & -> & Ha').
          rewrite spread_colour by done.
          by rewrite (block_index_unique _ s _ p v HL Hpart Hp Hu). }
        by rewrite !Hcol.
      * apply elem_of_all_colourings. unfold spread.
        split; [by rewrite length_fmap, length_seq|].
        apply Forall_fmap, Forall_forall. intros a Ha%elem_of_seq. simpl.
        assert (a < n)%nat as Han by lia.
        destruct (block_index_found _ s (Z.of_nat a) HL Hpart
                    (graph_labels_elem_of _ _ Han)) as (p & v & Hp & _ & ->).
        destruct (lookup_lt_is_Some_2 d p) as [k Hk].
        { rewrite Hlen. by eapply lookup_lt_Some. }
        rewrite (list_lookup_total_correct _ _ _ Hk).
        eapply Forall_forall in Hrange; [done|]. by eapply list_elem_of_lookup_2.
Qed.

Lemma polynomial_eval_insert_shift (g : nat → nat) (P : list Z) (k : nat) (c q : Z) :
  (k < length P)%nat →
  foldr (λ (p : nat * Z) acc, p.2 * q ^ Z.of_nat (S p.1) + acc) 0
        (imap (λ i a, (g i, a)) (<[k := P !!! k + c]> P))
  = foldr (λ (p : nat * Z) acc, p.2 * q ^ Z.of_nat (S p.1) + acc) 0
          (imap (λ i a, (g i, a)) P)
    + c * q ^ Z.of_nat (S (g k)).
Proof.
  revert g k. induction P as [|a P IH]; intros g k Hk; simpl in Hk; [lia|].
  destruct k as [|k].
  - change ((a :: P) !!! 0%nat) with a. cbn [insert list_insert imap foldr].
    cbn [fst snd]. lia.
  - change ((a :: P) !!! S k) with (P !!! k). cbn [insert list_insert imap foldr].
    cbn [fst snd]. rewrite <- Z.add_assoc. f_equal.
    apply (IH (λ i, g (S i)) k). lia.
Qed.

Lemma polynomial_eval_insert (P : list Z) (k : nat) (c q : Z) :
  (k < length P)%nat →
  polynomial_eval (<[k := P !!! k + c]> P) q
  = polynomial_eval P q + c * q ^ Z.of_nat (S k).
Proof. apply (polynomial_eval_insert_shift (λ i, i)). Qed.

Lemma polynomial_eval_zeros_shift (g : nat → nat) (n : nat) (q : Z) :
  foldr (λ (p : nat * Z) acc, p.2 * q ^ Z.of_nat (S p.1) + acc) 0
        (imap (λ i a, (g i, a)) (replicate n 0)) = 0.
Proof.
  revert g. induction n as [|n IH]; intros g; [done|].
  cbn [replicate imap foldr]. cbn [fst snd]. rewrite Z.mul_0_l, Z.add_0_l.
  apply (IH (λ i, g (S i))).
Qed.

Lemma polynomial_eval_zeros (n : nat) (q : Z) :
  polynomial_eval (replicate n 0) q = 0.
Proof. apply (polynomial_eval_zeros_shift (λ i, i)). Qed.

(** The value of the computed polynomial: every submap contributes its
    Moebius value times [q] to the number of its blocks. *)
Lemma polynomial_eval_mobius (submaps : list Submap) (mu P : list Z) (q : Z) :
  (∀ i, (i < length mu)%nat →
        (length (vertices (submaps !!! i)) - 1 < length P)%nat) →
  polynomial_eval (foldl (add_mobius submaps) P (imap pair mu)) q
  = polynomial_eval P q
    + sum_upto (length mu)
        (λ i, mu !!! i * q ^ Z.of_nat (S (length (vertices (submaps !!! i)) - 1))).
Proof.
  induction mu as [|m mu IH] using rev_ind; intros Hin.
  - simpl. unfold sum_upto. simpl. lia.
  - rewrite imap_app, foldl_app, length_app. simpl.
    rewrite Nat.add_0_r, Nat.add_1_r, sum_upto_S.
    rewrite lookup_total_app_r, Nat.sub_diag by lia. simpl.
    rewrite (sum_upto_ext _
               (λ i, mu !!! i
                     * q ^ Z.of_nat (S (length (vertices (submaps !!! i)) - 1))))
      by (intros t Ht; by rewrite lookup_total_app_l by lia).
    unfold add_mobius at 1. simpl.
    rewrite polynomial_eval_insert.
    + rewrite IH; [lia|]. intros i Hi. apply Hin. rewrite length_app. simpl. lia.
    + rewrite add_mobius_length. apply Hin. rewrite length_app. simpl. lia.
Qed.

(** A function of the labels that is constant on the blocks stays so when
    two blocks are merged that hold labels with the same value. *)
Lemma merge_constant (f : Z → Z) (y : Submap) (e : Edge) (u w : Z) :
  edge_valid (length (vertices y)) e →
  (∀ v a b, v ∈ vertices y → a ∈ v → b ∈ v → f a = f b) →
  u ∈ vertices y !!! lo e → w ∈ vertices y !!! hi e → f u = f w →
  ∀ v a b, v ∈ vertices (contract y e) → a ∈ v → b ∈ v → f a = f b.
Proof.
  intros (Hs & Ht & Hne) Hy Hu Hw Huw.
  assert (lo e < hi e ∧ hi e < length (vertices y))%nat as [Hlh Hhl]
    by (unfold lo, hi; lia).
  destruct (lookup_lt_is_Some_2 (vertices y) (lo e) ltac:(lia)) as [v1 Hv1].
  destruct (lookup_lt_is_Some_2 (vertices y) (hi e) ltac:(lia)) as [v2 Hv2].
  rewrite (list_lookup_total_correct _ _ _ Hv1) in Hu.
  rewrite (list_lookup_total_correct _ _ _ Hv2) in Hw.
  assert (∀ a, a ∈ v1 ++ v2 → f a = f u) as Hmerged.
  { intros a [Ha|Ha]%elem_of_app.
    - apply (Hy v1); [by eapply list_elem_of_lookup_2|done..].
    - rewrite Huw. apply (Hy v2); [by eapply list_elem_of_lookup_2|done..]. }
  intros v a b Hv Ha Hb. rewrite (contract_vertices y e Hne) in Hv.
  rewrite (list_lookup_total_correct _ _ _ Hv1),
    (list_lookup_total_correct _ _ _ Hv2) in Hv.
  apply list_elem_of_delete_inv, list_elem_of_lookup in Hv as [i Hi].
  apply list_lookup_insert_Some in Hi as [(_ & Hv & _)|[_ Hi]].
  - rewrite <- Hv in Ha, Hb. rewrite qsort_elem_of in Ha, Hb.
    by rewrite (Hmerged a Ha), (Hmerged b Hb).
  - apply (Hy v); [by eapply list_elem_of_lookup_2|done..].
Qed.

(** Every edge of a descendant of the initial submap comes from an edge of
    the graph with one end in either of the two blocks it joins. *)
Lemma edge_ends (n : nat) (es : list Edge) (y : Submap) (e : Edge) :
  Forall (edge_valid n) es → reach (from_graph n es) y → e ∈ edges y →
  ∃ u w, u ∈ vertices y !!! lo e ∧ w ∈ vertices y !!! hi e ∧
         u ∈ graph_labels n ∧ w ∈ graph_labels n ∧
         ∃ e0, e0 ∈ es ∧
               (u = Z.of_nat (start_idx e0) ∧ w = Z.of_nat (end_idx e0) ∨
                u = Z.of_nat (end_idx e0) ∧ w = Z.of_nat (start_idx e0)).
Proof.
  intros Hvalid Hreach He.
  pose proof (reach_edges_valid _ _ Hreach (from_graph_edges_valid n es Hvalid))
    as Hyvalid.
  pose proof (reach_partitions _ _ _ Hreach (from_graph_edges_valid n es Hvalid)
                (from_graph_partitions n es)) as Hypart.
  pose proof (graph_labels_NoDup n) as HL.
  destruct (reach_edges_projected n es y Hvalid Hreach) as [Hproj _].
  apply list_elem_of_lookup in He as [k Hk].
  destruct (Forall2_lookup_l _ _ _ _ _ Hproj Hk) as (e' & He' & Hsame).
  apply list_elem_of_lookup_2, list_elem_of_In, in_flat_map in He'
    as (e0 & He0%list_elem_of_In & He').
  assert (edge_valid n e0) as (Hs0 & Ht0 & _).
  { eapply Forall_forall in Hvalid; done. }
  pose proof (graph_labels_elem_of _ _ Hs0) as Hsl.
  pose proof (graph_labels_elem_of _ _ Ht0) as Htl.
  destruct (block_index_found _ y _ HL Hypart Hsl) as (p & vp & Hp & Hinp & Hidxp).
  destruct (block_index_found _ y _ HL Hypart Htl) as (q & vq & Hq & Hinq & Hidxq).
  unfold project in He'. rewrite Hidxp, Hidxq in He'.
  destruct (Nat.eqb_spec p q) as [|Hpq]; [destruct He'|].
  destruct He' as [<-|[]].
  assert (lo e = p ∧ hi e = q ∨ lo e = q ∧ hi e = p) as Hcase.
  { unfold lo, hi. destruct Hsame as [[H1 H2]|[H1 H2]]; simpl in H1, H2; lia. }
  destruct Hcase as [[Hlo Hhi]|[Hlo Hhi]]; rewrite Hlo, Hhi;
    rewrite (list_lookup_total_correct _ _ _ Hp),
      (list_lookup_total_correct _ _ _ Hq).
  - exists (Z.of_nat (start_idx e0)), (Z.of_nat (end_idx e0)).
    repeat split; try done. exists e0. split; [done|by left].
  - exists (Z.of_nat (end_idx e0)), (Z.of_nat (start_idx e0)).
    repeat split; try done. exists e0. split; [done|by right].
Qed.

(** An edge of the graph whose ends lie in two blocks of a descendant of
    the initial submap gives an edge of that descendant between the two
    blocks. *)
Lemma edge_between (n : nat) (es : list Edge) (y : Submap) (e0 : Edge) :
  Forall (edge_valid n) es → reach (from_graph n es) y → e0 ∈ es →
  block_index (vertices y) (Z.of_nat (start_idx e0))
  ≠ block_index (vertices y) (Z.of_nat (end_idx e0)) →
  ∃ e u w, e ∈ edges y ∧ u ∈ vertices y !!! lo e ∧ w ∈ vertices y !!! hi e ∧
           (u = Z.of_nat (start_idx e0) ∧ w = Z.of_nat (end_idx e0) ∨
            u = Z.of_nat (end_idx e0) ∧ w = Z.of_nat (start_idx e0)).
Proof.
  intros Hvalid Hreach He0 Hne.
  pose proof (reach_partitions _ _ _ Hreach (from_graph_edges_valid n es Hvalid)
                (from_graph_partitions n es)) as Hypart.
  pose proof (graph_labels_NoDup n) as HL.
  destruct (reach_edges_projected n es y Hvalid Hreach) as [Hproj _].
  assert (edge_valid n e0) as (Hs0 & Ht0 & _).
  { eapply Forall_forall in Hvalid; done. }
  pose proof (graph_labels_elem_of _ _ Hs0) as Hsl.
  pose proof (graph_labels_elem_of _ _ Ht0) as Htl.
  destruct (block_index_found _ y _ HL Hypart Hsl) as (p & vp & Hp & Hinp & Hidxp).
  destruct (block_index_found _ y _ HL Hypart Htl) as (q & vq & Hq & Hinq & Hidxq).
  rewrite Hidxp, Hidxq in Hne.
  assert (mkEdge (p `min` q) (p `max` q) ∈ flat_map (project (vertices y)) es)
    as [k Hk]%list_elem_of_lookup.
  { apply list_elem_of_In, in_flat_map. exists e0.
    split; [by apply list_elem_of_In|]. unfold project. rewrite Hidxp, Hidxq.
    destruct (Nat.eqb_spec p q); [done|]. by left. }
  destruct (Forall2_lookup_r _ _ _ _ _ Hproj Hk) as (e & He & Hsame).
  assert (lo e = p ∧ hi e = q ∨ lo e = q ∧ hi e = p) as Hcase.
  { unfold lo, hi. destruct Hsame as [[H1 H2]|[H1 H2]]; simpl in H1, H2; lia. }
  exists e.
  destruct Hcase as [[Hlo Hhi]|[Hlo Hhi]]; rewrite Hlo, Hhi;
    rewrite (list_lookup_total_correct _ _ _ Hp),
      (list_lookup_total_correct _ _ _ Hq).
  - exists (Z.of_nat (start_idx e0)), (Z.of_nat (end_idx e0)).
    split; [by eapply list_elem_of_lookup_2|]. repeat split; try done. by left.
  - exists (Z.of_nat (end_idx e0)), (Z.of_nat (start_idx e0)).
    split; [by eapply list_elem_of_lookup_2|]. repeat split; try done. by right.
Qed.

(** The labels of the two merged blocks share a block of the child. *)
Lemma contract_joins (L : list Z) (y : Submap) (e : Edge) (u w : Z) :
  NoDup L → edges_valid y → e ∈ edges y → partitions L y →
  u ∈ vertices y !!! lo e → w ∈ vertices y !!! hi e →
  u ∈ L ∧ w ∈ L ∧
  block_index (vertices (contract y e)) u = block_index (vertices (contract y e)) w.
Proof.
  intros HL Hv He Hpart Hu Hw.
  assert (edge_valid (length (vertices y)) e) as (Hs & Ht & Hne).
  { eapply Forall_forall in Hv; done. }
  assert (lo e < hi e ∧ hi e < length (vertices y))%nat as [Hlh Hhl]
    by (unfold lo, hi; lia).
  destruct (lookup_lt_is_Some_2 (vertices y) (lo e) ltac:(lia)) as [v1 Hv1].
  destruct (lookup_lt_is_Some_2 (vertices y) (hi e) ltac:(lia)) as [v2 Hv2].
  rewrite (list_lookup_total_correct _ _ _ Hv1) in Hu.
  rewrite (list_lookup_total_correct _ _ _ Hv2) in Hw.
  assert (u ∈ L) as HuL.
  { apply (partitions_covers L y u Hpart). exists v1.
    split; [by eapply list_elem_of_lookup_2|done]. }
  assert (w ∈ L) as HwL.
  { apply (partitions_covers L y w Hpart). exists v2.
    split; [by eapply list_elem_of_lookup_2|done]. }
  split; [done|]. split; [done|].
  rewrite !(block_index_contract L y e) by done.
  rewrite (block_index_unique L y u _ _ HL Hpart Hv1 Hu).
  rewrite (block_index_unique L y w _ _ HL Hpart Hv2 Hw).
  unfold renumber. split_tests; lia.
Qed.

Lemma same_block_colour (L : list Z) (x : Submap) (c : list Z) (u w : Z) :
  NoDup L → partitions L x → const_on x c → u ∈ L → w ∈ L →
  block_index (vertices x) u = block_index (vertices x) w →
  colour_of c u = colour_of c w.
Proof.
  intros HL Hx Hconst Hu Hw Heq.
  destruct (block_index_found L x u HL Hx Hu) as (p & v & Hp & Huv & Hpu).
  destruct (block_index_found L x w HL Hx Hw) as (p' & v' & Hp' & Hwv & Hpw).
  assert (p' = p) as -> by congruence. simplify_eq.
  apply (Hconst v); [by eapply list_elem_of_lookup_2|done..].
Qed.

Lemma blocks_joined_root (n : nat) (es : list Edge) (s0 : Submap) :
  blocks_joined s0 (from_graph n es).
Proof.
  intros v a b Hv Ha Hb.
  pose proof (from_graph_singletons n es) as Hone.
  eapply Forall_forall in Hone; [|done].
  destruct v as [|c [|c' v]]; simpl in Hone; [| |lia].
  - by apply elem_of_nil in Ha.
  - apply list_elem_of_singleton in Ha, Hb. by subst.
Qed.

Lemma blocks_joined_submap_ge (s0 x : Submap) :
  blocks_joined s0 x → submap_ge x s0 = true.
Proof.
  intros Hj. apply submap_ge_true. intros v Hv.
  destruct v as [|a v]; [exists 0; by intros ? ?%elem_of_nil|].
  exists (_find_node_idx s0 a). intros b Hb. apply (Hj (a :: v)); [done..|by left].
Qed.

(** Along contractions that keep the colouring constant on the blocks, the
    blocks stay inside the blocks of a submap that separates no two ends
    of an edge of one colour. *)
Lemma const_blocks_joined (n : nat) (es : list Edge) (c : list Z)
    (s0 y x : Submap) :
  Forall (edge_valid n) es → partitions (graph_labels n) s0 → proper_on es s0 c →
  reach y x → reach (from_graph n es) y → const_on x c →
  blocks_joined s0 y → blocks_joined s0 x.
Proof.
  intros Hvalid Hs0 Hproper Hyx.
  pose proof (graph_labels_NoDup n) as HL.
  pose proof (from_graph_edges_valid n es Hvalid) as Hroot.
  induction Hyx as [y|y c' x Hc' Hr IH]; intros Hy Hx Hj; [done|].
  pose proof (reach_edges_valid _ _ Hy Hroot) as Hyv.
  pose proof (reach_partitions _ _ _ Hy Hroot (from_graph_partitions n es)) as Hyp.
  pose proof (reach_snoc _ _ _ Hy Hc') as Hc.
  pose proof (reach_edges_valid _ _ Hc Hroot) as Hcv.
  pose proof (reach_partitions _ _ _ Hc Hroot (from_graph_partitions n es)) as Hcp.
  apply IH; [done..|].
  apply elem_of_get_direct_submaps in Hc' as (e & He & ->).
  destruct (edge_ends n es y e Hvalid Hy He)
    as (u & w & Hu & Hw & HuL & HwL & e0 & He0 & Hends).
  destruct (contract_joins _ y e u w HL Hyv He Hyp Hu Hw) as (_ & _ & Hsame).
  pose proof (reach_keeps_together _ _ x u w HL Hcv Hcp Hr HuL HwL Hsame) as Hxs.
  pose proof (same_block_colour _ x c u w HL
                (reach_partitions _ _ _ Hr Hcv Hcp) Hx HuL HwL Hxs) as Hcol.
  assert (_find_node_idx s0 u = _find_node_idx s0 w) as Hfind.
  { rewrite !(find_node_idx_block_index (graph_labels n)) by done. f_equal.
    destruct Hends as [[-> ->]|[-> ->]].
    - by apply Hproper.
    - symmetry. by apply Hproper. }
  unfold blocks_joined.
  apply (merge_constant (_find_node_idx s0) y e u w); try done.
  eapply Forall_forall in Hyv; done.
Qed.

(** A colouring that is constant on the blocks of [x] makes [submap_ge]
    find [x] above the submap that separates no edge of one colour. *)
Lemma const_submap_ge (n : nat) (es : list Edge) (c : list Z) (s0 x : Submap) :
  Forall (edge_valid n) es →
  reach (from_graph n es) s0 → proper_on es s0 c →
  reach (from_graph n es) x → const_on x c →
  submap_ge x s0 = true.
Proof.
  intros Hvalid Hs0 Hproper Hx Hconst.
  apply blocks_joined_submap_ge.
  apply (const_blocks_joined n es c s0 (from_graph n es) x); try done.
  - apply (reach_partitions _ (from_graph n es)); [done| |apply from_graph_partitions].
    by apply from_graph_edges_valid.
  - constructor.
  - apply blocks_joined_root.
Qed.

Lemma submap_ge_const (L : list Z) (x s0 : Submap) (c : list Z) :
  NoDup L → partitions L x → partitions L s0 →
  submap_ge x s0 = true → const_on s0 c → const_on x c.
Proof.
  intros HL Hx Hs0 Hge Hconst v a b Hv Ha Hb.
  apply list_elem_of_lookup in Hv as [p Hp].
  assert (a ∈ L ∧ b ∈ L) as [HaL HbL].
  { split; apply (partitions_covers L x _ Hx); exists v;
      (split; [by eapply list_elem_of_lookup_2|done]). }
  apply (same_block_colour L s0); try done.
  apply (submap_ge_together L x); try done.
  by rewrite (block_index_unique L x a p v), (block_index_unique L x b p v).
Qed.

(** Contracting edges whose ends have one colour, as long as there are
    any, ends in a submap on whose blocks the colouring is constant and
    that separates no edge of one colour. *)
Lemma exists_proper (n : nat) (es : list Edge) (c : list Z) (k : nat) (y : Submap) :
  Forall (edge_valid n) es → (length (vertices y) ≤ k)%nat →
  reach (from_graph n es) y → const_on y c →
  ∃ s0, reach y s0 ∧ const_on s0 c ∧ proper_on es s0 c.
Proof.
  intros Hvalid. pose proof (graph_labels_NoDup n) as HL.
  pose proof (from_graph_edges_valid n es Hvalid) as Hroot.
  revert y. induction k as [|k IH]; intros y Hk Hy Hconst.
  - pose proof (reach_partitions _ _ _ Hy Hroot (from_graph_partitions n es))
      as Hyp.
    exists y. split; [constructor|]. split; [done|].
    intros e0 He0 _.
    assert (edge_valid n e0) as (Hs0 & _).
    { eapply Forall_forall in Hvalid; done. }
    destruct (block_index_found _ y _ HL Hyp (graph_labels_elem_of _ _ Hs0))
      as (p & v & Hp%lookup_lt_Some & _). lia.
  - pose proof (reach_edges_valid _ _ Hy Hroot) as Hyv.
    pose proof (reach_partitions _ _ _ Hy Hroot (from_graph_partitions n es))
      as Hyp.
    destruct (decide (Exists (λ e0,
                colour_of c (Z.of_nat (start_idx e0))
                = colour_of c (Z.of_nat (end_idx e0)) ∧
                block_index (vertices y) (Z.of_nat (start_idx e0))
                ≠ block_index (vertices y) (Z.of_nat (end_idx e0))) es))
      as [Hex|Hnone].
    + apply Exists_exists in Hex as (e0 & He0 & Hcol & Hne).
      destruct (edge_between n es y e0 Hvalid Hy He0 Hne)
        as (e & u & w & He & Hu & Hw & Hends).
      assert (contract y e ∈ get_direct_submaps y) as Hc.
      { apply elem_of_get_direct_submaps. by exists e. }
      destruct (child_blocks y _ Hyv Hc) as [_ Hcb].
      destruct (IH (contract y e)) as (s0 & Hr & Hs0c & Hs0p).
      * lia.
      * by eapply reach_snoc.
      * unfold const_on.
        apply (merge_constant (colour_of c) y e u w); try done.
        -- eapply Forall_forall in Hyv; done.
        -- destruct Hends as [[-> ->]|[-> ->]]; done.
      * exists s0. split; [by eapply reach_step|done].
    + exists y. split; [constructor|]. split; [done|].
      intros e0 He0 Hcol.
      destruct (decide (block_index (vertices y) (Z.of_nat (start_idx e0))
                        = block_index (vertices y) (Z.of_nat (end_idx e0))))
        as [|Hne]; [done|].
      destruct Hnone. apply Exists_exists. by exists e0.
Qed.

Lemma concat_NoDup_block (ls : list (list Z)) (v : list Z) :
  NoDup (concat ls) → v ∈ ls → NoDup v.
Proof.
  induction ls as [|l ls IH]; intros Hnd Hv; [by apply elem_of_nil in Hv|].
  simpl in Hnd. apply NoDup_app in Hnd as (Hl & _ & Hls).
  apply elem_of_cons in Hv as [->|Hv]; [done|by apply IH].
Qed.

(** Two descendants of the initial submap that [submap_ge] finds above
    each other are equal. *)
Lemma mutual_ge_eq (n : nat) (es : list Edge) (s1 s2 : Submap) :
  Forall (edge_valid n) es →
  reach (from_graph n es) s1 → reach (from_graph n es) s2 →
  submap_ge s1 s2 = true → submap_ge s2 s1 = true → s1 = s2.
Proof.
  intros Hvalid H1 H2 Hge12 Hge21.
  pose proof (graph_labels_NoDup n) as HL.
  pose proof (from_graph_edges_valid n es Hvalid) as Hroot.
  pose proof (reach_partitions _ _ _ H1 Hroot (from_graph_partitions n es)) as Hp1.
  pose proof (reach_partitions _ _ _ H2 Hroot (from_graph_partitions n es)) as Hp2.
  assert (∀ sa sb, partitions (graph_labels n) sa → partitions (graph_labels n) sb →
                   submap_ge sa sb = true → submap_ge sb sa = true →
                   ∀ b1, b1 ∈ vertices sa → ∃ b2, b2 ∈ vertices sb ∧ b1 ≡ₚ b2)
    as Hhalf.
  { intros sa sb Hpa Hpb Hab Hba b1 [p1 Hb1]%list_elem_of_lookup.
    assert (b1 ≠ []) as Hne.
    { destruct Hpa as [Hne _]. eapply Forall_forall in Hne; [done|].
      by eapply list_elem_of_lookup_2. }
    destruct b1 as [|u b1]; [done|].
    assert (∀ a, a ∈ u :: b1 → a ∈ graph_labels n) as HinL.
    { intros a Ha. apply (partitions_covers _ sa a Hpa). exists (u :: b1).
      split; [by eapply list_elem_of_lookup_2|done]. }
    destruct (block_index_found _ sb u HL Hpb (HinL u ltac:(by left)))
      as (p2 & b2 & Hb2 & Hu2 & Hidx2).
    exists b2. split; [by eapply list_elem_of_lookup_2|].
    apply NoDup_Permutation.
    - apply (concat_NoDup_block (vertices sa)); [|by eapply list_elem_of_lookup_2].
      destruct Hpa as [_ Hperm]. by rewrite Hperm.
    - apply (concat_NoDup_block (vertices sb)); [|by eapply list_elem_of_lookup_2].
      destruct Hpb as [_ Hperm]. by rewrite Hperm.
    - intros a. split.
      + intros Ha.
        assert (block_index (vertices sb) a = block_index (vertices sb) u) as Heq.
        { apply (submap_ge_together (graph_labels n) sa); try done; [by apply HinL..| |].
          - apply HinL. by left.
          - rewrite (block_index_unique (graph_labels n) sa a p1 (u :: b1)) by done.
            rewrite (block_index_unique (graph_labels n) sa u p1 (u :: b1)) by (done || by left).
            done. }
        destruct (block_index_found _ sb a HL Hpb (HinL a Ha))
          as (p & v & Hv & Hav & Hidx).
        assert (p = p2) as -> by congruence. by simplify_eq.
      + intros Ha.
        assert (a ∈ graph_labels n) as HaL.
        { apply (partitions_covers _ sb a Hpb). exists b2.
          split; [by eapply list_elem_of_lookup_2|done]. }
        assert (block_index (vertices sa) a = block_index (vertices sa) u) as Heq.
        { apply (submap_ge_together (graph_labels n) sb); try done.
          - apply HinL. by left.
          - rewrite (block_index_unique (graph_labels n) sb a p2 b2) by done. done. }
        destruct (block_index_found _ sa a HL Hpa HaL) as (p & v & Hv & Hav & Hidx).
        rewrite (block_index_unique (graph_labels n) sa u p1 (u :: b1)) in Heq by (done || by left).
        assert (p = p1) as -> by congruence. by simplify_eq. }
  apply (reach_same_blocks n es); try done.
  apply canonical_same_partition.
  - apply (reach_canonical _ _ H1), from_graph_canonical.
  - apply (reach_canonical _ _ H2), from_graph_canonical.
  - split; [by apply Hhalf|by apply Hhalf].
Qed.

(** In the enumerated list a submap stands behind every submap that is
    obtained from it by contractions. *)
Lemma descendants_first (l : list Submap) (s t : nat) (y x : Submap) :
  children_first l → NoDup l → (∀ z, z ∈ l → edges_valid z) →
  reach y x → l !! t = Some y → l !! s = Some x → (s ≤ t)%nat.
Proof.
  intros Hcf Hnd Hv Hr. revert t.
  induction Hr as [y|y c x Hc Hr IH]; intros t Ht Hs.
  - by rewrite (NoDup_lookup l s t y Hnd Hs Ht).
  - pose proof (Hv y ltac:(by eapply list_elem_of_lookup_2)) as Hyv.
    destruct (child_blocks y c Hyv Hc) as [Hlen _].
    destruct (Hcf t y c Ht Hlen Hc) as (q & Hq & Hcq).
    specialize (IH q Hcq Hs). lia.
Qed.

Lemma reach_trans (a b c : Submap) : reach a b → reach b c → reach a c.
Proof.
  induction 1 as [|a d b Hd _ IH]; [done|]. intros Hbc.
  eapply reach_step; [done|by apply IH].
Qed.

Lemma const_on_root (n : nat) (es : list Edge) (c : list Z) :
  const_on (from_graph n es) c.
Proof.
  intros v a b Hv Ha Hb.
  pose proof (from_graph_singletons n es) as Hone.
  eapply Forall_forall in Hone; [|done].
  destruct v as [|k [|k' v]]; simpl in Hone; [| |lia].
  - by apply elem_of_nil in Ha.
  - apply list_elem_of_singleton in Ha, Hb. by subst.
Qed.

(** On the initial submap, separating no edge of one colour means that
    the colouring is proper. *)
Lemma proper_on_root (n : nat) (es : list Edge) (c : list Z) :
  Forall (edge_valid n) es →
  proper_on es (from_graph n es) c ↔ proper_colouring es c = true.
Proof.
  intros Hvalid. unfold proper_on, proper_colouring. rewrite forallb_forall.
  split.
  - intros H e0 He0%list_elem_of_In.
    assert (edge_valid n e0) as (Hs & Ht & Hne).
    { eapply Forall_forall in Hvalid; done. }
    apply negb_true_iff, Z.eqb_neq. intros Hcol.
    specialize (H e0 He0). unfold colour_of in H. rewrite !Nat2Z.id in H.
    specialize (H Hcol). rewrite !block_index_root in H by done. done.
  - intros H e0 He0 Hcol. specialize (H e0 ltac:(by apply list_elem_of_In)).
    apply negb_true_iff, Z.eqb_neq in H. unfold colour_of in Hcol.
    rewrite !Nat2Z.id in Hcol. done.
Qed.

Lemma sum_swap (m : nat) (f : list Z → nat → Z) (C : list (list Z)) :
  coefficient_sum ((λ c, sum_upto m (f c)) <$> C)
  = sum_upto m (λ t, coefficient_sum ((λ c, f c t) <$> C)).
Proof.
  induction C as [|c C IH].
  - simpl. by rewrite sum_upto_zero.
  - rewrite fmap_cons.
    change (coefficient_sum (sum_upto m (f c) :: ((λ c, sum_upto m (f c)) <$> C)))
      with (sum_upto m (f c) + coefficient_sum ((λ c, sum_upto m (f c)) <$> C)).
    rewrite IH, <- sum_upto_plus. done.
Qed.

Lemma sum_scale (a : Z) (g : list Z → Z) (C : list (list Z)) :
  coefficient_sum ((λ c, a * g c) <$> C) = a * coefficient_sum (g <$> C).
Proof.
  induction C as [|c C IH]; [simpl; lia|].
  rewrite !fmap_cons.
  change (coefficient_sum (a * g c :: ((λ c, a * g c) <$> C)))
    with (a * g c + coefficient_sum ((λ c, a * g c) <$> C)).
  change (coefficient_sum (g c :: (g <$> C)))
    with (g c + coefficient_sum (g <$> C)).
  rewrite IH. lia.
Qed.

Lemma count_indicator (b : list Z → bool) (C : list (list Z)) :
  coefficient_sum ((λ c, if b c then 1 else 0) <$> C)
  = Z.of_nat (length (filter (λ c, b c = true) C)).
Proof.
  induction C as [|c C IH]; [done|].
  rewrite fmap_cons.
  change (coefficient_sum ((if b c then 1 else 0)
                           :: ((λ c, if b c then 1 else 0) <$> C)))
    with ((if b c then 1 else 0)
          + coefficient_sum ((λ c, if b c then 1 else 0) <$> C)).
  rewrite IH. destruct (b c) eqn:Hb.
  - rewrite filter_cons_True by done. simpl length. lia.
  - rewrite filter_cons_False by (by rewrite Hb). lia.
Qed.

(** X22: the computed polynomial is the chromatic polynomial.  For a graph
    on [n ≥ 1] vertices whose edges are in range and join distinct
    vertices, the value at [q] of the polynomial that the pipeline returns
    is the number of ways to give each vertex one of [q] colours so that no
    edge joins two vertices of the same colour. *)
Theorem X22_polynomial_counts_colourings (graph_changed : nat → bool)
    (junk : nat → nat → Z) (n : nat) (es : list Edge) (q : nat) :
  never_set graph_changed → Forall (edge_valid n) es → (1 ≤ n)%nat →
  ∃ P, pipeline graph_changed junk n es = Some P ∧
       polynomial_eval P (Z.of_nat q) = Z.of_nat (count_colourings q n es).
Proof.
  intros Hquiet Hvalid Hn.
  pose proof (from_graph_edges_valid n es Hvalid) as Hroot.
  pose proof (from_graph_partitions n es) as Hrootp.
  pose proof (graph_labels_NoDup n) as HL.
  destruct (get_all_submaps_visits graph_changed Hquiet (from_graph n es)
              init_globals eq_refl) as (l' & g1 & Heq & Hstop & Hcf & Hnodup & Hl').
  destruct (ordering_matrix_entries graph_changed Hquiet junk
              (l' ++ [from_graph n es]) g1 Hstop)
    as (M & g2 & HeqM & _ & Hshape & Hsize & Hentries).
  unfold pipeline. rewrite Heq, HeqM. eexists. split; [done|].
  set (l := l' ++ [from_graph n es]) in *.
  assert (length l = S (length l')) as Hll.
  { unfold l. rewrite length_app. simpl. lia. }
  assert (l !! length l' = Some (from_graph n es)) as Hlast.
  { unfold l. by rewrite lookup_app_r, Nat.sub_diag by lia. }
  assert (∀ x, x ∈ l → reach (from_graph n es) x) as Hreach.
  { intros x [Hx| ->%list_elem_of_singleton]%elem_of_app; [|constructor].
    by apply proper_reach_reach, Hl'. }
  assert (∀ x, x ∈ l → edges_valid x) as Hvalids.
  { intros x Hx. eapply reach_edges_valid; [by apply Hreach|done]. }
  assert (∀ x, x ∈ l → partitions (graph_labels n) x) as Hpart.
  { intros x Hx. eapply reach_partitions; [by apply Hreach|done..]. }
  assert (∀ x, reach (from_graph n es) x → x ∈ l) as Hclosed.
  { assert (∀ y x, reach y x → y ∈ l → x ∈ l) as Hgen.
    { induction 1 as [|y c x Hc Hr IH]; intros Hy; [done|].
      apply IH. pose proof Hy as [p Hp]%list_elem_of_lookup.
      destruct (child_blocks y c (Hvalids y Hy) Hc) as [Hlen _].
      destruct (Hcf p y c Hp Hlen Hc) as (k & _ & Hk).
      by eapply list_elem_of_lookup_2. }
    intros x Hx. apply (Hgen _ _ Hx). by eapply list_elem_of_lookup_2. }
  assert (unit_upper_triangular M) as Htri.
  { intros i j Hi Hj. rewrite Hsize in Hi, Hj.
    destruct (lookup_lt_is_Some_2 _ i Hi) as [si Hsi].
    destruct (lookup_lt_is_Some_2 _ j Hj) as [sj Hsj].
    rewrite (Hentries i j si sj Hsi Hsj). unfold order_value. split.
    - intros ->. simplify_eq. rewrite Nat.leb_refl, submap_ge_refl; [done|].
      apply (partitions_disjoint (graph_labels n)); [done|].
      by eapply Hpart, list_elem_of_lookup_2.
    - intros Hlt. destruct (Nat.leb_spec i j); [lia|done]. }
  destruct (get_mobius_inv M Htri) as (Hlen & _ & Hsum & _).
  rewrite Hsize in Hlen, Hsum.
  set (mu := get_mobius_of_column M) in *.
  (* one colouring at a time *)
  assert (∀ c, sum_upto (length l)
                 (λ t, mu !!! t * (if const_onb (l !!! t) c then 1 else 0))
               = if proper_colouring es c then 1 else 0) as Hone.
  { intros c.
    destruct (exists_proper n es c n (from_graph n es) Hvalid)
      as (s0 & Hs0 & Hs0c & Hs0p);
      [by rewrite from_graph_length|constructor|apply const_on_root|].
    pose proof (Hclosed s0 Hs0) as [s Hs]%list_elem_of_lookup.
    pose proof (lookup_lt_Some _ _ _ Hs) as Hslt.
    assert (∀ s1, reach (from_graph n es) s1 → const_on s1 c → proper_on es s1 c →
                  s1 = s0) as Hunique.
    { intros s1 H1 H1c H1p. apply (mutual_ge_eq n es); try done.
      - by apply (const_submap_ge n es c).
      - by apply (const_submap_ge n es c). }
    rewrite (sum_upto_ext _ (λ t, mu !!! t * entry M s t)).
    - rewrite (Hsum s) by lia.
      destruct (Nat.eqb_spec s (length l - 1)) as [->|Hne].
      + replace (length l - 1)%nat with (length l') in Hs by lia.
        simplify_eq. apply (proper_on_root n es c Hvalid) in Hs0p. by rewrite Hs0p.
      + destruct (proper_colouring es c) eqn:Hproper; [|done].
        apply (proper_on_root n es c Hvalid) in Hproper.
        pose proof (Hunique _ (reach_refl _) (const_on_root n es c) Hproper) as Heq0.
        rewrite Heq0 in Hlast.
        pose proof (NoDup_lookup l s (length l') s0 Hnodup Hs Hlast). lia.
    - intros t Ht. destruct (lookup_lt_is_Some_2 l t Ht) as [xt Hxt].
      rewrite (list_lookup_total_correct _ _ _ Hxt).
      rewrite (Hentries s t s0 xt Hs Hxt). unfold order_value.
      pose proof (Hreach xt ltac:(by eapply list_elem_of_lookup_2)) as Hxr.
      destruct (const_onb xt c) eqn:Hconst.
      + apply const_onb_true in Hconst.
        destruct (exists_proper n es c (length (vertices xt)) xt Hvalid)
          as (s1 & Hr1 & Hs1c & Hs1p); [done..|].
        assert (s1 = s0) as ->.
        { apply Hunique; [|done..]. by eapply reach_trans. }
        pose proof (descendants_first l s t xt s0 Hcf Hnodup Hvalids Hr1 Hxt Hs).
        rewrite (const_submap_ge n es c s0 xt) by done.
        destruct (Nat.leb_spec s t); [done|lia].
      + destruct (Nat.leb s t && submap_ge xt s0) eqn:Hge; [|done].
        apply andb_true_iff in Hge as [_ Hge].
        assert (const_onb xt c = true) as Hc; [|congruence].
        apply const_onb_true, (submap_ge_const (graph_labels n) xt s0); try done.
        * by eapply Hpart, list_elem_of_lookup_2.
        * by eapply Hpart, list_elem_of_lookup_2. }
  (* all colourings together *)
  unfold count_colourings.
  rewrite <- (count_indicator (proper_colouring es)).
  rewrite (list_fmap_ext _ (λ c, sum_upto (length l)
             (λ t, mu !!! t * (if const_onb (l !!! t) c then 1 else 0))))
    by (intros; by rewrite Hone).
  rewrite (sum_swap (length l)
             (λ c t, mu !!! t * (if const_onb (l !!! t) c then 1 else 0))).
  rewrite get_chromatic_polynomial_unfold, polynomial_eval_mobius.
  - rewrite polynomial_eval_zeros, Z.add_0_l. fold mu. rewrite Hlen.
    apply sum_upto_ext. intros t Ht.
    destruct (lookup_lt_is_Some_2 l t Ht) as [xt Hxt].
    rewrite (list_lookup_total_correct _ _ _ Hxt).
    pose proof (Hreach xt ltac:(by eapply list_elem_of_lookup_2)) as Hxr.
    pose proof (reach_blocks_bounds _ _ Hxr Hroot) as Hb.
    rewrite from_graph_length in Hb. specialize (Hb Hn).
    rewrite (sum_scale (mu !!! t) (λ c, if const_onb xt c then 1 else 0)).
    rewrite (count_indicator (const_onb xt)).
    rewrite const_colourings_count
      by (by eapply Hpart, list_elem_of_lookup_2).
    rewrite all_colourings_length.
    by replace (S (length (vertices xt) - 1)) with (length (vertices xt)) by lia.
  - fold mu. rewrite Hlen. intros t Ht.
    destruct (lookup_lt_is_Some_2 l t Ht) as [xt Hxt].
    rewrite (list_lookup_total_correct _ _ _ Hxt), length_replicate.
    pose proof (Hreach xt ltac:(by eapply list_elem_of_lookup_2)) as Hxr.
    pose proof (reach_blocks_bounds _ _ Hxr Hroot) as Hb.
    rewrite from_graph_length in Hb. lia.
Qed.

Lemma X22_polynomial_counts_colourings_witness :
  ∃ P, pipeline quiet (λ _ _, 0) 3 triangle = Some P ∧
       polynomial_eval P (Z.of_nat 3) = Z.of_nat (count_colourings 3 3 triangle).
Proof.
  apply (X22_polynomial_counts_colourings quiet (λ _ _, 0) 3 triangle 3).
  - apply quiet_never_set.
  - apply triangle_valid.
  - lia.
Defined.

(** ** Progress texts *)

Lemma add_number_digits (output : list Z) (n : Z) :
  1 ≤ n →
  ∃ ds, add_number_to_output output n = Some (output ++ ds) ∧
        Forall (λ c, 0x30 ≤ c ≤ 0x39) ds ∧ decimal_value ds = n.
Proof.
  intros Hn. unfold add_number_to_output, num_digits.
  destruct (num_digits_loop_spec (Z.to_nat n) 0 n ltac:(lia))
    as (d & -> & _ & Hpos).
  destruct (Hpos Hn) as (Hd & Hlo & Hhi).
  rewrite Z.add_0_l.
  destruct (add_digits_loop (λ q, 0x30 + q) d n output ltac:(lia))
    as (qs & Heq & Hlen & Hall & Hval & Hhd).
  exists (map (λ q, 0x30 + q) qs).
  split; [f_equal; unfold add_digits; rewrite Nat2Z.id; exact Heq|].
  split.
  - apply Forall_fmap. eapply Forall_impl; [done|]. simpl. lia.
  - rewrite decimal_value_glyphs, Hval. lia.
Qed.

Lemma add_ascii_string_spec (s : list ascii) (output codes : list Z) :
  Forall2 (λ c v, get_ascii_codepoint (char_code c) = Some v) s codes →
  add_ascii_string_to_output output s = Some (output ++ codes).
Proof.
  unfold add_ascii_string_to_output. intros H. revert output.
  induction H as [|c v s codes Hc _ IH]; intros output; simpl.
  - by rewrite app_nil_r.
  - unfold add_ascii_char_to_output at 2. rewrite Hc.
    rewrite IH, <- app_assoc. done.
Qed.

(** X23: for positive counters both progress texts are defined: they are
    "Found ", the decimal digits of the counter and " submaps", and
    "Processing ", the digits of the row counter, "/", the digits of the
    list size and " submaps"; every codepoint of them is in the table the
    font is loaded with. *)
Theorem X23_progress_texts (count rows total : Z) :
  1 ≤ count → 1 ≤ rows → 1 ≤ total →
  (∃ ds text,
      set_output_to_cur_submap_count count = Some text ∧
      text = [0x46; 0x6f; 0x75; 0x6e; 0x64; 0x20] ++ ds
             ++ [0x20; 0x73; 0x75; 0x62; 0x6d; 0x61; 0x70; 0x73] ∧
      decimal_value ds = count ∧ Forall (λ c, c ∈ codepoints) text) ∧
  (∃ ds1 ds2 text,
      set_output_to_cur_matrix_rows_count rows total = Some text ∧
      text = [0x50; 0x72; 0x6f; 0x63; 0x65; 0x73; 0x73; 0x69; 0x6e; 0x67; 0x20]
             ++ ds1 ++ [0x2f] ++ ds2
             ++ [0x20; 0x73; 0x75; 0x62; 0x6d; 0x61; 0x70; 0x73] ∧
      decimal_value ds1 = rows ∧ decimal_value ds2 = total ∧
      Forall (λ c, c ∈ codepoints) text).
Proof.
  intros Hcount Hrows Htotal.
  assert (∀ output, add_ascii_string_to_output output
                      [" "; "s"; "u"; "b"; "m"; "a"; "p"; "s"]%char
                    = Some (output ++ [0x20; 0x73; 0x75; 0x62; 0x6d; 0x61; 0x70; 0x73]))
    as Hsuffix.
  { intros output. apply add_ascii_string_spec.
    repeat (constructor; [reflexivity|]). constructor. }
  assert (Forall (λ c, c ∈ codepoints)
            [0x20; 0x73; 0x75; 0x62; 0x6d; 0x61; 0x70; 0x73]) as Hsf.
  { apply (bool_decide_unpack
             (Forall (λ c : Z, c ∈ codepoints)
                [0x20; 0x73; 0x75; 0x62; 0x6d; 0x61; 0x70; 0x73])).
    vm_compute. exact I. }
  assert (∀ ds, Forall (λ c, 0x30 ≤ c ≤ 0x39) ds → Forall (λ c, c ∈ codepoints) ds)
    as Hdigits.
  { intros ds Hds. eapply Forall_impl; [done|]. intros c Hc. by apply digits_in_font. }
  split.
  - unfold set_output_to_cur_submap_count.
    rewrite (add_ascii_string_spec _ [] [0x46; 0x6f; 0x75; 0x6e; 0x64; 0x20])
      by (repeat (constructor; [reflexivity|]); constructor).
    cbn [mbind option_bind app].
    destruct (add_number_digits [0x46; 0x6f; 0x75; 0x6e; 0x64; 0x20] count Hcount)
      as (ds & -> & Hds & Hval).
    cbn [mbind option_bind]. rewrite Hsuffix.
    eexists ds, _. split; [done|]. split; [by rewrite <- app_assoc|].
    split; [done|]. rewrite !Forall_app. split; [split|done]; [|by apply Hdigits].
    apply (bool_decide_unpack
             (Forall (λ c : Z, c ∈ codepoints) [0x46; 0x6f; 0x75; 0x6e; 0x64; 0x20])).
    vm_compute. exact I.
  - unfold set_output_to_cur_matrix_rows_count.
    rewrite (add_ascii_string_spec _ []
               [0x50; 0x72; 0x6f; 0x63; 0x65; 0x73; 0x73; 0x69; 0x6e; 0x67; 0x20])
      by (repeat (constructor; [reflexivity|]); constructor).
    cbn [mbind option_bind app].
    destruct (add_number_digits
                [0x50; 0x72; 0x6f; 0x63; 0x65; 0x73; 0x73; 0x69; 0x6e; 0x67; 0x20]
                rows Hrows) as (ds1 & -> & Hds1 & Hval1).
    cbn [mbind option_bind].
    assert (∀ output, add_ascii_char_to_output output "/" = Some (output ++ [0x2f]))
      as -> by done.
    cbn [mbind option_bind].
    destruct (add_number_digits
                (([0x50; 0x72; 0x6f; 0x63; 0x65; 0x73; 0x73; 0x69; 0x6e; 0x67; 0x20]
                  ++ ds1) ++ [0x2f]) total Htotal) as (ds2 & -> & Hds2 & Hval2).
    cbn [mbind option_bind]. rewrite Hsuffix.
    eexists ds1, ds2, _. split; [done|]. split; [by rewrite <- !app_assoc|].
    split; [done|]. split; [done|].
    rewrite !Forall_app. repeat split; try done; try (by apply Hdigits).
    + apply (bool_decide_unpack
               (Forall (λ c : Z, c ∈ codepoints)
                  [0x50; 0x72; 0x6f; 0x63; 0x65; 0x73; 0x73; 0x69; 0x6e; 0x67; 0x20])).
      vm_compute. exact I.
    + apply (bool_decide_unpack (Forall (λ c : Z, c ∈ codepoints) [0x2f])).
      vm_compute. exact I.
Qed.

Lemma X23_progress_texts_witness :
  (∃ ds text,
      set_output_to_cur_submap_count 12 = Some text ∧
      text = [0x46; 0x6f; 0x75; 0x6e; 0x64; 0x20] ++ ds
             ++ [0x20; 0x73; 0x75; 0x62; 0x6d; 0x61; 0x70; 0x73] ∧
      decimal_value ds = 12 ∧ Forall (λ c, c ∈ codepoints) text) ∧
  (∃ ds1 ds2 text,
      set_output_to_cur_matrix_rows_count 3 12 = Some text ∧
      text = [0x50; 0x72; 0x6f; 0x63; 0x65; 0x73; 0x73; 0x69; 0x6e; 0x67; 0x20]
             ++ ds1 ++ [0x2f] ++ ds2
             ++ [0x20; 0x73; 0x75; 0x62; 0x6d; 0x61; 0x70; 0x73] ∧
      decimal_value ds1 = 3 ∧ decimal_value ds2 = 12 ∧
      Forall (λ c, c ∈ codepoints) text).
Proof. apply (X23_progress_texts 12 3 12); lia. Defined.

(** ** Deleting and selecting nodes *)

Lemma active_node_count_all (nodes : list Node) :
  Forall (λ node, deleted node = false) nodes →
  active_node_count nodes = length nodes.
Proof.
  induction 1 as [|node nodes Hnode _ IH]; [done|].
  rewrite active_node_count_cons, Hnode, IH. done.
Qed.

Lemma active_node_count_deselect (nodes : list Node) :
  active_node_count (deselect_all_nodes nodes) = active_node_count nodes.
Proof.
  induction nodes as [|node nodes IH]; [done|].
  unfold deselect_all_nodes in *. simpl map.
  rewrite !active_node_count_cons, IH. done.
Qed.

(** X24: when no node is waiting for its removal and the edge list is
    well-formed over the node positions, pressing X on the selected node
    marks exactly that node deleted and starts its animation, keeps the
    array length, lowers the number of active nodes by one, clears every
    selection, sets [graph_changed], and leaves an edge list that is
    well-formed over the active nodes: the edges that did not touch the
    node, in their order, with the indices above it lowered by one. *)
Theorem X24_delete_selected_node (nodes : list Node) (es : list Edge) (sel : nat) :
  Forall (λ node, deleted node = false) nodes →
  well_formed_graph (length nodes) es → (sel < length nodes)%nat →
  ∃ nodes' es',
    delete_selected_node nodes es (Z.of_nat sel) = Some (nodes', es', -1, true) ∧
    length nodes' = length nodes ∧
    active_node_count nodes' = (length nodes - 1)%nat ∧
    es' = map (shift_edge sel) (filter (λ e, ¬ incident sel e) es) ∧
    well_formed_graph (active_node_count nodes') es' ∧
    Forall (λ node, selected node = false) nodes' ∧
    (∀ j node, nodes' !! j = Some node → deleted node = true ↔ j = sel) ∧
    (∃ node, nodes' !! sel = Some node ∧ disappear_animation_timer node = 30).
Proof.
  intros Hactive [Hvalid Hnd] Hsel. unfold delete_selected_node.
  assert ((0 <=? Z.of_nat sel) = true) as -> by lia. rewrite Nat2Z.id.
  destruct (lookup_lt_is_Some_2 nodes sel Hsel) as [nd Hnode]. rewrite Hnode.
  cbn [mbind option_bind]. unfold delete_node_edges.
  rewrite remove_incident_loop_filter by lia. rewrite take_0, drop_0.
  cbn [mbind option_bind app]. eexists _, _. split; [done|].
  set (marked := mkNode (x nd) (y nd) (selected nd) true (plop_animation_timer nd) 30).
  assert (active_node_count (<[sel := marked]> nodes) = (length nodes - 1)%nat)
    as Hcount.
  { rewrite <- (take_drop_middle nodes sel nd Hnode) at 1.
    assert (length (take sel nodes) = sel) as Hlen by (rewrite length_take; lia).
    rewrite insert_app_r_alt, Hlen, Nat.sub_diag by lia. simpl.
    rewrite active_node_count_app, active_node_count_cons. simpl.
    rewrite !active_node_count_all.
    - rewrite Hlen, length_drop. lia.
    - by apply Forall_drop.
    - by apply Forall_take. }
  split; [unfold deselect_all_nodes; by rewrite length_map, length_insert|].
  split; [by rewrite active_node_count_deselect|].
  split; [done|]. split; [|split; [|split]].
  - rewrite active_node_count_deselect, Hcount. split.
    + apply Forall_fmap, Forall_forall. intros e [Hinc He]%list_elem_of_filter.
      eapply Forall_forall in Hvalid; [|done].
      destruct Hvalid as (? & ? & ?). unfold incident in Hinc.
      unfold edge_valid, shift_edge. simpl. split_tests; lia.
    + apply no_duplicate_edge_shift; [|by apply no_duplicate_edge_filter].
      apply Forall_forall. by intros e [? _]%list_elem_of_filter.
  - unfold deselect_all_nodes. apply Forall_fmap, Forall_forall. by intros.
  - intros j node Hj. unfold deselect_all_nodes in Hj.
    rewrite list_lookup_fmap in Hj.
    destruct (decide (j = sel)) as [->|Hne].
    + rewrite list_lookup_insert_eq in Hj by done. simpl in Hj. simplify_eq.
      by split.
    + rewrite list_lookup_insert_ne in Hj by done.
      destruct (nodes !! j) as [old|] eqn:Hold; [|done]. simpl in Hj. simplify_eq.
      simpl. eapply Forall_forall in Hactive; [|by eapply list_elem_of_lookup_2].
      rewrite Hactive. split; [done|by intros].
  - eexists. unfold deselect_all_nodes.
    rewrite list_lookup_fmap, list_lookup_insert_eq by done. simpl. done.
Qed.

Lemma X24_delete_selected_node_witness :
  ∃ nodes' es',
    delete_selected_node three_nodes triangle (Z.of_nat 0)
    = Some (nodes', es', -1, true) ∧
    length nodes' = length three_nodes ∧
    active_node_count nodes' = (length three_nodes - 1)%nat ∧
    es' = map (shift_edge 0) (filter (λ e, ¬ incident 0 e) triangle) ∧
    well_formed_graph (active_node_count nodes') es' ∧
    Forall (λ node, selected node = false) nodes' ∧
    (∀ j node, nodes' !! j = Some node → deleted node = true ↔ j = 0%nat) ∧
    (∃ node, nodes' !! 0%nat = Some node ∧ disappear_animation_timer node = 30).
Proof.
  apply (X24_delete_selected_node three_nodes triangle 0).
  - repeat constructor.
  - apply triangle_well_formed.
  - simpl. lia.
Defined.

Lemma get_node_idx_loop_hit (i : nat) (nodes : list Node) (x_ y_ : Z) :
  (get_node_idx_loop i nodes x_ y_ = -1 ∧
   Forall (λ node, hit x_ y_ node = false) nodes) ∨
  ∃ k node, get_node_idx_loop i nodes x_ y_ = Z.of_nat (i + k) ∧
            nodes !! k = Some node ∧ hit x_ y_ node = true ∧
            Forall (λ node, hit x_ y_ node = false) (take k nodes).
Proof.
  revert i. induction nodes as [|nd nodes IH]; intros i; [left; by split|].
  cbn [get_node_idx_loop]. fold (hit x_ y_ nd).
  destruct (hit x_ y_ nd) eqn:Hnd.
  - right. exists 0%nat, nd. split; [f_equal; lia|]. repeat split; try done.
  - destruct (IH (S i)) as [[-> Hall]|(k & node & -> & Hk & Hhit & Hall)].
    + left. split; [done|by constructor].
    + right. exists (S k), node. split; [f_equal; lia|].
      repeat split; try done. simpl. by constructor.
Qed.

Lemma hit_deselect (x_ y_ : Z) (nodes : list Node) (P : bool → Prop) :
  Forall (λ node, P (hit x_ y_ node)) (deselect_all_nodes nodes)
  ↔ Forall (λ node, P (hit x_ y_ node)) nodes.
Proof. unfold deselect_all_nodes. by rewrite Forall_fmap. Qed.

(** X25: after a left click exactly one node is selected, it is not marked
    deleted and [selected_idx] is its position; position and deletion mark
    of the nodes that were there are unchanged.  Either the selected node
    is the first active node within [NODE_SIZE] of the mouse, and nothing
    else happens, or there is no such node: then a new node is appended at
    the mouse position and [graph_changed] is set. *)
Theorem X25_left_click (nodes : list Node) (mouse_x mouse_y : Z) :
  ∃ nodes' k changed node,
    select_or_create_node nodes mouse_x mouse_y = (nodes', Z.of_nat k, changed) ∧
    nodes' !! k = Some node ∧ selected node = true ∧ deleted node = false ∧
    (∀ j node', nodes' !! j = Some node' → selected node' = true → j = k) ∧
    (∀ j old, nodes !! j = Some old →
              ∃ new, nodes' !! j = Some new ∧ x new = x old ∧ y new = y old ∧
                     deleted new = deleted old) ∧
    if changed
    then nodes' = deselect_all_nodes nodes ++ [mkNode mouse_x mouse_y true false 30 0]
         ∧ k = length nodes
         ∧ Forall (λ node, hit mouse_x mouse_y node = false) nodes
    else length nodes' = length nodes ∧ hit mouse_x mouse_y node = true ∧
         Forall (λ node, hit mouse_x mouse_y node = false) (take k nodes).
Proof.
  unfold select_or_create_node, get_node_idx_at_coords.
  destruct (get_node_idx_loop_hit 0 (deselect_all_nodes nodes) mouse_x mouse_y)
    as [[-> Hall]|(k & node & -> & Hk & Hhit & Hall)].
  - assert ((0 <=? -1) = false) as -> by done.
    exists (deselect_all_nodes nodes ++ [mkNode mouse_x mouse_y true false 30 0]),
      (length nodes), true, (mkNode mouse_x mouse_y true false 30 0).
    assert (length (deselect_all_nodes nodes) = length nodes) as Hlen
      by (unfold deselect_all_nodes; by rewrite length_map).
    split; [f_equal; f_equal; rewrite length_app, Hlen; simpl; lia|].
    split; [by rewrite lookup_app_r, Hlen, Nat.sub_diag by lia|].
    split; [done|]. split; [done|]. split; [|split].
    + intros j node' Hj Hs.
      destruct (decide (j < length nodes)%nat) as [Hlt|Hge].
      * rewrite lookup_app_l in Hj by lia. unfold deselect_all_nodes in Hj.
        rewrite list_lookup_fmap in Hj.
        destruct (nodes !! j); simpl in Hj; [|done]. by simplify_eq.
      * apply lookup_lt_Some in Hj. rewrite length_app in Hj. simpl in Hj. lia.
    + intros j old Hold. unfold deselect_all_nodes.
      rewrite lookup_app_l by (rewrite length_map; by eapply lookup_lt_Some).
      rewrite list_lookup_fmap, Hold. simpl. by eexists.
    + split; [done|]. split; [done|].
      by apply (hit_deselect mouse_x mouse_y nodes (λ b, b = false)).
  - assert ((0 <=? Z.of_nat (0 + k)) = true) as -> by (apply Z.leb_le; lia).
    rewrite Nat2Z.id. simpl Nat.add.
    unfold deselect_all_nodes in Hk |- *. rewrite list_lookup_fmap in Hk.
    destruct (nodes !! k) as [old|] eqn:Hold; simpl in Hk; [|done].
    simplify_eq.
    eexists _, k, false, _. split; [done|].
    split; [by rewrite list_lookup_alter_eq, list_lookup_fmap, Hold|].
    split; [done|]. simpl.
    split; [unfold hit in Hhit; simpl in Hhit; by destruct (deleted old)|].
    split; [|split].
    + intros j node' Hj Hs. destruct (decide (j = k)) as [|Hne]; [done|].
      rewrite list_lookup_alter_ne in Hj by done.
      rewrite list_lookup_fmap in Hj.
      destruct (nodes !! j); simpl in Hj; [|done]. by simplify_eq.
    + intros j old' Hold'. destruct (decide (j = k)) as [->|Hne].
      * rewrite list_lookup_alter_eq, list_lookup_fmap, Hold. simplify_eq.
        simpl. by eexists.
      * rewrite list_lookup_alter_ne, list_lookup_fmap, Hold' by done.
        simpl. by eexists.
    + split; [by rewrite length_alter, length_map|]. split; [done|].
      unfold deselect_all_nodes in Hall. rewrite <- fmap_take in Hall.
      by apply (hit_deselect mouse_x mouse_y (take k nodes) (λ b, b = false)).
Qed.
